(** * Storybook Reader: the capture / synthesis / playback orchestration

    A shallow embedding of the mobile client's orchestration code
    ([mobile/App.tsx]), of the stand-alone audio player component
    ([mobile/src/components/AudioPlayer.tsx]), of the navigation based
    screens and of the axios based service client ([src/services/api.ts]).

    [App] is a single React component whose handlers are [async]
    functions.  An [async] function runs synchronously up to its next
    [await], and is resumed later with the outcome of the awaited promise;
    between the two, any other handler or continuation may run.  The
    embedding therefore is

    - a [World]: the component's [useState] cells and [useRef] cells, the
      handles the audio engine holds, and a [log] of every observable
      call (state setters, alerts, native and network calls), in program
      order;
    - a [Proc] for every suspension point of every [async] function, with
      the locals that are live across it;
    - [resume]: what the code does from one suspension point, given the
      outcome of the awaited promise, up to the next suspension point;
    - [step]: one task of the JavaScript event loop (a press, a playback
      status callback, or the settling of one pending promise) on a
      [System], a world together with the pool of suspended functions.

    React renders after every task, so each handler is the closure of the
    latest render and reads the current cells; after an [await] the code
    only reads refs and its own locals.  What is on display is taken to
    be the cells: rendering itself is React's and is not modelled. *)

From Stdlib Require Import ZArith NArith QArith Lia String Ascii.
From stdpp Require Import base option list.

Local Open Scope nat_scope.
Local Open Scope list_scope.

(** ** JavaScript strings *)

(** A JavaScript string is a sequence of UTF-16 code units. *)
Definition jsstring : Type := list N.

(** A literal of the source, written in ASCII. *)
Fixpoint str (s : string) : jsstring :=
  match s with
  | EmptyString => []
  | String a r => N_of_ascii a :: str r
  end.

Arguments str : simpl never.

(** A string is truthy when it is not empty. *)
Definition truthy (s : jsstring) : bool :=
  match s with
  | [] => false
  | _ :: _ => true
  end.

(** ECMAScript [WhiteSpace] and [LineTerminator] code units, the ones
    [String.prototype.trim] removes. *)
Definition isWhiteSpace (c : N) : bool :=
  ((9 <=? c) && (c <=? 13) || (c =? 32) || (c =? 160) || (c =? 5760)
   || (8192 <=? c) && (c <=? 8202) || (c =? 8232) || (c =? 8233)
   || (c =? 8239) || (c =? 8287) || (c =? 12288) || (c =? 65279))%N.

Fixpoint trimStart (s : jsstring) : jsstring :=
  match s with
  | [] => []
  | c :: r => if isWhiteSpace c then trimStart r else s
  end.

Definition trimEnd (s : jsstring) : jsstring := rev (trimStart (rev s)).

Definition trim (s : jsstring) : jsstring := trimEnd (trimStart s).

(** [x || fallback] on a string-or-missing value. *)
Definition orElse (x : option jsstring) (fallback : jsstring) : jsstring :=
  match x with
  | Some s => if truthy s then s else fallback
  | None => fallback
  end.

(** ** Values that cross an [await] *)

(** What a [catch] clause can receive.  The handlers only test
    [error instanceof Error] and read [error.message]. *)
Inductive Thrown : Type :=
| ThrownError (message : jsstring)
| ThrownValue.

(** The parsed body of [POST /api/ocr].  A field is [None] when it is
    missing or [null]. *)
Record OcrResult := mkOcrResult {
  text : option jsstring;
  detected_language : option jsstring
}.

(** The [detail] field of an error body, as
    [new Error(error.detail || 'Server error')] sees it: whether the value
    is truthy, and the text [ToString] gives for it (the [Error]
    constructor converts its argument with [ToString]). *)
Record ErrorDetail := mkErrorDetail {
  detail_truthy : bool;
  detail_text : jsstring
}.

(** [detail] is a JSON string. *)
Definition detailString (s : jsstring) : ErrorDetail :=
  {| detail_truthy := truthy s; detail_text := s |}.

(** [detail] is missing from the body. *)
Definition detailMissing : ErrorDetail :=
  {| detail_truthy := false; detail_text := str "undefined" |}.

(** [detail] is the JSON array [[]]: an object, hence truthy, that
    [Array.prototype.toString] renders as the empty string. *)
Definition detailEmptyArray : ErrorDetail :=
  {| detail_truthy := true; detail_text := [] |}.

(** [new Error(error.detail || 'Server error').message]. *)
Definition serverErrorMessage (d : ErrorDetail) : jsstring :=
  if detail_truthy d then detail_text d else str "Server error".

Inductive Value : Type :=
| VUndefined
| VResponse (ok : bool)
| VPhoto (uri : option jsstring)
| VManipulated (uri : jsstring)
| VString (s : jsstring)
| VOcrResult (r : OcrResult)
| VTtsResult (audio_base64 : jsstring)
| VErrorBody (d : ErrorDetail)
| VSound.

(** How an awaited promise settles.  A body on which the property reads
    of the code would themselves throw (a JSON [null]) counts as a
    rejection: the [TypeError] is raised inside the same [try]. *)
Inductive Outcome : Type :=
| Resolved (v : Value)
| Rejected (e : Thrown).

(** ** The component's state *)

Inductive Screen : Type := home | camera | player.

Inductive ServerStatus : Type := checking | connected | error.

(** An [Audio.Sound] object, identified by the order of its creation. *)
Definition Sound : Type := nat.

Inductive Request : Type :=
| GetHealth
| PostOcr (image_base64 language : jsstring)
| PostTts (text language voice_style : jsstring) (speed : Q).

(** The calls that are visible outside the component. *)
Inductive Action : Type :=
| SetScreen (v : Screen)
| SetServerStatus (v : ServerStatus)
| SetIsProcessing (v : bool)
| SetLoadingText (v : jsstring)
| SetExtractedText (v : jsstring)
| SetSound (v : option Sound)
| SetIsPlaying (v : bool)
| SetAudioReady (v : bool)
| SetIsGeneratingAudio (v : bool)
| SetTtsError (v : option jsstring)
| SetDetectedLanguage (v : jsstring)
| AlertAlert (title message : jsstring)
| RequestPermission
| Fetch (r : Request)
| TakePictureAsync (quality : Q)
| ManipulateAsync (uri : jsstring) (width : Z) (compress : Q)
| ReadAsStringAsync (uri : jsstring)
| WriteAsStringAsync (contents : jsstring)
| SetAudioModeAsync
| CreateAsync
| StopAsync (s : Sound)
| UnloadAsync (s : Sound)
| PauseAsync (s : Sound)
| PlayAsync (s : Sound)
| UnhandledRejection (e : Thrown).

(** The [useState] cells ([screen] .. [detectedLanguage];
    [permissionGranted] is [permission?.granted]), the [useRef]
    cells ([soundRef], [ttsRequestId]), the sounds the audio engine has
    loaded and not unloaded ([loaded]), the number of sounds created so
    far ([nextSound]) and the calls made so far ([log]).
    [ttsRequestId] is a JavaScript number that is only ever incremented by
    one from zero; it is exact below 2^53 and modelled as [nat]. *)
#[projections(primitive)]
Record World := mkWorld {
  screen : Screen;
  serverStatus : ServerStatus;
  permissionGranted : bool;
  isProcessing : bool;
  loadingText : jsstring;
  extractedText : jsstring;
  sound : option Sound;
  isPlaying : bool;
  audioReady : bool;
  isGeneratingAudio : bool;
  ttsError : option jsstring;
  detectedLanguage : jsstring;
  soundRef : option Sound;
  ttsRequestId : nat;
  loaded : list Sound;
  nextSound : nat;
  log : list Action
}.

Definition with_screen (v : Screen) (w : World) : World :=
  {| screen := v; serverStatus := serverStatus w;
     permissionGranted := permissionGranted w;
     isProcessing := isProcessing w; loadingText := loadingText w;
     extractedText := extractedText w; sound := sound w;
     isPlaying := isPlaying w; audioReady := audioReady w;
     isGeneratingAudio := isGeneratingAudio w; ttsError := ttsError w;
     detectedLanguage := detectedLanguage w; soundRef := soundRef w;
     ttsRequestId := ttsRequestId w; loaded := loaded w;
     nextSound := nextSound w; log := log w |}.

Definition with_serverStatus (v : ServerStatus) (w : World) : World :=
  {| screen := screen w; serverStatus := v;
     permissionGranted := permissionGranted w;
     isProcessing := isProcessing w; loadingText := loadingText w;
     extractedText := extractedText w; sound := sound w;
     isPlaying := isPlaying w; audioReady := audioReady w;
     isGeneratingAudio := isGeneratingAudio w; ttsError := ttsError w;
     detectedLanguage := detectedLanguage w; soundRef := soundRef w;
     ttsRequestId := ttsRequestId w; loaded := loaded w;
     nextSound := nextSound w; log := log w |}.

Definition with_permissionGranted (v : bool) (w : World) : World :=
  {| screen := screen w; serverStatus := serverStatus w;
     permissionGranted := v; isProcessing := isProcessing w;
     loadingText := loadingText w; extractedText := extractedText w;
     sound := sound w; isPlaying := isPlaying w; audioReady := audioReady w;
     isGeneratingAudio := isGeneratingAudio w; ttsError := ttsError w;
     detectedLanguage := detectedLanguage w; soundRef := soundRef w;
     ttsRequestId := ttsRequestId w; loaded := loaded w;
     nextSound := nextSound w; log := log w |}.

Definition with_isProcessing (v : bool) (w : World) : World :=
  {| screen := screen w; serverStatus := serverStatus w;
     permissionGranted := permissionGranted w; isProcessing := v;
     loadingText := loadingText w; extractedText := extractedText w;
     sound := sound w; isPlaying := isPlaying w; audioReady := audioReady w;
     isGeneratingAudio := isGeneratingAudio w; ttsError := ttsError w;
     detectedLanguage := detectedLanguage w; soundRef := soundRef w;
     ttsRequestId := ttsRequestId w; loaded := loaded w;
     nextSound := nextSound w; log := log w |}.

Definition with_loadingText (v : jsstring) (w : World) : World :=
  {| screen := screen w; serverStatus := serverStatus w;
     permissionGranted := permissionGranted w;
     isProcessing := isProcessing w; loadingText := v;
     extractedText := extractedText w; sound := sound w;
     isPlaying := isPlaying w; audioReady := audioReady w;
     isGeneratingAudio := isGeneratingAudio w; ttsError := ttsError w;
     detectedLanguage := detectedLanguage w; soundRef := soundRef w;
     ttsRequestId := ttsRequestId w; loaded := loaded w;
     nextSound := nextSound w; log := log w |}.

Definition with_extractedText (v : jsstring) (w : World) : World :=
  {| screen := screen w; serverStatus := serverStatus w;
     permissionGranted := permissionGranted w;
     isProcessing := isProcessing w; loadingText := loadingText w;
     extractedText := v; sound := sound w; isPlaying := isPlaying w;
     audioReady := audioReady w; isGeneratingAudio := isGeneratingAudio w;
     ttsError := ttsError w; detectedLanguage := detectedLanguage w;
     soundRef := soundRef w; ttsRequestId := ttsRequestId w;
     loaded := loaded w; nextSound := nextSound w; log := log w |}.

Definition with_sound (v : option Sound) (w : World) : World :=
  {| screen := screen w; serverStatus := serverStatus w;
     permissionGranted := permissionGranted w;
     isProcessing := isProcessing w; loadingText := loadingText w;
     extractedText := extractedText w; sound := v; isPlaying := isPlaying w;
     audioReady := audioReady w; isGeneratingAudio := isGeneratingAudio w;
     ttsError := ttsError w; detectedLanguage := detectedLanguage w;
     soundRef := soundRef w; ttsRequestId := ttsRequestId w;
     loaded := loaded w; nextSound := nextSound w; log := log w |}.

Definition with_isPlaying (v : bool) (w : World) : World :=
  {| screen := screen w; serverStatus := serverStatus w;
     permissionGranted := permissionGranted w;
     isProcessing := isProcessing w; loadingText := loadingText w;
     extractedText := extractedText w; sound := sound w; isPlaying := v;
     audioReady := audioReady w; isGeneratingAudio := isGeneratingAudio w;
     ttsError := ttsError w; detectedLanguage := detectedLanguage w;
     soundRef := soundRef w; ttsRequestId := ttsRequestId w;
     loaded := loaded w; nextSound := nextSound w; log := log w |}.

Definition with_audioReady (v : bool) (w : World) : World :=
  {| screen := screen w; serverStatus := serverStatus w;
     permissionGranted := permissionGranted w;
     isProcessing := isProcessing w; loadingText := loadingText w;
     extractedText := extractedText w; sound := sound w;
     isPlaying := isPlaying w; audioReady := v;
     isGeneratingAudio := isGeneratingAudio w; ttsError := ttsError w;
     detectedLanguage := detectedLanguage w; soundRef := soundRef w;
     ttsRequestId := ttsRequestId w; loaded := loaded w;
     nextSound := nextSound w; log := log w |}.

Definition with_isGeneratingAudio (v : bool) (w : World) : World :=
  {| screen := screen w; serverStatus := serverStatus w;
     permissionGranted := permissionGranted w;
     isProcessing := isProcessing w; loadingText := loadingText w;
     extractedText := extractedText w; sound := sound w;
     isPlaying := isPlaying w; audioReady := audioReady w;
     isGeneratingAudio := v; ttsError := ttsError w;
     detectedLanguage := detectedLanguage w; soundRef := soundRef w;
     ttsRequestId := ttsRequestId w; loaded := loaded w;
     nextSound := nextSound w; log := log w |}.

Definition with_ttsError (v : option jsstring) (w : World) : World :=
  {| screen := screen w; serverStatus := serverStatus w;
     permissionGranted := permissionGranted w;
     isProcessing := isProcessing w; loadingText := loadingText w;
     extractedText := extractedText w; sound := sound w;
     isPlaying := isPlaying w; audioReady := audioReady w;
     isGeneratingAudio := isGeneratingAudio w; ttsError := v;
     detectedLanguage := detectedLanguage w; soundRef := soundRef w;
     ttsRequestId := ttsRequestId w; loaded := loaded w;
     nextSound := nextSound w; log := log w |}.

Definition with_detectedLanguage (v : jsstring) (w : World) : World :=
  {| screen := screen w; serverStatus := serverStatus w;
     permissionGranted := permissionGranted w;
     isProcessing := isProcessing w; loadingText := loadingText w;
     extractedText := extractedText w; sound := sound w;
     isPlaying := isPlaying w; audioReady := audioReady w;
     isGeneratingAudio := isGeneratingAudio w; ttsError := ttsError w;
     detectedLanguage := v; soundRef := soundRef w;
     ttsRequestId := ttsRequestId w; loaded := loaded w;
     nextSound := nextSound w; log := log w |}.

Definition with_soundRef (v : option Sound) (w : World) : World :=
  {| screen := screen w; serverStatus := serverStatus w;
     permissionGranted := permissionGranted w;
     isProcessing := isProcessing w; loadingText := loadingText w;
     extractedText := extractedText w; sound := sound w;
     isPlaying := isPlaying w; audioReady := audioReady w;
     isGeneratingAudio := isGeneratingAudio w; ttsError := ttsError w;
     detectedLanguage := detectedLanguage w; soundRef := v;
     ttsRequestId := ttsRequestId w; loaded := loaded w;
     nextSound := nextSound w; log := log w |}.

Definition with_ttsRequestId (v : nat) (w : World) : World :=
  {| screen := screen w; serverStatus := serverStatus w;
     permissionGranted := permissionGranted w;
     isProcessing := isProcessing w; loadingText := loadingText w;
     extractedText := extractedText w; sound := sound w;
     isPlaying := isPlaying w; audioReady := audioReady w;
     isGeneratingAudio := isGeneratingAudio w; ttsError := ttsError w;
     detectedLanguage := detectedLanguage w; soundRef := soundRef w;
     ttsRequestId := v; loaded := loaded w; nextSound := nextSound w;
     log := log w |}.

Definition with_loaded (v : list Sound) (w : World) : World :=
  {| screen := screen w; serverStatus := serverStatus w;
     permissionGranted := permissionGranted w;
     isProcessing := isProcessing w; loadingText := loadingText w;
     extractedText := extractedText w; sound := sound w;
     isPlaying := isPlaying w; audioReady := audioReady w;
     isGeneratingAudio := isGeneratingAudio w; ttsError := ttsError w;
     detectedLanguage := detectedLanguage w; soundRef := soundRef w;
     ttsRequestId := ttsRequestId w; loaded := v; nextSound := nextSound w;
     log := log w |}.

Definition with_nextSound (v : nat) (w : World) : World :=
  {| screen := screen w; serverStatus := serverStatus w;
     permissionGranted := permissionGranted w;
     isProcessing := isProcessing w; loadingText := loadingText w;
     extractedText := extractedText w; sound := sound w;
     isPlaying := isPlaying w; audioReady := audioReady w;
     isGeneratingAudio := isGeneratingAudio w; ttsError := ttsError w;
     detectedLanguage := detectedLanguage w; soundRef := soundRef w;
     ttsRequestId := ttsRequestId w; loaded := loaded w; nextSound := v;
     log := log w |}.

Definition emit (a : Action) (w : World) : World :=
  {| screen := screen w; serverStatus := serverStatus w;
     permissionGranted := permissionGranted w;
     isProcessing := isProcessing w; loadingText := loadingText w;
     extractedText := extractedText w; sound := sound w;
     isPlaying := isPlaying w; audioReady := audioReady w;
     isGeneratingAudio := isGeneratingAudio w; ttsError := ttsError w;
     detectedLanguage := detectedLanguage w; soundRef := soundRef w;
     ttsRequestId := ttsRequestId w; loaded := loaded w;
     nextSound := nextSound w; log := log w ++ [a] |}.

Definition setScreen v w := emit (SetScreen v) (with_screen v w).
Definition setServerStatus v w :=
  emit (SetServerStatus v) (with_serverStatus v w).
Definition setIsProcessing v w :=
  emit (SetIsProcessing v) (with_isProcessing v w).
Definition setLoadingText v w := emit (SetLoadingText v) (with_loadingText v w).
Definition setExtractedText v w :=
  emit (SetExtractedText v) (with_extractedText v w).
Definition setSound v w := emit (SetSound v) (with_sound v w).
Definition setIsPlaying v w := emit (SetIsPlaying v) (with_isPlaying v w).
Definition setAudioReady v w := emit (SetAudioReady v) (with_audioReady v w).
Definition setIsGeneratingAudio v w :=
  emit (SetIsGeneratingAudio v) (with_isGeneratingAudio v w).
Definition setTtsError v w := emit (SetTtsError v) (with_ttsError v w).
Definition setDetectedLanguage v w :=
  emit (SetDetectedLanguage v) (with_detectedLanguage v w).

(** [const [screen, setScreen] = useState('home')] and the other initial
    values of [App]. *)
Definition initialWorld : World :=
  {| screen := home; serverStatus := checking; permissionGranted := false;
     isProcessing := false; loadingText := []; extractedText := [];
     sound := None; isPlaying := false; audioReady := false;
     isGeneratingAudio := false; ttsError := None;
     detectedLanguage := str "auto"; soundRef := None; ttsRequestId := 0;
     loaded := []; nextSound := 0; log := [] |}.

(** ** Suspension points *)

(** Who awaits a running [cleanupSound], with the locals it needs when it
    goes on. *)
Inductive Caller : Type :=
| K_handleCapture
| K_goHome
| K_takeAnother
| K_generateAudio (requestId : nat) (audio_base64 : jsstring).

(** One constructor for each [await] of [App], named after the function
    and the awaited call.  [CleanupSound_return], [LoadAudio_return] and
    [LoadAudio_throw] are the points where an inner [async] function has
    finished and the function awaiting it has not yet been resumed. *)
Inductive Proc : Type :=
| CheckServer_fetch
| CleanupSound_stop (currentSound : Sound) (k : Caller)
| CleanupSound_unload (currentSound : Sound) (k : Caller)
| CleanupSound_return (k : Caller)
| HandleCapture_takePicture
| HandleCapture_manipulate
| HandleCapture_read
| HandleCapture_fetch
| HandleCapture_errorJson
| HandleCapture_resultJson
| GenerateAudio_fetch (requestId : nat)
| GenerateAudio_errorJson (requestId : nat)
| GenerateAudio_resultJson (requestId : nat)
| LoadAudio_write (requestId : nat)
| LoadAudio_setAudioMode (requestId : nat)
| LoadAudio_create (requestId : nat)
| LoadAudio_return (requestId : nat)
| LoadAudio_throw (requestId : nat) (e : Thrown)
| PlayPause_pause
| PlayPause_play.

(** What one run of a function, from a suspension point to the next,
    leaves behind: the world, the point the function is suspended at now
    ([None] when it has finished) and the functions it has started without
    awaiting them. *)
Record Ran := mkRan {
  after : World;
  next : option Proc;
  spawned : list Proc
}.

Definition suspend (w : World) (p : Proc) : Ran :=
  {| after := w; next := Some p; spawned := [] |}.

Definition finish (w : World) : Ran :=
  {| after := w; next := None; spawned := [] |}.

(** ** The functions of [App] *)

(** [cameraRef.current] is set while the [CameraView] is mounted, which
    the render function does on the camera screen once the permission is
    granted. *)
Definition cameraRefCurrent (w : World) : bool :=
  match screen w with
  | camera => permissionGranted w
  | _ => false
  end.

(** The message of the [TypeError] the engine raises when
    [cameraRef.current] is read as [null]; its wording is the engine's. *)
Definition nullCameraMessage : jsstring :=
  str "Cannot read property 'takePictureAsync' of null".

Definition checkServer (w : World) : World * Proc :=
  (emit (Fetch GetHealth) (setServerStatus checking w), CheckServer_fetch).

Definition invalidate (w : World) : World :=
  setTtsError None
    (setAudioReady false
       (setIsGeneratingAudio false
          (with_ttsRequestId (ttsRequestId w + 1) w))).

Definition cleanupSound (invalidateRequests : bool) (k : Caller) (w : World)
  : World * Proc :=
  let w1 := if invalidateRequests then invalidate w else w in
  match soundRef w1 with
  | None => (w1, CleanupSound_return k)
  | Some currentSound =>
      (emit (StopAsync currentSound) w1, CleanupSound_stop currentSound k)
  end.

(** The engine forgets a sound when its [unloadAsync] resolves. *)
Definition unloaded (s : Sound) (o : Outcome) (w : World) : World :=
  match o with
  | Resolved _ => with_loaded (filter (fun x => x ≠ s) (loaded w)) w
  | Rejected _ => w
  end.

Definition generateAudio_finally (requestId : nat) (w : World) : World :=
  if ttsRequestId w =? requestId then setIsGeneratingAudio false w else w.

Definition generateAudio_message (e : Thrown) : jsstring :=
  match e with
  | ThrownError message => message
  | ThrownValue => str "Failed to generate audio"
  end.

Definition generateAudio_catch (requestId : nat) (e : Thrown) (w : World)
  : World :=
  if negb (ttsRequestId w =? requestId) then generateAudio_finally requestId w
  else
    generateAudio_finally requestId
      (setAudioReady false (setTtsError (Some (generateAudio_message e)) w)).

Definition generateAudio (text language : jsstring) (w : World)
  : World * Proc :=
  let requestId := ttsRequestId w + 1 in
  let w1 := with_ttsRequestId requestId w in
  let w2 := setTtsError None (setAudioReady false (setIsGeneratingAudio true w1)) in
  (emit (Fetch (PostTts text language (str "warm") 1)) w2,
   GenerateAudio_fetch requestId).

Definition loadAudioFromBase64 (requestId : nat) (audioBase64 : jsstring)
    (w : World) : Ran :=
  suspend (emit (WriteAsStringAsync audioBase64) w) (LoadAudio_write requestId).

Definition handleCapture_message (e : Thrown) : jsstring :=
  match e with
  | ThrownError message => message
  | ThrownValue => str "Failed to process"
  end.

Definition handleCapture_finally (w : World) : World :=
  setLoadingText [] (setIsProcessing false w).

Definition handleCapture_catch (e : Thrown) (w : World) : Ran :=
  finish
    (handleCapture_finally
       (emit (AlertAlert (str "Error") (handleCapture_message e)) w)).

(** [!result.text || !result.text.trim()] *)
Definition noText (t : option jsstring) : bool :=
  match t with
  | None => true
  | Some s => negb (truthy s) || negb (truthy (trim s))
  end.

Definition handleCapture (w : World) : World * list Proc :=
  if negb (cameraRefCurrent w) || isProcessing w then (w, [])
  else
    let w1 := setLoadingText (str "Capturing...") (setIsProcessing true w) in
    let '(w2, p) := cleanupSound true K_handleCapture w1 in
    (w2, [p]).

(** The code after [await cleanupSound(..)], for each caller. *)
Definition resumeCaller (k : Caller) (w : World) : Ran :=
  match k with
  | K_handleCapture =>
      if cameraRefCurrent w
      then suspend (emit (TakePictureAsync 0.8) w) HandleCapture_takePicture
      else handleCapture_catch (ThrownError nullCameraMessage) w
  | K_goHome =>
      finish
        (setScreen home
           (setDetectedLanguage (str "auto") (setExtractedText [] w)))
  | K_takeAnother => finish (setScreen camera w)
  | K_generateAudio requestId audio_base64 =>
      loadAudioFromBase64 requestId audio_base64 w
  end.

Definition playPause (w : World) : World * list Proc :=
  match sound w with
  | None => (w, [])
  | Some s =>
      if negb (audioReady w) then (w, [])
      else if isPlaying w then (emit (PauseAsync s) w, [PlayPause_pause])
      else (emit (PlayAsync s) w, [PlayPause_play])
  end.

Definition goHome (w : World) : World * Proc := cleanupSound true K_goHome w.

(** The [onPress] of "Take Another Photo". *)
Definition takeAnother (w : World) : World * Proc :=
  cleanupSound true K_takeAnother w.

(** The [onPress] of "Retry Audio". *)
Definition retryAudio (w : World) : World * Proc :=
  generateAudio (extractedText w) (detectedLanguage w) w.

(** The [onPress] of "Take Photo" on the home screen. *)
Definition takePhoto (w : World) : World :=
  match serverStatus w with
  | connected =>
      if negb (permissionGranted w) then emit RequestPermission w
      else setScreen camera w
  | _ =>
      emit
        (AlertAlert (str "Server not connected")
           (str "Please wait or check connection"))
        w
  end.

Record AVPlaybackStatus := mkStatus {
  status_isLoaded : bool;
  status_isPlaying : bool;
  status_didJustFinish : bool
}.

Definition onPlaybackStatusUpdate (status : AVPlaybackStatus) (w : World)
  : World :=
  if status_isLoaded status then
    let w1 := setIsPlaying (status_isPlaying status) w in
    if status_didJustFinish status then setIsPlaying false w1 else w1
  else w.

(** [resume p o w]: the code that runs when the promise awaited at [p]
    settles as [o].  [None] when [o] is not a value that promise can
    resolve to. *)
Definition resume (p : Proc) (o : Outcome) (w : World) : option Ran :=
  match p, o with
  (* checkServer *)
  | CheckServer_fetch, Resolved (VResponse ok) =>
      Some (finish (setServerStatus (if ok then connected else error) w))
  | CheckServer_fetch, Rejected _ => Some (finish (setServerStatus error w))
  (* cleanupSound: both awaits sit in a try with an empty catch *)
  | CleanupSound_stop s k, _ =>
      Some (suspend (emit (UnloadAsync s) w) (CleanupSound_unload s k))
  | CleanupSound_unload s k, _ =>
      Some
        (suspend
           (setIsPlaying false
              (setSound None (with_soundRef None (unloaded s o w))))
           (CleanupSound_return k))
  | CleanupSound_return k, _ => Some (resumeCaller k w)
  (* handleCapture *)
  | HandleCapture_takePicture, Resolved (VPhoto uri) =>
      match uri with
      | Some u =>
          if truthy u then
            Some
              (suspend
                 (emit (ManipulateAsync u 1280 0.6)
                    (setLoadingText (str "Processing image...") w))
                 HandleCapture_manipulate)
          else
            Some
              (handleCapture_catch (ThrownError (str "Failed to capture")) w)
      | None =>
          Some (handleCapture_catch (ThrownError (str "Failed to capture")) w)
      end
  | HandleCapture_manipulate, Resolved (VManipulated uri) =>
      Some (suspend (emit (ReadAsStringAsync uri) w) HandleCapture_read)
  | HandleCapture_read, Resolved (VString base64) =>
      Some
        (suspend
           (emit (Fetch (PostOcr base64 (str "auto")))
              (setLoadingText (str "Extracting text...") w))
           HandleCapture_fetch)
  | HandleCapture_fetch, Resolved (VResponse ok) =>
      Some
        (suspend w
           (if ok then HandleCapture_resultJson else HandleCapture_errorJson))
  | HandleCapture_errorJson, Resolved (VErrorBody d) =>
      Some (handleCapture_catch (ThrownError (serverErrorMessage d)) w)
  | HandleCapture_resultJson, Resolved (VOcrResult result) =>
      match text result with
      | Some t =>
          if noText (text result) then
            Some
              (handleCapture_catch
                 (ThrownError (str "No text found in the image")) w)
          else
            let language := orElse (detected_language result) (str "auto") in
            let w1 :=
              setScreen player
                (setDetectedLanguage language (setExtractedText t w)) in
            let '(w2, g) := generateAudio t language w1 in
            Some
              {| after := handleCapture_finally w2;
                 next := None;
                 spawned := [g] |}
      | None =>
          Some
            (handleCapture_catch
               (ThrownError (str "No text found in the image")) w)
      end
  | ( HandleCapture_takePicture | HandleCapture_manipulate
    | HandleCapture_read | HandleCapture_fetch | HandleCapture_errorJson
    | HandleCapture_resultJson ), Rejected e =>
      Some (handleCapture_catch e w)
  (* generateAudio *)
  | GenerateAudio_fetch requestId, Resolved (VResponse ok) =>
      Some
        (suspend w
           (if ok then GenerateAudio_resultJson requestId
            else GenerateAudio_errorJson requestId))
  | GenerateAudio_errorJson requestId, Resolved (VErrorBody d) =>
      Some
        (finish
           (generateAudio_catch requestId
              (ThrownError (serverErrorMessage d)) w))
  | GenerateAudio_resultJson requestId, Resolved (VTtsResult audio_base64) =>
      if negb (ttsRequestId w =? requestId)
      then Some (finish (generateAudio_finally requestId w))
      else
        let '(w1, p) :=
          cleanupSound false (K_generateAudio requestId audio_base64) w in
        Some (suspend w1 p)
  | ( GenerateAudio_fetch requestId | GenerateAudio_errorJson requestId
    | GenerateAudio_resultJson requestId ), Rejected e =>
      Some (finish (generateAudio_catch requestId e w))
  (* loadAudioFromBase64, awaited by generateAudio *)
  | LoadAudio_write requestId, Resolved _ =>
      Some (suspend (emit SetAudioModeAsync w) (LoadAudio_setAudioMode requestId))
  | LoadAudio_setAudioMode requestId, Resolved _ =>
      Some (suspend (emit CreateAsync w) (LoadAudio_create requestId))
  | LoadAudio_create requestId, Resolved VSound =>
      let newSound := nextSound w in
      let w1 :=
        with_nextSound (newSound + 1) (with_loaded (newSound :: loaded w) w) in
      Some
        (suspend
           (setSound (Some newSound) (with_soundRef (Some newSound) w1))
           (LoadAudio_return requestId))
  | ( LoadAudio_write requestId | LoadAudio_setAudioMode requestId
    | LoadAudio_create requestId ), Rejected e =>
      Some (suspend w (LoadAudio_throw requestId e))
  | LoadAudio_return requestId, _ =>
      Some (finish (generateAudio_finally requestId (setAudioReady true w)))
  | LoadAudio_throw requestId e, _ =>
      Some (finish (generateAudio_catch requestId e w))
  (* playPause: no try around the awaits *)
  | PlayPause_pause, Resolved _ => Some (finish (setIsPlaying false w))
  | PlayPause_play, Resolved _ => Some (finish (setIsPlaying true w))
  | (PlayPause_pause | PlayPause_play), Rejected e =>
      Some (finish (emit (UnhandledRejection e) w))
  | _, _ => None
  end.

(** ** The event loop *)

(** The world and the suspended functions.  A function keeps its slot of
    the pool from the moment it first suspends; the slot is emptied when
    the function finishes. *)
Record System := mkSystem {
  world : World;
  pool : list (option Proc)
}.

(** One task of the event loop. *)
Inductive Event : Type :=
| Settle (pid : nat) (o : Outcome)
| PressTakePhoto
| PressStatus
| PressBack
| PressGrantPermission
| PressCapture
| PressHome
| PressPlayPause
| PressRetry
| PressTakeAnother
| PermissionResponse (granted : bool)
| PlaybackStatusUpdate (s : Sound) (status : AVPlaybackStatus).

Definition started (w : World) (ps : list Proc) (sys : System) : System :=
  {| world := w; pool := pool sys ++ (Some <$> ps) |}.

Definition settled (pid : nat) (r : Ran) (sys : System) : System :=
  {| world := after r;
     pool := <[pid := next r]> (pool sys) ++ (Some <$> spawned r) |}.

(** [{ttsError && (<TouchableOpacity ... Retry Audio ...>)}] *)
Definition retryRendered (w : World) : bool :=
  match screen w, ttsError w with
  | player, Some message => truthy message
  | _, _ => false
  end.

Definition onScreen (s : Screen) (w : World) : bool :=
  match s, screen w with
  | home, home | camera, camera | player, player => true
  | _, _ => false
  end.

(** [handle e w]: the handler a press, a permission answer or a playback
    status callback runs, with the functions it starts; [None] when [e]
    cannot happen in [w]: a control that is not rendered cannot be pressed
    and only a loaded sound reports a loaded status.  A control rendered
    with [disabled] is treated as pressable: its handler starts with the
    same test. *)
Definition handle (e : Event) (w : World) : option (World * list Proc) :=
  match e with
  | Settle _ _ => None
  | PressTakePhoto =>
      if onScreen home w then Some (takePhoto w, []) else None
  | PressStatus =>
      if onScreen home w
      then let '(w1, p) := checkServer w in Some (w1, [p])
      else None
  | PressBack =>
      if onScreen camera w && permissionGranted w
      then Some (setScreen home w, [])
      else None
  | PressGrantPermission =>
      if onScreen camera w && negb (permissionGranted w)
      then Some (emit RequestPermission w, [])
      else None
  | PressCapture =>
      if onScreen camera w && permissionGranted w
      then Some (handleCapture w)
      else None
  | PressHome =>
      if onScreen player w
      then let '(w1, p) := goHome w in Some (w1, [p])
      else None
  | PressPlayPause =>
      if onScreen player w then Some (playPause w) else None
  | PressRetry =>
      if retryRendered w
      then let '(w1, p) := retryAudio w in Some (w1, [p])
      else None
  | PressTakeAnother =>
      if onScreen player w
      then let '(w1, p) := takeAnother w in Some (w1, [p])
      else None
  | PermissionResponse granted =>
      Some (with_permissionGranted granted w, [])
  | PlaybackStatusUpdate s status =>
      if negb (status_isLoaded status) || bool_decide (s ∈ loaded w)
      then Some (onPlaybackStatusUpdate status w, [])
      else None
  end.

(** [step e sys]: the system after task [e], or [None] when [e] cannot
    happen in [sys]; a promise settles only while a function awaits it. *)
Definition step (e : Event) (sys : System) : option System :=
  match e with
  | Settle pid o =>
      match pool sys !! pid with
      | Some (Some p) =>
          match resume p o (world sys) with
          | Some r => Some (settled pid r sys)
          | None => None
          end
      | _ => None
      end
  | _ =>
      match handle e (world sys) with
      | Some (w, ps) => Some (started w ps sys)
      | None => None
      end
  end.

Fixpoint run (es : list Event) (sys : System) : option System :=
  match es with
  | [] => Some sys
  | e :: es' =>
      match step e sys with
      | Some sys' => run es' sys'
      | None => None
      end
  end.

(** The component right after it is mounted: the first effect has called
    [checkServer]. *)
Definition mounted : System :=
  let '(w, p) := checkServer initialWorld in
  {| world := w; pool := [Some p] |}.

Definition reachable (sys : System) : Prop :=
  ∃ es, run es mounted = Some sys.

(** ** Running one function on its own *)

(** [drive os r]: the function suspended in [r] is resumed with the
    outcomes [os], one after the other, nothing else running in between.
    [None] when an outcome does not fit or is left over. *)
Fixpoint drive (os : list Outcome) (r : Ran) : option Ran :=
  match os with
  | [] => Some r
  | o :: os' =>
      match next r with
      | Some p =>
          match resume p o (after r) with
          | Some r' =>
              drive os'
                {| after := after r';
                   next := next r';
                   spawned := spawned r ++ spawned r' |}
          | None => None
          end
      | None => None
      end
  end.

(** One awaited call of [cleanupSound]: the world in which the caller is
    resumed.  [o1] and [o2] settle [stopAsync] and [unloadAsync] when a
    sound is held. *)
Definition cleanupSound_returns (invalidateRequests : bool) (k : Caller)
    (o1 o2 : Outcome) (w : World) : option World :=
  let '(w1, p) := cleanupSound invalidateRequests k w in
  match p with
  | CleanupSound_return _ => Some w1
  | _ =>
      match drive [o1; o2] (suspend w1 p) with
      | Some r =>
          match next r with
          | Some (CleanupSound_return _) => Some (after r)
          | _ => None
          end
      | None => None
      end
  end.

(** Calls of [cleanupSound] in sequence, each awaited before the next. *)
Fixpoint cleanupSound_sequence (calls : list (bool * Outcome * Outcome))
    (k : Caller) (w : World) : option World :=
  match calls with
  | [] => Some w
  | (invalidateRequests, o1, o2) :: calls' =>
      match cleanupSound_returns invalidateRequests k o1 o2 w with
      | Some w' => cleanupSound_sequence calls' k w'
      | None => None
      end
  end.

(** ** Classifying suspended functions *)

(** [p] is a suspension point of [handleCapture], the [cleanupSound] it
    awaits included. *)
Definition inCapture (p : Proc) : bool :=
  match p with
  | CleanupSound_stop _ K_handleCapture
  | CleanupSound_unload _ K_handleCapture
  | CleanupSound_return K_handleCapture
  | HandleCapture_takePicture | HandleCapture_manipulate
  | HandleCapture_read | HandleCapture_fetch
  | HandleCapture_errorJson | HandleCapture_resultJson => true
  | _ => false
  end.

Definition slotInCapture (x : option Proc) : bool :=
  match x with
  | Some p => inCapture p
  | None => false
  end.

Definition captures (l : list (option Proc)) : nat :=
  length (filter (fun x => slotInCapture x = true) l).

(** The number of [handleCapture] calls in flight. *)
Definition capturesInFlight (sys : System) : nat := captures (pool sys).

Definition weight (x : option Proc) : nat :=
  if slotInCapture x then 1 else 0.

(** [isProcessing] is set exactly while one [handleCapture] is in
    flight. *)
Definition oneCapture (sys : System) : Prop :=
  capturesInFlight sys = if isProcessing (world sys) then 1 else 0.

(** The awaits [handleCapture] still has ahead of it, at most. *)
Definition awaitsLeft (p : Proc) : nat :=
  match p with
  | CleanupSound_stop _ _ => 9
  | CleanupSound_unload _ _ => 8
  | CleanupSound_return _ => 7
  | HandleCapture_takePicture => 6
  | HandleCapture_manipulate => 5
  | HandleCapture_read => 4
  | HandleCapture_fetch => 3
  | HandleCapture_errorJson | HandleCapture_resultJson => 2
  | _ => 1
  end.

(** [p] is a synthesis request whose response has not been handled yet:
    [generateAudio] is suspended at [fetch] or at [response.json()].  The
    result is the [requestId] the call captured when it was issued. *)
Definition awaitingResponse (p : Proc) : option nat :=
  match p with
  | GenerateAudio_fetch requestId
  | GenerateAudio_errorJson requestId
  | GenerateAudio_resultJson requestId => Some requestId
  | _ => None
  end.

(** The user-visible state the orchestration owns. *)
Definition sameState (w w' : World) : Prop :=
  sound w' = sound w ∧ audioReady w' = audioReady w
  ∧ ttsError w' = ttsError w ∧ isGeneratingAudio w' = isGeneratingAudio w
  ∧ isPlaying w' = isPlaying w ∧ extractedText w' = extractedText w
  ∧ screen w' = screen w.

(** A string made of white space only, the empty string included. *)
Definition whitespaceOnly (s : jsstring) : Prop :=
  Forall (fun c => isWhiteSpace c = true) s.

(** Every request in flight was issued under a past or the current
    epoch. *)
Definition issuedBelow (sys : System) : Prop :=
  ∀ pid p rid,
    pool sys !! pid = Some (Some p) → awaitingResponse p = Some rid →
    rid ≤ ttsRequestId (world sys).

(** The request in slot [pid], issued under [rid], has been superseded:
    its function has finished, or is still in its network exchange while
    the counter has moved past [rid]. *)
Definition superseded (pid rid : nat) (sys : System) : Prop :=
  pool sys !! pid = Some None
  ∨ ∃ p, pool sys !! pid = Some (Some p) ∧ awaitingResponse p = Some rid
         ∧ rid < ttsRequestId (world sys).

(** The calls of a sequence that ask for invalidation. *)
Definition invalidating (calls : list (bool * Outcome * Outcome)) : nat :=
  length (filter (fun c => c.1.1 = true) calls).

(** [handleCapture] has just been called on [w]. *)
Definition handleCapture_called (w : World) : Ran :=
  let '(w1, ps) := handleCapture w in
  {| after := w1; next := head ps; spawned := [] |}.

(** The cells [handleCapture] leaves alone while it is in flight. *)
Definition captureFrame (w w' : World) : Prop :=
  screen w' = screen w ∧ permissionGranted w' = permissionGranted w
  ∧ extractedText w' = extractedText w
  ∧ detectedLanguage w' = detectedLanguage w
  ∧ isGeneratingAudio w' = isGeneratingAudio w
  ∧ audioReady w' = audioReady w ∧ ttsError w' = ttsError w
  ∧ ttsRequestId w' = ttsRequestId w ∧ isProcessing w' = isProcessing w.

(** Once the [cleanupSound] of a capture has returned, no sound is
    held. *)
Definition soundReleased (p : Proc) (w : World) : Prop :=
  match p with
  | CleanupSound_stop _ _ | CleanupSound_unload _ _ => True
  | _ => soundRef w = None
  end.

(** The calls that release a sound. *)
Definition releases (a : Action) : bool :=
  match a with
  | StopAsync _ | UnloadAsync _ => true
  | _ => false
  end.

(** * The navigation based screens and their services *)

(** ** [src/services/api.ts] *)

Module ApiService.

Definition API_BASE_URL : jsstring := str "http://192.168.219.103:8000".

(** The defaults of an axios instance; [timeout] is in milliseconds. *)
Record AxiosDefaults := mkDefaults {
  baseURL : jsstring;
  timeout : Z;
  contentType : jsstring
}.

(** [axios.create({ baseURL, timeout: 120000, headers })] in the
    constructor. *)
Definition client : AxiosDefaults :=
  {| baseURL := API_BASE_URL;
     timeout := 120000;
     contentType := str "application/json" |}.

Definition setBaseUrl (url : jsstring) (c : AxiosDefaults) : AxiosDefaults :=
  {| baseURL := url; timeout := timeout c; contentType := contentType c |}.

Inductive Operation : Type :=
| checkHealth
| extractText
| textToSpeech
| readImage.

Inductive Method : Type := GET | POST.

(** The request axios sends. *)
Record RequestConfig := mkRequest {
  method : Method;
  url : jsstring;
  requestTimeout : Z
}.

Definition path (op : Operation) : jsstring :=
  match op with
  | checkHealth => str "/health"
  | extractText => str "/api/ocr"
  | textToSpeech => str "/api/tts"
  | readImage => str "/api/read"
  end.

(** [this.client.get(path)] and [this.client.post(path, request)]: no
    call passes a configuration of its own, so the defaults of the
    instance apply to it. *)
Definition request (c : AxiosDefaults) (op : Operation) : RequestConfig :=
  {| method := match op with checkHealth => GET | _ => POST end;
     url := baseURL c ++ path op;
     requestTimeout := timeout c |}.

(** What the response interceptor reads of a failed request:
    [error.response] with the [detail] of its body, and whether
    [error.request] is set.  [code] is the axios error code, which the
    interceptor does not read. *)
Record AxiosError := mkAxiosError {
  response : option ErrorDetail;
  requestSent : bool;
  code : jsstring
}.

(** The request got no answer within [timeout] milliseconds. *)
Definition timeoutError : AxiosError :=
  {| response := None; requestSent := true; code := str "ECONNABORTED" |}.

(** The server could not be reached. *)
Definition networkError : AxiosError :=
  {| response := None; requestSent := true; code := str "ERR_NETWORK" |}.

(** The message of the [Error] the interceptor throws. *)
Definition interceptor (e : AxiosError) : jsstring :=
  match response e with
  | Some detail => serverErrorMessage detail
  | None =>
      if requestSent e
      then str "Cannot connect to server. Please check your connection."
      else str "Request failed. Please try again."
  end.

End ApiService.

(** ** [mobile/src/components/AudioPlayer.tsx] *)

Module AudioPlayer.

Record State := mkState {
  sound : option Sound;
  isPlaying : bool;
  position : Q;
  playbackSpeed : Q;
  soundRef : option Sound
}.

(** The calls made on the [Audio.Sound] object. *)
Inductive Call : Type :=
| SetPositionAsync (s : Sound) (millis : Q)
| SetRateAsync (s : Sound) (rate : Q) (shouldCorrectPitch : bool)
| PauseAsync (s : Sound)
| PlayAsync (s : Sound)
| UnloadAsync (s : Sound).

Definition seekTo (seconds : Q) (st : State) : State * list Call :=
  match sound st with
  | None => (st, [])
  | Some s => (st, [SetPositionAsync s (seconds * 1000)])
  end.

(** [changeSpeed] up to its [await]; [changeSpeed_resolved] after it. *)
Definition changeSpeed (speed : Q) (st : State) : State * list Call :=
  match sound st with
  | None => (st, [])
  | Some s => (st, [SetRateAsync s speed true])
  end.

Definition changeSpeed_resolved (speed : Q) (st : State) : State :=
  {| sound := sound st; isPlaying := isPlaying st; position := position st;
     playbackSpeed := speed; soundRef := soundRef st |}.

Definition togglePlayPause (st : State) : State * list Call :=
  match sound st with
  | None => (st, [])
  | Some s => (st, [if isPlaying st then PauseAsync s else PlayAsync s])
  end.

Record Status := mkStatus {
  isLoaded : bool;
  positionMillis : Q;
  statusIsPlaying : bool;
  didJustFinish : bool
}.

(** The only writer of [position]. *)
Definition onPlaybackStatusUpdate (status : Status) (st : State) : State :=
  if isLoaded status then
    if didJustFinish status then
      {| sound := sound st; isPlaying := false; position := 0;
         playbackSpeed := playbackSpeed st; soundRef := soundRef st |}
    else
      {| sound := sound st; isPlaying := statusIsPlaying status;
         position := positionMillis status / 1000;
         playbackSpeed := playbackSpeed st; soundRef := soundRef st |}
  else st.

(** The clean-up of the loading effect, run when the component is
    unmounted: [unloadAsync] is called and not awaited. *)
Definition unmount (st : State) : State * list Call :=
  match soundRef st with
  | None => (st, [])
  | Some s =>
      ({| sound := sound st; isPlaying := isPlaying st;
          position := position st; playbackSpeed := playbackSpeed st;
          soundRef := None |},
       [UnloadAsync s])
  end.

(** The values the progress slider reports to [onSlidingComplete]: it
    is rendered with [minimumValue={0}] and [maximumValue={duration}]. *)
Definition sliderValue (duration x : Q) : Prop := (0 <= x <= duration)%Q.

(** Modelled from the spec: "[seek(positionSeconds)]: clamps to
    [0, duration]". *)
Definition clamped (duration x : Q) : Q :=
  if Qle_bool x 0 then 0 else if Qle_bool duration x then duration else x.

End AudioPlayer.

(** ** The camera screen of the navigation based app *)

Module CameraScreen.

(** The parameters of the [Player] route. *)
Record ReadResponse := mkReadResponse {
  text : jsstring;
  audio_base64 : jsstring;
  detected_language : jsstring;
  duration_seconds : Q
}.

Inductive Route : Type :=
| Camera
| Player (text audioBase64 : jsstring) (duration : Q) (language : jsstring).

Record State := mkState {
  cameraRefCurrent : bool;
  isProcessing : bool;
  loadingMessage : jsstring;
  route : Route;
  alerts : list (jsstring * jsstring)
}.

Definition setIsProcessing (v : bool) (st : State) : State :=
  {| cameraRefCurrent := cameraRefCurrent st; isProcessing := v;
     loadingMessage := loadingMessage st; route := route st;
     alerts := alerts st |}.

Definition setLoadingMessage (v : jsstring) (st : State) : State :=
  {| cameraRefCurrent := cameraRefCurrent st;
     isProcessing := isProcessing st; loadingMessage := v;
     route := route st; alerts := alerts st |}.

Definition navigationReplace (v : Route) (st : State) : State :=
  {| cameraRefCurrent := cameraRefCurrent st;
     isProcessing := isProcessing st;
     loadingMessage := loadingMessage st; route := v;
     alerts := alerts st |}.

Definition alert (title message : jsstring) (st : State) : State :=
  {| cameraRefCurrent := cameraRefCurrent st;
     isProcessing := isProcessing st;
     loadingMessage := loadingMessage st; route := route st;
     alerts := alerts st ++ [(title, message)] |}.

(** The awaits of [handleCapture]; the two of [imageToBase64] and the
    points where it has returned or thrown and [handleCapture] has not
    been resumed yet. *)
Inductive Proc : Type :=
| TakePicture
| ImageToBase64_manipulate
| ImageToBase64_read
| ImageToBase64_return (base64 : jsstring)
| ImageToBase64_throw
| ReadImage.

Inductive Outcome : Type :=
| Photo (uri : option jsstring)
| Manipulated (uri : jsstring)
| FileRead (base64 : jsstring)
| Read (result : ReadResponse)
| Settled
| Failed (e : Thrown).

Definition finally (st : State) : State :=
  setLoadingMessage [] (setIsProcessing false st).

Definition message (e : Thrown) : jsstring :=
  match e with
  | ThrownError m => m
  | ThrownValue => str "An error occurred"
  end.

Definition catch (e : Thrown) (st : State) : State * option Proc :=
  (finally (alert (str "Error") (message e) st), None).

Definition handleCapture (st : State) : State * option Proc :=
  if negb (cameraRefCurrent st) || isProcessing st then (st, None)
  else
    (setLoadingMessage (str "Capturing image...") (setIsProcessing true st),
     Some TakePicture).

Definition resume (p : Proc) (o : Outcome) (st : State)
  : option (State * option Proc) :=
  match p, o with
  | TakePicture, Photo uri =>
      match uri with
      | Some u =>
          if truthy u then
            Some
              (setLoadingMessage (str "Processing image...") st,
               Some ImageToBase64_manipulate)
          else Some (catch (ThrownError (str "Failed to capture photo")) st)
      | None => Some (catch (ThrownError (str "Failed to capture photo")) st)
      end
  | ImageToBase64_manipulate, Manipulated _ =>
      Some (st, Some ImageToBase64_read)
  | ImageToBase64_read, FileRead base64 =>
      Some (st, Some (ImageToBase64_return base64))
  | (ImageToBase64_manipulate | ImageToBase64_read), Failed _ =>
      Some (st, Some ImageToBase64_throw)
  | ImageToBase64_return _, _ =>
      Some (setLoadingMessage (str "Extracting text...") st, Some ReadImage)
  | ImageToBase64_throw, _ =>
      Some (catch (ThrownError (str "Failed to process image")) st)
  | ReadImage, Read result =>
      Some
        (finally
           (navigationReplace
              (Player (text result) (audio_base64 result)
                 (duration_seconds result) (detected_language result))
              st),
         None)
  | (TakePicture | ReadImage), Failed e => Some (catch e st)
  | _, _ => None
  end.

Definition awaitsLeft (p : Proc) : nat :=
  match p with
  | TakePicture => 5
  | ImageToBase64_manipulate => 4
  | ImageToBase64_read => 3
  | ImageToBase64_return _ | ImageToBase64_throw => 2
  | ReadImage => 1
  end.

End CameraScreen.

(** ** The home screen of the navigation based app *)

Module HomeScreen.

Inductive ServerStatus : Type := checking | connected | disconnected.

Inductive Route : Type := Home | Camera.

Inductive AlertButton : Type := Retry | Cancel.

Record State := mkState {
  serverStatus : ServerStatus;
  ttsModelLoaded : bool;
  route : Route;
  alerts : list (jsstring * jsstring * list AlertButton)
}.

(** How the [GET /health] of the service client ends: with the body of
    the response, of which the screen reads [tts_model_loaded], or with
    an axios error. *)
Inductive HealthOutcome : Type :=
| Health (tts_model_loaded : bool)
| Failure (e : ApiService.AxiosError).

(** [apiService.checkHealth()]: the body, or the [Error] the response
    interceptor throws. *)
Definition checkHealth (o : HealthOutcome) : bool + Thrown :=
  match o with
  | Health tts_model_loaded => inl tts_model_loaded
  | Failure e => inr (ThrownError (ApiService.interceptor e))
  end.

Definition setServerStatus (v : ServerStatus) (st : State) : State :=
  {| serverStatus := v; ttsModelLoaded := ttsModelLoaded st;
     route := route st; alerts := alerts st |}.

Definition setTtsModelLoaded (v : bool) (st : State) : State :=
  {| serverStatus := serverStatus st; ttsModelLoaded := v;
     route := route st; alerts := alerts st |}.

(** [checkServerHealth] up to its [await], and after it. *)
Definition checkServerHealth (st : State) : State :=
  setServerStatus checking st.

Definition checkServerHealth_settled (o : HealthOutcome) (st : State)
  : State :=
  match checkHealth o with
  | inl tts_model_loaded =>
      setTtsModelLoaded tts_model_loaded (setServerStatus connected st)
  | inr _ => setServerStatus disconnected st
  end.

Definition handleCameraPress (st : State) : State :=
  match serverStatus st with
  | connected =>
      {| serverStatus := serverStatus st;
         ttsModelLoaded := ttsModelLoaded st;
         route := Camera; alerts := alerts st |}
  | _ =>
      {| serverStatus := serverStatus st;
         ttsModelLoaded := ttsModelLoaded st;
         route := route st;
         alerts :=
           alerts st
             ++ [(str "Server Unavailable",
                  str "Cannot connect to the server. Please check your connection and try again.",
                  [Retry; Cancel])] |}
  end.

(** The [onPress] of the buttons of that alert. *)
Definition pressAlertButton (b : AlertButton) (st : State) : State :=
  match b with
  | Retry => checkServerHealth st
  | Cancel => st
  end.

End HomeScreen.

(** ** Scenarios *)

Definition settledOk : Outcome := Resolved VUndefined.

(** The app starts, the server answers the health check, the user grants
    the camera permission and opens the camera. *)
Definition toCamera : list Event :=
  [Settle 0 (Resolved (VResponse true)); PermissionResponse true;
   PressTakePhoto].

(** The awaits of a [handleCapture] that occupies slot [pid] and holds no
    sound, up to the parsed extraction response. *)
Definition captureSettles (pid : nat) (result : OcrResult) : list Event :=
  [Settle pid settledOk;
   Settle pid (Resolved (VPhoto (Some (str "file:///photo.jpg"))));
   Settle pid (Resolved (VManipulated (str "file:///small.jpg")));
   Settle pid (Resolved (VString (str "/9j/4AAQ")));
   Settle pid (Resolved (VResponse true));
   Settle pid (Resolved (VOcrResult result))].

Definition pageOne : OcrResult :=
  {| text := Some (str "Once upon a time..."); detected_language := Some (str "en") |}.

Definition pageTwo : OcrResult :=
  {| text := Some (str "The end."); detected_language := Some (str "en") |}.

Definition blankPage : OcrResult :=
  {| text := Some (str "   "); detected_language := Some (str "en") |}.

(** The first page is captured: its text is on the player screen and its
    synthesis request, issued under epoch 2, waits in slot 2. *)
Definition firstPageShown : list Event :=
  toCamera ++ PressCapture :: captureSettles 1 pageOne.

Definition afterRun (es : list Event) (sys : System) : System :=
  match run es sys with
  | Some sys' => sys'
  | None => sys
  end.

(** "Take Another Photo" while the first synthesis is still on its way. *)
Definition nextPageRequested : System :=
  Eval vm_compute in
    afterRun (firstPageShown ++ [PressTakeAnother; Settle 3 settledOk]) mounted.

(** The second page is captured and its synthesis, in slot 5, gets its
    response headers; only then do the headers of the first one arrive. *)
Definition secondPageFirst : list Event :=
  PressCapture :: captureSettles 4 pageTwo
    ++ [Settle 5 (Resolved (VResponse true));
        Settle 2 (Resolved (VResponse true))].

Definition lateResponse : Outcome := Resolved (VTtsResult (str "UklGRg")).

Definition beforeLateResponse : System :=
  Eval vm_compute in afterRun secondPageFirst nextPageRequested.

Definition afterLateResponse : System :=
  Eval vm_compute in afterRun [Settle 2 lateResponse] beforeLateResponse.

(** A capture is in flight: the photo has been requested. *)
Definition capturing : System :=
  Eval vm_compute in
    afterRun (toCamera ++ [PressCapture; Settle 1 settledOk]) mounted.

(** The camera screen of the navigation based app, while it processes a
    capture and when it is idle. *)
Definition cameraProcessing : CameraScreen.State :=
  {| CameraScreen.cameraRefCurrent := true;
     CameraScreen.isProcessing := true;
     CameraScreen.loadingMessage := str "Extracting text...";
     CameraScreen.route := CameraScreen.Camera;
     CameraScreen.alerts := [] |}.

(** The audio of the first page has been loaded and is ready. *)
Definition audioLoaded : System :=
  Eval vm_compute in
    afterRun
      (firstPageShown
         ++ [Settle 2 (Resolved (VResponse true)); Settle 2 lateResponse;
             Settle 2 settledOk; Settle 2 settledOk; Settle 2 settledOk;
             Settle 2 (Resolved VSound); Settle 2 settledOk])
      mounted.

(** [cleanupSound()] has been awaited once on it. *)
Definition releasedOnce : World :=
  Eval vm_compute in
    match
      cleanupSound_returns true K_takeAnother settledOk settledOk
        (world audioLoaded)
    with
    | Some w => w
    | None => world audioLoaded
    end.

(** An audio player with a ten second sound, three seconds in. *)
Definition threeSecondsIn : AudioPlayer.State :=
  {| AudioPlayer.sound := Some 0; AudioPlayer.isPlaying := false;
     AudioPlayer.position := 3; AudioPlayer.playbackSpeed := 1;
     AudioPlayer.soundRef := Some 0 |}.

(** The response of the first synthesis has arrived and its audio is
    being loaded: [createAsync] is pending. *)
Definition firstAudioLoading : list Event :=
  firstPageShown
    ++ [Settle 2 (Resolved (VResponse true)); Settle 2 lateResponse;
        Settle 2 settledOk; Settle 2 settledOk; Settle 2 settledOk].

(** "Take Another Photo" is pressed at that moment; the sound of the
    first page is created only after the camera screen has come up. *)
Definition staleAudioOnCamera : System :=
  Eval vm_compute in
    afterRun
      (firstAudioLoading
         ++ [PressTakeAnother; Settle 3 settledOk;
             Settle 2 (Resolved VSound); Settle 2 settledOk])
      mounted.

(** A capture whose extraction finds white space only, while a sound is
    held: [stopAsync] and [unloadAsync] settle first. *)
Definition blankCapture : list Event :=
  PressCapture :: Settle 4 settledOk :: Settle 4 settledOk
    :: captureSettles 4 blankPage.

Definition afterBlankCapture : System :=
  Eval vm_compute in afterRun blankCapture staleAudioOnCamera.

(** The same capture right after the camera has been opened for the first
    time. *)
Definition cameraOpened : System :=
  Eval vm_compute in afterRun toCamera mounted.

Definition afterFirstBlankCapture : System :=
  Eval vm_compute in
    afterRun (PressCapture :: captureSettles 1 blankPage) cameraOpened.

(** Two loads in flight.  While the sound of the first page is being
    created, the user takes another photo; the second page is extracted
    and synthesised, its [generateAudio] finds no sound to release and
    starts loading; then both [createAsync] calls resolve. *)
Definition twoLoads : list Event :=
  firstAudioLoading
    ++ [PressTakeAnother; Settle 3 settledOk]
    ++ PressCapture :: captureSettles 4 pageTwo
    ++ [Settle 5 (Resolved (VResponse true)); Settle 5 lateResponse;
        Settle 5 settledOk; Settle 5 settledOk; Settle 5 settledOk;
        Settle 2 (Resolved VSound); Settle 2 settledOk;
        Settle 5 (Resolved VSound); Settle 5 settledOk].

Definition afterTwoLoads : System :=
  Eval vm_compute in afterRun twoLoads mounted.

(** The synthesis of the first page is answered with an error status
    and the body [{"detail": []}]. *)
Definition emptyDetailFailure : list Event :=
  firstPageShown
    ++ [Settle 2 (Resolved (VResponse false));
        Settle 2 (Resolved (VErrorBody detailEmptyArray))].

Definition afterEmptyDetailFailure : System :=
  Eval vm_compute in afterRun emptyDetailFailure mounted.

(** The capture of [capturing] has gone on to its extraction request, and
    the response headers are in. *)
Definition extracting : System :=
  Eval vm_compute in
    afterRun
      [Settle 1 (Resolved (VPhoto (Some (str "file:///photo.jpg"))));
       Settle 1 (Resolved (VManipulated (str "file:///small.jpg")));
       Settle 1 (Resolved (VString (str "/9j/4AAQ")));
       Settle 1 (Resolved (VResponse true))]
      capturing.

(** "Take Another Photo" was pressed while the audio of the first page
    was being loaded, and the camera screen has come up: the
    [createAsync] of that load is still pending. *)
Definition staleLoadPending : System :=
  Eval vm_compute in
    afterRun (firstAudioLoading ++ [PressTakeAnother; Settle 3 settledOk])
      mounted.

(** A capture that finds white space only, started in that state: the
    pending [createAsync] resolves and the load returns while the photo
    is being taken. *)
Definition blankCaptureDuringLoad : list Event :=
  [PressCapture; Settle 4 settledOk;
   Settle 2 (Resolved VSound); Settle 2 settledOk;
   Settle 4 (Resolved (VPhoto (Some (str "file:///photo.jpg"))));
   Settle 4 (Resolved (VManipulated (str "file:///small.jpg")));
   Settle 4 (Resolved (VString (str "/9j/4AAQ")));
   Settle 4 (Resolved (VResponse true));
   Settle 4 (Resolved (VOcrResult blankPage))].

Definition afterBlankCaptureDuringLoad : System :=
  Eval vm_compute in afterRun blankCaptureDuringLoad staleLoadPending.

(** * The rest of the code *)

(** ** More about [App] *)

(** The [generateAudio] call a suspended function belongs to, at any of
    its awaits: the network exchange, the [cleanupSound(false)] and the
    [loadAudioFromBase64] it awaits.  The result is its [requestId]. *)
Definition requestOf (p : Proc) : option nat :=
  match p with
  | GenerateAudio_fetch requestId
  | GenerateAudio_errorJson requestId
  | GenerateAudio_resultJson requestId
  | CleanupSound_stop _ (K_generateAudio requestId _)
  | CleanupSound_unload _ (K_generateAudio requestId _)
  | CleanupSound_return (K_generateAudio requestId _)
  | LoadAudio_write requestId
  | LoadAudio_setAudioMode requestId
  | LoadAudio_create requestId
  | LoadAudio_return requestId
  | LoadAudio_throw requestId _ => Some requestId
  | _ => None
  end.

(** The [generateAudio] calls in flight carry request ids that are pairwise
    different and not above the counter. *)
Definition requestsDistinct (sys : System) : Prop :=
  (∀ pid p rid,
     pool sys !! pid = Some (Some p) → requestOf p = Some rid →
     rid ≤ ttsRequestId (world sys))
  ∧ (∀ i j p q rid,
       pool sys !! i = Some (Some p) → pool sys !! j = Some (Some q) →
       requestOf p = Some rid → requestOf q = Some rid → i = j).

(** "Generating audio..." is backed by the current request. *)
Definition generatingBacked (sys : System) : Prop :=
  isGeneratingAudio (world sys) = true →
  ∃ pid p,
    pool sys !! pid = Some (Some p)
    ∧ requestOf p = Some (ttsRequestId (world sys)).

(** "Connecting..." is backed by a health check. *)
Definition checkingBacked (sys : System) : Prop :=
  serverStatus (world sys) = checking →
  ∃ pid, pool sys !! pid = Some (Some CheckServer_fetch).

(** The requests as the code sends them: a synthesis request for a text
    that is not blank, in a language that is not empty, with the warm
    voice at speed 1; an extraction request with the language left to
    the server. *)
Definition wellFormed (a : Action) : Prop :=
  match a with
  | Fetch (PostTts text language voice_style speed) =>
      noText (Some text) = false ∧ truthy language = true
      ∧ voice_style = str "warm" ∧ speed = 1%Q
  | Fetch (PostOcr _ language) => language = str "auto"
  | _ => True
  end.

(** What the player screen has to show, and what every request so far
    looked like. *)
Definition presentable (w : World) : Prop :=
  (screen w = player → noText (Some (extractedText w)) = false)
  ∧ truthy (detectedLanguage w) = true
  ∧ Forall wellFormed (log w).

(** The text of the loading overlay at each await of [handleCapture]. *)
Definition stageText (p : Proc) : option jsstring :=
  match p with
  | CleanupSound_stop _ K_handleCapture
  | CleanupSound_unload _ K_handleCapture
  | CleanupSound_return K_handleCapture
  | HandleCapture_takePicture => Some (str "Capturing...")
  | HandleCapture_manipulate
  | HandleCapture_read => Some (str "Processing image...")
  | HandleCapture_fetch
  | HandleCapture_errorJson
  | HandleCapture_resultJson => Some (str "Extracting text...")
  | _ => None
  end.

(** The loading overlay names the stage of the capture in flight, and
    has no text when there is none. *)
Definition overlayLabelled (sys : System) : Prop :=
  oneCapture sys
  ∧ (isProcessing (world sys) = false → loadingText (world sys) = [])
  ∧ (∀ pid p,
       pool sys !! pid = Some (Some p) → inCapture p = true →
       stageText p = Some (loadingText (world sys))).

(** The functions a press starts, as a run of their own. *)
Definition goHome_called (w : World) : Ran :=
  let '(w1, p) := goHome w in suspend w1 p.

Definition takeAnother_called (w : World) : Ran :=
  let '(w1, p) := takeAnother w in suspend w1 p.

Definition playPause_called (w : World) : Ran :=
  let '(w1, ps) := playPause w in
  {| after := w1; next := head ps; spawned := [] |}.

(** The outcomes of an [await cleanupSound(..)]: those of [stopAsync] and
    [unloadAsync] when a sound is held, and the resumption of the
    caller. *)
Definition cleanupOutcomes (w : World) (o1 o2 o3 : Outcome) : list Outcome :=
  match soundRef w with
  | Some _ => [o1; o2; o3]
  | None => [o3]
  end.




(** The presses whose handler calls [cleanupSound()]: "Home", "Take
    Another Photo", and the capture button when [handleCapture] passes
    its guard. *)
Definition callsCleanupSound (e : Event) (w : World) : bool :=
  match e with
  | PressHome | PressTakeAnother => true
  | PressCapture => cameraRefCurrent w && negb (isProcessing w)
  | _ => false
  end.

(** The resumptions that call [generateAudio]: [handleCapture] with a
    parsed extraction response whose text is not blank. *)
Definition callsGenerateAudio (p : Proc) (o : Outcome) : bool :=
  match p, o with
  | HandleCapture_resultJson, Resolved (VOcrResult result) =>
      negb (noText (text result))
  | _, _ => false
  end.

(** The tasks that write [ttsRequestId.current]: those that call
    [cleanupSound()] and those that call [generateAudio], which "Retry
    Audio" does as well. *)
Definition writesCounter (e : Event) (sys : System) : bool :=
  match e with
  | Settle pid o =>
      match pool sys !! pid with
      | Some (Some p) => callsGenerateAudio p o
      | _ => false
      end
  | PressRetry => true
  | _ => callsCleanupSound e (world sys)
  end.

(** The number of such tasks along a run. *)
Fixpoint counterWrites (es : list Event) (sys : System) : nat :=
  match es with
  | [] => 0
  | e :: es' =>
      (if writesCounter e sys then 1 else 0)
      + match step e sys with
        | Some sys' => counterWrites es' sys'
        | None => 0
        end
  end.

(** The alerts among the calls made so far. *)
Definition isAlert (a : Action) : bool :=
  match a with
  | AlertAlert _ _ => true
  | _ => false
  end.

Definition alerts (w : World) : nat :=
  length (filter (fun a => isAlert a = true) (log w)).

(** The two ways a [handleCapture] that started on [w] can end: with one
    alert, on the screen and with the text it found; or without an alert,
    on the player screen with a synthesis under way. *)
Definition captureFailed (w : World) (r : Ran) : Prop :=
  alerts (after r) = S (alerts w) ∧ spawned r = []
  ∧ screen (after r) = screen w
  ∧ extractedText (after r) = extractedText w
  ∧ detectedLanguage (after r) = detectedLanguage w
  ∧ ttsRequestId (after r) = ttsRequestId w.

Definition captureShown (w : World) (r : Ran) : Prop :=
  alerts (after r) = alerts w
  ∧ screen (after r) = player
  ∧ noText (Some (extractedText (after r))) = false
  ∧ isGeneratingAudio (after r) = true
  ∧ spawned r = [GenerateAudio_fetch (ttsRequestId (after r))]
  ∧ ttsRequestId (after r) = S (ttsRequestId w).

(** [p] is an await of the [cleanupSound()] of "Home" or of "Take
    Another Photo": the player screen is being left. *)
Definition leaving (p : Proc) : bool :=
  match p with
  | CleanupSound_stop _ (K_goHome | K_takeAnother)
  | CleanupSound_unload _ (K_goHome | K_takeAnother)
  | CleanupSound_return (K_goHome | K_takeAnother) => true
  | _ => false
  end.

(** While the player screen is up the audio is ready, or it is being
    generated, or an error is recorded, or the screen is being left. *)
Definition playerAccounted (sys : System) : Prop :=
  screen (world sys) = player →
  audioReady (world sys) = true
  ∨ isGeneratingAudio (world sys) = true
  ∨ is_Some (ttsError (world sys))
  ∨ ∃ pid p, pool sys !! pid = Some (Some p) ∧ leaving p = true.

(** The label of the status control on the home screen, and the colour of
    its dot. *)
Definition statusText (w : World) : jsstring :=
  match serverStatus w with
  | connected => str "Server Ready"
  | error => str "Server Offline (tap to retry)"
  | checking => str "Connecting..."
  end.

Definition statusColor (w : World) : jsstring :=
  match serverStatus w with
  | connected => str "#4CAF50"
  | error => str "#F44336"
  | checking => str "#FFC107"
  end.

(** ** More scenarios *)

(** The first page is on the player screen and its synthesis is under
    way; then "Take Another Photo" is pressed. *)
Definition pageOneShown : System :=
  Eval vm_compute in afterRun firstPageShown mounted.

Definition pageOneLeft : System :=
  Eval vm_compute in afterRun [PressTakeAnother] pageOneShown.

(** A capture whose extraction request is answered with an error
    status. *)
Definition serverError : list Outcome :=
  [settledOk;
   Resolved (VPhoto (Some (str "file:///photo.jpg")));
   Resolved (VManipulated (str "file:///small.jpg"));
   Resolved (VString (str "/9j/4AAQ"));
   Resolved (VResponse false);
   Resolved (VErrorBody (detailString (str "OCR failed")))].

Definition afterServerError : Ran :=
  Eval vm_compute in
    match drive serverError (handleCapture_called (world cameraOpened)) with
    | Some r => r
    | None => finish (world cameraOpened)
    end.

(** ** The loading effect of the stand-alone audio player *)

(** [useEffect(() => { ... loadAudio(); return () => { ... } },
    [audioBase64])] of [AudioPlayer.tsx].  The effect runs when the
    component is mounted and again whenever [audioBase64] changes, after
    the clean-up of the run before.  Each run has a closure of its own,
    with its flag [isMounted] and its asynchronous [loadAudio]; all runs
    share [soundRef] and the state cell [sound], and a [loadAudio] of an
    earlier run can still be in flight when the next run starts. *)
Module AudioPlayerEffect.

Inductive Call : Type :=
| UnloadAsync (s : Sound)
| SetAudioModeAsync
| WriteAsStringAsync (contents : jsstring)
| CreateAsync
| SetSound (s : Sound)
| ConsoleError.

(** The awaits of [loadAudio]. *)
Inductive Proc : Type :=
| UnloadOld
| SetAudioMode
| Write
| Create
| UnloadNew.

(** One run of the effect: the [audioBase64] it was run for, the flag
    [isMounted] of its closure, and the await its [loadAudio] is at
    ([None] when it has finished). *)
Record Run := mkRun {
  audioBase64 : jsstring;
  isMounted : bool;
  pending : option Proc
}.

(** [rendered]: the component is mounted.  [created] counts the sounds
    [createAsync] has resolved to; [calls] are the calls made so far, in
    order; [runs] are the runs of the effect, the latest last. *)
Record State := mkState {
  rendered : bool;
  soundRef : option Sound;
  sound : option Sound;
  created : nat;
  calls : list Call;
  runs : list Run
}.

Definition call (c : Call) (st : State) : State :=
  {| rendered := rendered st; soundRef := soundRef st; sound := sound st;
     created := created st; calls := calls st ++ [c]; runs := runs st |}.

Definition with_soundRef (v : option Sound) (st : State) : State :=
  {| rendered := rendered st; soundRef := v; sound := sound st;
     created := created st; calls := calls st; runs := runs st |}.

Definition setSound (s : Sound) (st : State) : State :=
  {| rendered := rendered st; soundRef := soundRef st; sound := Some s;
     created := created st; calls := calls st ++ [SetSound s];
     runs := runs st |}.

Definition with_runs (v : list Run) (st : State) : State :=
  {| rendered := rendered st; soundRef := soundRef st; sound := sound st;
     created := created st; calls := calls st; runs := v |}.

Definition with_pending (p : option Proc) (r : Run) : Run :=
  {| audioBase64 := audioBase64 r; isMounted := isMounted r; pending := p |}.

(** [isMounted = false] in the closure of a run. *)
Definition unmountRun (r : Run) : Run :=
  {| audioBase64 := audioBase64 r; isMounted := false;
     pending := pending r |}.

(** Before the first render. *)
Definition initial : State :=
  {| rendered := true; soundRef := None; sound := None; created := 0;
     calls := []; runs := [] |}.

(** [loadAudio()] up to its first [await]. *)
Definition loadAudio (st : State) : State * option Proc :=
  match soundRef st with
  | Some s => (call (UnloadAsync s) st, Some UnloadOld)
  | None => (call SetAudioModeAsync st, Some SetAudioMode)
  end.

(** [catch (error) { console.error(...) }] *)
Definition catch (st : State) : State * option Proc :=
  (call ConsoleError st, None).

(** The [loadAudio] of run [r] from one [await] to the next; [resolved]
    tells how the awaited promise settled. *)
Definition resume (r : Run) (p : Proc) (resolved : bool) (st : State)
  : State * option Proc :=
  if negb resolved then catch st
  else
    match p with
    | UnloadOld =>
        (call SetAudioModeAsync (with_soundRef None st), Some SetAudioMode)
    | SetAudioMode =>
        (call (WriteAsStringAsync (audioBase64 r)) st, Some Write)
    | Write => (call CreateAsync st, Some Create)
    | Create =>
        let newSound := created st in
        let st1 :=
          {| rendered := rendered st; soundRef := Some newSound;
             sound := sound st; created := newSound + 1;
             calls := calls st; runs := runs st |} in
        if isMounted r then (setSound newSound st1, None)
        else (call (UnloadAsync newSound) st1, Some UnloadNew)
    | UnloadNew => (with_soundRef None st, None)
    end.

(** The promise run [i] awaits settles. *)
Definition settle (i : nat) (resolved : bool) (st : State) : option State :=
  match runs st !! i with
  | Some r =>
      match pending r with
      | Some p =>
          let '(st1, p') := resume r p resolved st in
          Some (with_runs (<[i := with_pending p' r]> (runs st1)) st1)
      | None => None
      end
  | None => None
  end.

(** The clean-up the latest run of the effect returned. *)
Definition cleanup (st : State) : State :=
  let st1 :=
    with_runs (alter unmountRun (length (runs st) - 1) (runs st)) st in
  match soundRef st1 with
  | Some s => with_soundRef None (call (UnloadAsync s) st1)
  | None => st1
  end.

(** The effect runs for [a]: a new closure, and [loadAudio()] is
    called. *)
Definition effect (a : jsstring) (st : State) : State :=
  let '(st1, p) := loadAudio st in
  with_runs
    (runs st1 ++ [{| audioBase64 := a; isMounted := true; pending := p |}])
    st1.

Inductive Event : Type :=
| Settle (i : nat) (resolved : bool)
| ChangeAudio (a : jsstring)
| Unmount.

(** One task.  A promise settles only while a run awaits it; when the
    component is rendered with another [audioBase64] the clean-up of
    the latest run is run and then the effect; when it is unmounted
    the clean-up is run. *)
Definition step (e : Event) (st : State) : option State :=
  match e with
  | Settle i resolved => settle i resolved st
  | ChangeAudio a =>
      if rendered st then
        match last (runs st) with
        | Some r =>
            if bool_decide (a ≠ audioBase64 r)
            then Some (effect a (cleanup st))
            else None
        | None => None
        end
      else None
  | Unmount =>
      if rendered st then
        let st1 := cleanup st in
        Some
          {| rendered := false; soundRef := soundRef st1;
             sound := sound st1; created := created st1;
             calls := calls st1; runs := runs st1 |}
      else None
  end.

Fixpoint run (es : list Event) (st : State) : option State :=
  match es with
  | [] => Some st
  | e :: es' =>
      match step e st with
      | Some st' => run es' st'
      | None => None
      end
  end.

(** The component is mounted with [audioBase64 = a]. *)
Definition mounted (a : jsstring) : State := effect a initial.

Definition isSetSound (c : Call) : bool :=
  match c with
  | SetSound _ => true
  | _ => false
  end.

(** The number of times [setSound] has been called. *)
Definition setSounds (st : State) : nat :=
  length (filter (fun c => isSetSound c = true) (calls st)).

(** The sounds [unloadAsync] has been called on, in order. *)
Definition unloads (st : State) : list Sound :=
  omap (fun c => match c with UnloadAsync s => Some s | _ => None end)
    (calls st).

(** The component is unmounted: every clean-up has run. *)
Definition unmounted (st : State) : Prop :=
  rendered st = false ∧ Forall (fun r => isMounted r = false) (runs st).

(** No [loadAudio] is in flight. *)
Definition idle (st : State) : bool :=
  forallb (fun r => match pending r with None => true | Some _ => false end)
    (runs st).

(** [audioBase64] changes only while no [loadAudio] is in flight. *)
Fixpoint sequential (es : list Event) (st : State) : bool :=
  match es with
  | [] => true
  | e :: es' =>
      match e with
      | ChangeAudio _ => idle st
      | _ => true
      end
      && match step e st with
         | Some st' => sequential es' st'
         | None => true
         end
  end.

End AudioPlayerEffect.

(** ** Running the handler of the camera screen on its own *)

Fixpoint cameraScreen_drive (os : list CameraScreen.Outcome)
    (run : CameraScreen.State * option CameraScreen.Proc)
  : option (CameraScreen.State * option CameraScreen.Proc) :=
  match os with
  | [] => Some run
  | o :: os' =>
      match run with
      | (st, Some p) =>
          match CameraScreen.resume p o st with
          | Some run' => cameraScreen_drive os' run'
          | None => None
          end
      | (_, None) => None
      end
  end.

(** The awaits of the handler that belong to [imageToBase64]. *)
Definition inImageToBase64 (p : CameraScreen.Proc) : bool :=
  match p with
  | CameraScreen.ImageToBase64_manipulate
  | CameraScreen.ImageToBase64_read => true
  | _ => false
  end.

(** ** What the home screen of the navigation based app displays *)

Module HomeScreenView.

Definition getStatusColor (st : HomeScreen.State) : jsstring :=
  match HomeScreen.serverStatus st with
  | HomeScreen.connected => str "#4CAF50"
  | HomeScreen.disconnected => str "#F44336"
  | HomeScreen.checking => str "#FFC107"
  end.

Definition getStatusText (st : HomeScreen.State) : jsstring :=
  match HomeScreen.serverStatus st with
  | HomeScreen.connected =>
      if HomeScreen.ttsModelLoaded st then str "Ready"
      else str "Connected (TTS loading...)"
  | HomeScreen.disconnected => str "Server Offline"
  | HomeScreen.checking => str "Connecting..."
  end.

End HomeScreenView.

(** ** More about the loading effect *)

(** Every sound created so far has been asked to unload or is the one
    the ref holds; once the component is unmounted the ref holds no
    sound that was not asked to unload; only the latest run can have a
    [loadAudio] in flight; and that run creates a sound only while the
    ref is empty, and unloads the sound it created only when the
    component is unmounted. *)
Definition effectReleases (st : AudioPlayerEffect.State) : Prop :=
  (∀ s, s < AudioPlayerEffect.created st →
        AudioPlayerEffect.UnloadAsync s ∈ AudioPlayerEffect.calls st
        ∨ AudioPlayerEffect.soundRef st = Some s)
  ∧ (AudioPlayerEffect.rendered st = false →
     ∀ s, AudioPlayerEffect.soundRef st = Some s →
          AudioPlayerEffect.UnloadAsync s ∈ AudioPlayerEffect.calls st)
  ∧ (∀ i r, AudioPlayerEffect.runs st !! i = Some r →
            S i < length (AudioPlayerEffect.runs st) →
            AudioPlayerEffect.pending r = None)
  ∧ (∀ r, last (AudioPlayerEffect.runs st) = Some r →
          AudioPlayerEffect.isMounted r = AudioPlayerEffect.rendered st
          ∧ match AudioPlayerEffect.pending r with
            | Some AudioPlayerEffect.UnloadOld =>
                ∀ s, AudioPlayerEffect.soundRef st = Some s →
                     AudioPlayerEffect.UnloadAsync s
                     ∈ AudioPlayerEffect.calls st
            | Some AudioPlayerEffect.SetAudioMode
            | Some AudioPlayerEffect.Write
            | Some AudioPlayerEffect.Create =>
                AudioPlayerEffect.soundRef st = None
            | Some AudioPlayerEffect.UnloadNew =>
                AudioPlayerEffect.rendered st = false
            | None => True
            end).

Definition effectAfter (es : list AudioPlayerEffect.Event)
    (st : AudioPlayerEffect.State) : AudioPlayerEffect.State :=
  match AudioPlayerEffect.run es st with
  | Some st' => st'
  | None => st
  end.

(** The player is unmounted right after it was mounted; and the load
    goes on from there until the sound it created is unloaded. *)
Definition unmountedEarly : AudioPlayerEffect.State :=
  Eval vm_compute in
    effectAfter [AudioPlayerEffect.Unmount]
      (AudioPlayerEffect.mounted (str "UklGRg")).

Definition unmountedWhileCreating : AudioPlayerEffect.State :=
  Eval vm_compute in
    effectAfter
      [AudioPlayerEffect.Settle 0 true; AudioPlayerEffect.Settle 0 true;
       AudioPlayerEffect.Settle 0 true; AudioPlayerEffect.Settle 0 true]
      unmountedEarly.

(** The audio changes once the first one is loaded, the second one is
    loaded as well, and the player is unmounted. *)
Definition secondAudioAfterTheFirst : list AudioPlayerEffect.Event :=
  [AudioPlayerEffect.Settle 0 true; AudioPlayerEffect.Settle 0 true;
   AudioPlayerEffect.Settle 0 true;
   AudioPlayerEffect.ChangeAudio (str "UklGRh");
   AudioPlayerEffect.Settle 1 true; AudioPlayerEffect.Settle 1 true;
   AudioPlayerEffect.Settle 1 true;
   AudioPlayerEffect.Unmount].

Definition afterSecondAudio : AudioPlayerEffect.State :=
  Eval vm_compute in
    effectAfter secondAudioAfterTheFirst
      (AudioPlayerEffect.mounted (str "UklGRg")).

(** The audio changes while the first one is at [createAsync]; the
    second load finishes first, then the first [createAsync] resolves,
    and the player is unmounted. *)
Definition overlappingLoads : list AudioPlayerEffect.Event :=
  [AudioPlayerEffect.Settle 0 true; AudioPlayerEffect.Settle 0 true;
   AudioPlayerEffect.ChangeAudio (str "UklGRh");
   AudioPlayerEffect.Settle 1 true; AudioPlayerEffect.Settle 1 true;
   AudioPlayerEffect.Settle 1 true;
   AudioPlayerEffect.Settle 0 true; AudioPlayerEffect.Settle 0 true;
   AudioPlayerEffect.Unmount].

Definition afterOverlappingLoads : AudioPlayerEffect.State :=
  Eval vm_compute in
    effectAfter overlappingLoads (AudioPlayerEffect.mounted (str "UklGRg")).

(** ** More scenarios of the camera screen *)

Definition cameraIdle : CameraScreen.State :=
  {| CameraScreen.cameraRefCurrent := true;
     CameraScreen.isProcessing := false;
     CameraScreen.loadingMessage := [];
     CameraScreen.route := CameraScreen.Camera;
     CameraScreen.alerts := [] |}.

(** The photo is taken and converted, and the combined request gets no
    answer in time. *)
Definition readTimesOut : list CameraScreen.Outcome :=
  [CameraScreen.Photo (Some (str "file:///photo.jpg"));
   CameraScreen.Manipulated (str "file:///small.jpg");
   CameraScreen.FileRead (str "/9j/4AAQ");
   CameraScreen.Settled;
   CameraScreen.Failed
     (ThrownError (ApiService.interceptor ApiService.timeoutError))].

Definition cameraTimedOut : CameraScreen.State :=
  Eval vm_compute in
    match
      cameraScreen_drive readTimesOut (CameraScreen.handleCapture cameraIdle)
    with
    | Some (st, _) => st
    | None => cameraIdle
    end.

(** * Properties *)

(** ** White space *)

Lemma trimStart_nil_iff (s : jsstring) :
  trimStart s = [] ↔ whitespaceOnly s.
Proof.
  unfold whitespaceOnly. induction s as [|c r IH]; simpl.
  - split; [constructor | reflexivity].
  - destruct (isWhiteSpace c) eqn:Hc.
    + rewrite IH. split; [by constructor | by inversion 1].
    + split; [discriminate | inversion 1; congruence].
Qed.

Lemma trim_nil_iff (s : jsstring) : trim s = [] ↔ whitespaceOnly s.
Proof.
  unfold trim, trimEnd. split.
  - intros H. apply (f_equal (@rev N)) in H. rewrite rev_involutive in H.
    simpl in H. apply trimStart_nil_iff in H. unfold whitespaceOnly in *.
    apply Forall_rev in H. rewrite rev_involutive in H.
    destruct (trimStart s) eqn:E.
    + by apply trimStart_nil_iff.
    + exfalso. clear -E H. induction s as [|c r IH]; simpl in E; [done|].
      destruct (isWhiteSpace c) eqn:Hc; [auto|].
      inversion E; subst. inversion H; congruence.
  - intros H. apply trimStart_nil_iff in H. by rewrite H.
Qed.

Example trim_keeps_inner_spaces :
  trim (str "  The end. ") = str "The end.".
Proof. reflexivity. Qed.

Example trim_ideographic_space : trim [12288; 10; 9; 65279]%N = [].
Proof. reflexivity. Qed.

Example zero_width_space_is_text : trim [8203]%N = [8203]%N.
Proof. reflexivity. Qed.

(** [noText] is the test "missing, empty or white space only". *)
Lemma noText_spec (t : option jsstring) :
  noText t = true ↔ t = None ∨ ∃ s, t = Some s ∧ whitespaceOnly s.
Proof.
  destruct t as [s|]; simpl; [|naive_solver].
  split.
  - intros H. right. exists s. split; [done|].
    destruct s as [|c r]; [constructor|]. simpl in H.
    apply trim_nil_iff. by destruct (trim (c :: r)).
  - intros [?|(s' & [= <-] & Hs)]; [done|].
    apply trim_nil_iff in Hs. rewrite Hs. by destruct s.
Qed.

(** ** The message of a server error *)

Example message_of_a_string_detail :
  serverErrorMessage (detailString (str "TTS model not loaded"))
  = str "TTS model not loaded".
Proof. reflexivity. Qed.

Example message_without_detail :
  serverErrorMessage detailMissing = str "Server error".
Proof. reflexivity. Qed.

Example message_of_an_empty_string_detail :
  serverErrorMessage (detailString []) = str "Server error".
Proof. reflexivity. Qed.

Example message_of_an_empty_array_detail :
  serverErrorMessage detailEmptyArray = [].
Proof. reflexivity. Qed.

(** ** Case analysis on the code *)

Ltac open_app :=
  unfold handleCapture, goHome, takeAnother, retryAudio, playPause,
    takePhoto, checkServer, onPlaybackStatusUpdate, resumeCaller,
    handleCapture_catch, handleCapture_finally, generateAudio_catch,
    generateAudio_finally, generateAudio, loadAudioFromBase64, cleanupSound,
    invalidate, unloaded, suspend, finish in *.

Ltac tests :=
  repeat match goal with
    | H : negb _ = true |- _ => apply negb_true_iff in H
    | H : negb _ = false |- _ => apply negb_false_iff in H
    | H : (_ =? _) = true |- _ => apply Nat.eqb_eq in H
    | H : (_ =? _) = false |- _ => apply Nat.eqb_neq in H
    | H : _ || _ = false |- _ => apply orb_false_elim in H; destruct H
    | H : _ && _ = true |- _ => apply andb_prop in H; destruct H
    end.

Ltac cases := repeat (case_match; simplify_eq/=).

Ltac by_cases := open_app; cases; simplify_eq/=; tests.

(** Every way a suspended function can be resumed. *)
Ltac resume_cases p o H :=
  destruct p; destruct o as [[]|]; simpl in H; try discriminate H; by_cases.

(** Every handler a task can run. *)
Ltac handle_cases e H := destruct e; simpl in H; by_cases.

(** ** How a task changes the pool *)

Lemma step_inv e sys sys' :
  step e sys = Some sys' →
  (∃ pid o p r,
      e = Settle pid o ∧ pool sys !! pid = Some (Some p)
      ∧ resume p o (world sys) = Some r ∧ sys' = settled pid r sys)
  ∨ (∃ w ps, handle e (world sys) = Some (w, ps) ∧ sys' = started w ps sys).
Proof.
  intros H. destruct e; unfold step in H; cbv beta iota in H.
  1: { left. destruct (pool sys !! pid) as [[p|]|] eqn:Hp; try done.
       destruct (resume p o (world sys)) as [r|] eqn:Hr; try done.
       simplify_eq. by exists pid, o, p, r. }
  all: right;
    match type of H with
    | match ?h with _ => _ end = _ => destruct h as [[w ps]|] eqn:Hh; [|done]
    end; simplify_eq; by exists w, ps.
Qed.

(** A slot of the pool after a task: the slot the task settled, a slot
    the task left alone, or a function the task started. *)
Lemma settled_lookup pid r sys i x :
  pool (settled pid r sys) !! i = Some x →
  (i = pid ∧ x = next r)
  ∨ (i ≠ pid ∧ pool sys !! i = Some x)
  ∨ (∃ g, x = Some g ∧ g ∈ spawned r).
Proof.
  simpl. intros [H|[_ H]]%lookup_app_Some.
  - apply list_lookup_insert_Some in H as [(-> & -> & _)|[? ?]]; auto.
  - right; right. apply list_lookup_fmap_Some in H as (g & ? & Hg).
    exists g. split; [done|]. by eapply list_elem_of_lookup_2.
Qed.

Lemma started_lookup w ps sys i x :
  pool (started w ps sys) !! i = Some x →
  pool sys !! i = Some x ∨ (∃ g, x = Some g ∧ g ∈ ps).
Proof.
  simpl. intros [H|[_ H]]%lookup_app_Some; [auto|].
  right. apply list_lookup_fmap_Some in H as (g & ? & Hg).
  exists g. split; [done|]. by eapply list_elem_of_lookup_2.
Qed.

Lemma settled_lookup_other pid r sys i x :
  i ≠ pid → pool sys !! i = Some x → pool (settled pid r sys) !! i = Some x.
Proof.
  intros Hne H. simpl. apply lookup_app_Some. left.
  apply list_lookup_insert_Some. auto.
Qed.

Lemma settled_lookup_same pid r sys x :
  pool sys !! pid = Some x → pool (settled pid r sys) !! pid = Some (next r).
Proof.
  intros H. simpl. apply lookup_app_Some. left.
  apply list_lookup_insert_Some. left. split_and!; [done..|].
  by eapply lookup_lt_Some.
Qed.

Lemma started_lookup_old w ps sys i x :
  pool sys !! i = Some x → pool (started w ps sys) !! i = Some x.
Proof. intros H. simpl. apply lookup_app_Some. by left. Qed.

(** ** The request counter only grows *)

Lemma resume_epoch_mono p o w r :
  resume p o w = Some r → ttsRequestId w ≤ ttsRequestId (after r).
Proof. intros H. resume_cases p o H; lia. Qed.

Lemma handle_epoch_mono e w w' ps :
  handle e w = Some (w', ps) → ttsRequestId w ≤ ttsRequestId w'.
Proof. intros H. handle_cases e H; lia. Qed.

Lemma step_epoch_mono e sys sys' :
  step e sys = Some sys' →
  ttsRequestId (world sys) ≤ ttsRequestId (world sys').
Proof.
  intros [(pid & o & p & r & -> & _ & Hr & ->)|(w & ps & Hh & ->)]%step_inv.
  - by eapply resume_epoch_mono.
  - by eapply handle_epoch_mono.
Qed.

Lemma run_epoch_mono es sys sys' :
  run es sys = Some sys' → ttsRequestId (world sys) ≤ ttsRequestId (world sys').
Proof.
  revert sys. induction es as [|e es IH]; intros sys H; simpl in H.
  - by simplify_eq.
  - destruct (step e sys) as [sys1|] eqn:E; [|done].
    etrans; [by eapply step_epoch_mono|by apply IH].
Qed.

(** ** Requests in flight were issued under a past or the current epoch *)

Lemma resume_stale p o w r rid :
  awaitingResponse p = Some rid → ttsRequestId w ≠ rid →
  resume p o w = Some r →
  after r = w ∧ spawned r = []
  ∧ (next r = None ∨ ∃ p', next r = Some p' ∧ awaitingResponse p' = Some rid).
Proof. intros Hp Hne H. resume_cases p o H; try done; eauto 6. Qed.

Lemma resume_next_awaiting p o w r p' rid :
  resume p o w = Some r → next r = Some p' →
  awaitingResponse p' = Some rid → awaitingResponse p = Some rid.
Proof. intros H Hn Hp'. resume_cases p o H; done. Qed.

Lemma resume_spawned_awaiting p o w r g rid :
  resume p o w = Some r → g ∈ spawned r →
  awaitingResponse g = Some rid → rid = ttsRequestId (after r).
Proof.
  intros H Hg Hrid. resume_cases p o H;
    try (by apply elem_of_nil in Hg);
    apply list_elem_of_singleton in Hg; by simplify_eq/=.
Qed.

Lemma handle_spawned_awaiting e w w' ps g rid :
  handle e w = Some (w', ps) → g ∈ ps →
  awaitingResponse g = Some rid → rid = ttsRequestId w'.
Proof.
  intros H Hg Hrid. handle_cases e H;
    try (by apply elem_of_nil in Hg);
    apply list_elem_of_singleton in Hg; by simplify_eq/=.
Qed.

Lemma issuedBelow_step e sys sys' :
  issuedBelow sys → step e sys = Some sys' → issuedBelow sys'.
Proof.
  intros Hinv Hstep i q rid Hq Hrid.
  pose proof (step_epoch_mono _ _ _ Hstep) as Hmono.
  apply step_inv in Hstep
    as [(pid & o & p & r & -> & Hp & Hr & ->)|(w & ps & Hh & ->)].
  - apply settled_lookup in Hq as [[-> Hn]|[[_ Hold]|(g & [= <-] & Hg)]].
    + etrans; [|exact Hmono]. eapply Hinv; [exact Hp|].
      by eapply resume_next_awaiting.
    + etrans; [|exact Hmono]. by eapply Hinv.
    + simpl. by rewrite (resume_spawned_awaiting _ _ _ _ _ _ Hr Hg Hrid).
  - apply started_lookup in Hq as [Hold|(g & [= <-] & Hg)].
    + etrans; [|exact Hmono]. by eapply Hinv.
    + simpl. by rewrite (handle_spawned_awaiting _ _ _ _ _ _ Hh Hg Hrid).
Qed.

Lemma run_invariant (P : System → Prop) :
  (∀ e sys sys', P sys → step e sys = Some sys' → P sys') →
  ∀ es sys sys', P sys → run es sys = Some sys' → P sys'.
Proof.
  intros Hstep es. induction es as [|e es IH]; intros sys sys' HP H.
  - by simplify_eq/=.
  - simpl in H. destruct (step e sys) as [sys1|] eqn:E; [|done]. eauto.
Qed.

Lemma issuedBelow_reachable sys : reachable sys → issuedBelow sys.
Proof.
  intros [es H]. eapply (run_invariant issuedBelow); [..|exact H].
  - apply issuedBelow_step.
  - intros [|[|?]] p rid Hp Hrid; by simplify_eq/=.
Qed.

(** A request that has been superseded stays superseded, and stays
    silent, until its function has finished. *)
Lemma superseded_step pid rid e sys sys' :
  superseded pid rid sys → step e sys = Some sys' →
  superseded pid rid sys'
  ∧ (∀ o, e = Settle pid o → world sys' = world sys).
Proof.
  intros Hsup Hstep.
  pose proof (step_epoch_mono _ _ _ Hstep) as Hmono.
  apply step_inv in Hstep
    as [(i & o & q & r & -> & Hq & Hr & ->)|(w & ps & Hh & ->)].
  - destruct (decide (i = pid)) as [->|Hne].
    + destruct Hsup as [Hnone|(p & Hp & Hrid & Hlt)]; [congruence|].
      assert (q = p) as -> by congruence.
      assert (ttsRequestId (world sys) ≠ rid) as Hne by lia.
      destruct (resume_stale _ _ _ _ _ Hrid Hne Hr) as (Hw & _ & Hnext).
      split; [|by intros].
      pose proof (settled_lookup_same pid r sys _ Hp) as Hsame.
      destruct Hnext as [Hn|(p' & Hn & Hp')]; rewrite Hn in Hsame.
      * by left.
      * right. exists p'. split_and!; [done..|]. simpl. rewrite Hw. lia.
    + split; [|intros o' [= ? _]; done].
      destruct Hsup as [Hnone|(p & Hp & Hrid & Hlt)].
      * left. by apply settled_lookup_other.
      * right. exists p. split_and!; [by apply settled_lookup_other|done|].
        simpl in *. lia.
  - split; [|intros o ->; by destruct (world sys)].
    destruct Hsup as [Hnone|(p & Hp & Hrid & Hlt)].
    + left. by eapply started_lookup_old.
    + right. exists p. split_and!; [by eapply started_lookup_old|done|].
      simpl in *. lia.
Qed.

Lemma superseded_run pid rid es sys sys' :
  superseded pid rid sys → run es sys = Some sys' → superseded pid rid sys'.
Proof.
  apply (run_invariant (superseded pid rid)).
  intros e s s' Hs Hstep. by apply (superseded_step _ _ _ _ _ Hs Hstep).
Qed.

(** ** The run in which nothing goes wrong *)

Example audio_is_ready_after_the_first_page :
  reachable audioLoaded
  ∧ screen (world audioLoaded) = player
  ∧ extractedText (world audioLoaded) = str "Once upon a time..."
  ∧ audioReady (world audioLoaded) = true
  ∧ isGeneratingAudio (world audioLoaded) = false
  ∧ ttsError (world audioLoaded) = None
  ∧ soundRef (world audioLoaded) = Some 0
  ∧ loaded (world audioLoaded) = [0]
  ∧ pool audioLoaded = [None; None; None].
Proof.
  split_and!; try (vm_compute; reflexivity).
  exists (firstPageShown
            ++ [Settle 2 (Resolved (VResponse true)); Settle 2 lateResponse;
                Settle 2 settledOk; Settle 2 settledOk; Settle 2 settledOk;
                Settle 2 (Resolved VSound); Settle 2 settledOk]).
  vm_compute. reflexivity.
Qed.

(** C1.  A synthesis request that has been superseded is discarded.
    Take any reachable state in which [generateAudio] is suspended in its
    network exchange with a [requestId] that differs from
    [ttsRequestId.current] (a [cleanupSound] or a newer [generateAudio]
    has incremented the counter since the request was issued).  Then,
    whatever happens next (any presses, any further captures, the other
    responses in any order), every settling of that request, with a body,
    an error status or a thrown error, leaves the whole world as it is:
    no state cell or ref is written, no setter is even called, nothing is
    started; the function goes on to its next network await or ends. *)
Theorem superseded_synthesis_is_discarded
    (sys : System) (pid rid : nat) (p : Proc)
    (es : list Event) (sys' : System) (o : Outcome) (sys'' : System) :
  reachable sys →
  pool sys !! pid = Some (Some p) →
  awaitingResponse p = Some rid →
  ttsRequestId (world sys) ≠ rid →
  run es sys = Some sys' →
  step (Settle pid o) sys' = Some sys'' →
  world sys'' = world sys'
  ∧ sameState (world sys') (world sys'')
  ∧ length (pool sys'') = length (pool sys')
  ∧ superseded pid rid sys''.
Proof.
  intros Hreach Hp Hrid Hne Hrun Hstep.
  assert (superseded pid rid sys) as Hsup.
  { right. exists p. split_and!; [done..|].
    pose proof (issuedBelow_reachable _ Hreach _ _ _ Hp Hrid). lia. }
  pose proof (superseded_run _ _ _ _ _ Hsup Hrun) as Hsup'.
  destruct (superseded_step _ _ _ _ _ Hsup' Hstep) as [Hsup'' Hsame].
  specialize (Hsame o eq_refl).
  split_and!; [done|by rewrite Hsame|..|done].
  apply step_inv in Hstep
    as [(i & o' & q & r & [= <- <-] & Hq & Hr & ->)|(w & ps & Hh & _)];
    [|done].
  destruct Hsup' as [?|(p' & Hp' & Hrid' & Hlt)]; [congruence|].
  assert (q = p') as -> by congruence.
  assert (ttsRequestId (world sys') ≠ rid) as Hne' by lia.
  destruct (resume_stale _ _ _ _ _ Hrid' Hne' Hr) as (_ & Hsp & _).
  simpl. rewrite Hsp, length_app, length_insert. simpl. lia.
Qed.

Lemma superseded_synthesis_is_discarded_witness :
  world afterLateResponse = world beforeLateResponse
  ∧ sameState (world beforeLateResponse) (world afterLateResponse)
  ∧ length (pool afterLateResponse) = length (pool beforeLateResponse)
  ∧ superseded 2 2 afterLateResponse.
Proof.
  apply (superseded_synthesis_is_discarded nextPageRequested 2 2
           (GenerateAudio_fetch 2) secondPageFirst beforeLateResponse
           lateResponse afterLateResponse).
  - exists (firstPageShown ++ [PressTakeAnother; Settle 3 settledOk]).
    vm_compute. reflexivity.
  - vm_compute. reflexivity.
  - vm_compute. reflexivity.
  - vm_compute. lia.
  - vm_compute. reflexivity.
  - vm_compute. reflexivity.
Defined.

(** A failure of [loadAudioFromBase64] that reaches [generateAudio] after
    the request has been superseded is dropped in the same way. *)
Lemma superseded_load_failure_is_discarded rid e o w :
  ttsRequestId w ≠ rid →
  resume (LoadAudio_throw rid e) o w = Some (finish w).
Proof.
  intros Hne. simpl. unfold generateAudio_catch, generateAudio_finally.
  apply Nat.eqb_neq in Hne. by rewrite Hne.
Qed.

(** ** One capture at a time *)

Lemma captures_cons x l : captures (x :: l) = weight x + captures l.
Proof.
  unfold captures, weight. rewrite filter_cons.
  destruct (slotInCapture x); by case_decide.
Qed.

Lemma captures_app l1 l2 : captures (l1 ++ l2) = captures l1 + captures l2.
Proof. unfold captures. by rewrite filter_app, length_app. Qed.

Lemma captures_insert l i x y :
  l !! i = Some y →
  captures (<[i:=x]> l) + weight y = captures l + weight x.
Proof.
  revert i. induction l as [|z l IH]; intros [|i] H; simplify_eq/=.
  - rewrite !captures_cons. lia.
  - rewrite !captures_cons. specialize (IH _ H). lia.
Qed.

Lemma captures_started (ps : list Proc) :
  Forall (fun g => inCapture g = false) ps → captures (Some <$> ps) = 0.
Proof.
  induction 1 as [|g ps Hg _ IH]; [done|].
  rewrite fmap_cons, captures_cons, IH. unfold weight. simpl. by rewrite Hg.
Qed.

(** What resuming a function does to [isProcessing]: a [handleCapture]
    either moves on to a later await and leaves the flag alone, or ends
    and clears it; any other function neither touches the flag nor turns
    into a [handleCapture]. *)
Lemma resume_capture p o w r :
  resume p o w = Some r →
  Forall (fun g => inCapture g = false) (spawned r)
  ∧ (if inCapture p then
       match next r with
       | Some p' =>
           inCapture p' = true ∧ isProcessing (after r) = isProcessing w
           ∧ awaitsLeft p' < awaitsLeft p
       | None => isProcessing (after r) = false
       end
     else
       isProcessing (after r) = isProcessing w
       ∧ match next r with
         | Some p' => inCapture p' = false
         | None => True
         end).
Proof.
  intros H. resume_cases p o H;
    (split; [repeat constructor|]); by repeat first [split|lia].
Qed.

Lemma handle_capture e w w' ps :
  handle e w = Some (w', ps) →
  (isProcessing w' = isProcessing w
   ∧ Forall (fun g => inCapture g = false) ps)
  ∨ (e = PressCapture ∧ isProcessing w = false ∧ isProcessing w' = true
     ∧ ∃ p, ps = [p] ∧ inCapture p = true).
Proof.
  intros H. handle_cases e H;
    first [ left; split; [done|by repeat constructor]
          | right; split_and!; [done..|]; eexists; by split ].
Qed.

Lemma oneCapture_step e sys sys' :
  oneCapture sys → step e sys = Some sys' → oneCapture sys'.
Proof.
  unfold oneCapture, capturesInFlight. intros Hinv Hstep.
  apply step_inv in Hstep
    as [(pid & o & p & r & -> & Hp & Hr & ->)|(w & ps & Hh & ->)]; simpl.
  - rewrite captures_app.
    pose proof (captures_insert _ _ (next r) _ Hp) as Hins.
    destruct (resume_capture _ _ _ _ Hr) as [Hsp Hcase].
    rewrite (captures_started _ Hsp). unfold weight in Hins. simpl in Hins.
    destruct (inCapture p) eqn:Hin.
    + destruct (next r) as [p'|] eqn:Hn; simpl in Hins.
      * destruct Hcase as (Hin' & -> & _). rewrite Hin' in Hins. lia.
      * rewrite Hcase. destruct (isProcessing (world sys)); lia.
    + destruct Hcase as [-> Hn]. destruct (next r) as [p'|]; simpl in Hins.
      * rewrite Hn in Hins. lia.
      * lia.
  - rewrite captures_app.
    destruct (handle_capture _ _ _ _ Hh)
      as [[-> Hps]|(_ & Hoff & -> & p & -> & Hin)].
    + rewrite (captures_started _ Hps). lia.
    + rewrite Hoff in Hinv. rewrite Hinv. simpl.
      rewrite captures_cons. unfold weight. simpl. by rewrite Hin.
Qed.

Lemma oneCapture_reachable sys : reachable sys → oneCapture sys.
Proof.
  intros [es H]. eapply (run_invariant oneCapture); [..|exact H].
  - apply oneCapture_step.
  - reflexivity.
Qed.

(** C10.  The capture handler is not re-entrant.  While [isProcessing] is
    set, a call of [handleCapture] returns at once and changes nothing;
    in every reachable state at most one [handleCapture] is in flight,
    and [isProcessing] is set exactly while one is; each time a
    [handleCapture] in flight is resumed it either moves on to a later
    await, leaving [isProcessing] alone, or ends with [isProcessing]
    cleared, and a rejection of what it awaits always ends it, unless it
    is still inside [cleanupSound], which swallows the rejection.  The
    handler of the navigation based camera screen has the same guard and
    the same [finally]. *)
Theorem capture_is_not_reentrant :
  (∀ w, isProcessing w = true → handleCapture w = (w, []))
  ∧ (∀ sys, reachable sys →
       capturesInFlight sys ≤ 1
       ∧ (isProcessing (world sys) = true ↔ capturesInFlight sys = 1))
  ∧ (∀ p o w r, inCapture p = true → resume p o w = Some r →
       match next r with
       | Some p' =>
           inCapture p' = true ∧ isProcessing (after r) = isProcessing w
           ∧ awaitsLeft p' < awaitsLeft p
       | None => isProcessing (after r) = false
       end)
  ∧ (∀ p e w, inCapture p = true →
       ∃ r, resume p (Rejected e) w = Some r
            ∧ (next r = None ∨ 7 ≤ awaitsLeft p))
  ∧ (∀ st, CameraScreen.isProcessing st = true →
       CameraScreen.handleCapture st = (st, None))
  ∧ (∀ p o st st' n, CameraScreen.resume p o st = Some (st', n) →
       match n with
       | Some p' =>
           CameraScreen.isProcessing st' = CameraScreen.isProcessing st
           ∧ CameraScreen.awaitsLeft p' < CameraScreen.awaitsLeft p
       | None => CameraScreen.isProcessing st' = false
       end).
Proof.
  split_and!.
  - intros w Hw. unfold handleCapture. rewrite Hw.
    by rewrite orb_true_r.
  - intros sys Hsys. pose proof (oneCapture_reachable _ Hsys) as H.
    unfold oneCapture in H.
    destruct (isProcessing (world sys)); rewrite H; split; try lia;
      split; (done || lia).
  - intros p o w r Hin Hr. destruct (resume_capture _ _ _ _ Hr) as [_ H].
    by rewrite Hin in H.
  - intros p e w Hin. destruct p; try discriminate Hin; simpl;
      eexists; (split; [reflexivity|]); (by left) || (right; lia).
  - intros st Hst. unfold CameraScreen.handleCapture. rewrite Hst.
    by rewrite orb_true_r.
  - intros p o st st' n H.
    destruct p, o; simpl in H; unfold CameraScreen.catch in H;
      repeat case_match; simplify_eq/=; (done || (split; [done|lia])).
Qed.

Lemma capture_is_not_reentrant_witness :
  handleCapture (world capturing) = (world capturing, [])
  ∧ capturesInFlight capturing ≤ 1
  ∧ isProcessing
      (after (handleCapture_catch ThrownValue (world capturing))) = false
  ∧ CameraScreen.handleCapture cameraProcessing = (cameraProcessing, None)
  ∧ CameraScreen.isProcessing
      (fst (CameraScreen.catch ThrownValue cameraProcessing)) = false.
Proof.
  destruct capture_is_not_reentrant as (Hguard & Hone & Hexit & _ & Hcam & Hres).
  split_and!.
  - apply Hguard. reflexivity.
  - apply Hone.
    exists (toCamera ++ [PressCapture; Settle 1 settledOk]).
    vm_compute. reflexivity.
  - apply (Hexit HandleCapture_takePicture (Rejected ThrownValue)
             (world capturing) _ eq_refl eq_refl).
  - apply Hcam. reflexivity.
  - apply (Hres CameraScreen.ReadImage (CameraScreen.Failed ThrownValue)
             cameraProcessing _ None).
    reflexivity.
Defined.

(** C2.  When the extraction response carries a text that is not blank,
    the code that handles it is one uninterrupted run, and in that run
    [setExtractedText], [setDetectedLanguage] and [setScreen('player')]
    are called, in this order, before [generateAudio] is: the first write
    to [isGeneratingAudio], [audioReady] and [ttsError] and the dispatch
    of the synthesis request all come after them.  The text shown is not
    empty, and the run ends [handleCapture] with a single synthesis
    request started under the next epoch. *)
Theorem text_is_shown_before_synthesis
    (w : World) (result : OcrResult) (t : jsstring) :
  text result = Some t →
  noText (text result) = false →
  let language := orElse (detected_language result) (str "auto") in
  ∃ r,
    resume HandleCapture_resultJson (Resolved (VOcrResult result)) w = Some r
    ∧ log (after r)
      = log w
          ++ [SetExtractedText t; SetDetectedLanguage language;
              SetScreen player;
              SetIsGeneratingAudio true; SetAudioReady false;
              SetTtsError None;
              Fetch (PostTts t language (str "warm") 1);
              SetIsProcessing false; SetLoadingText []]
    ∧ next r = None
    ∧ spawned r = [GenerateAudio_fetch (ttsRequestId w + 1)]
    ∧ screen (after r) = player
    ∧ extractedText (after r) = t
    ∧ truthy t = true
    ∧ ¬ whitespaceOnly t.
Proof.
  intros Ht Hno language. rewrite Ht in Hno.
  eexists. unfold resume. rewrite Ht, Hno.
  unfold generateAudio. cbv zeta. split; [reflexivity|]. simpl.
  split_and!; try reflexivity.
  - by repeat rewrite <- app_assoc.
  - simpl in Hno. by destruct (truthy t).
  - intros Hws. assert (noText (Some t) = true) as Hyes.
    { apply noText_spec. right. by exists t. }
    congruence.
Qed.

Lemma text_is_shown_before_synthesis_witness :
  ∃ r,
    resume HandleCapture_resultJson (Resolved (VOcrResult pageOne))
      (world capturing) = Some r
    ∧ log (after r)
      = log (world capturing)
          ++ [SetExtractedText (str "Once upon a time...");
              SetDetectedLanguage (str "en"); SetScreen player;
              SetIsGeneratingAudio true; SetAudioReady false;
              SetTtsError None;
              Fetch
                (PostTts (str "Once upon a time...") (str "en")
                   (str "warm") 1);
              SetIsProcessing false; SetLoadingText []]
    ∧ next r = None
    ∧ spawned r = [GenerateAudio_fetch (ttsRequestId (world capturing) + 1)]
    ∧ screen (after r) = player
    ∧ extractedText (after r) = str "Once upon a time..."
    ∧ truthy (str "Once upon a time...") = true
    ∧ ¬ whitespaceOnly (str "Once upon a time...").
Proof.
  apply (text_is_shown_before_synthesis (world capturing) pageOne
           (str "Once upon a time...")).
  - reflexivity.
  - vm_compute. reflexivity.
Defined.

(** C7.  [checkServer] never throws: whatever the health request
    settles to, the function ends there, starts nothing, and the only
    call it makes is one [setServerStatus]: with ['connected'] for a
    response with [ok], with ['error'] for a response that is not [ok]
    and for a rejected [fetch] (no network), which is not left
    unhandled.  While the status is not ['connected'], pressing "Take
    Photo" makes one call, the alert 'Server not connected', and leaves
    the screen and the status alone.  Whenever the home screen is shown,
    whatever the status and whatever is still pending, a press on the
    status control sets the status to ['checking'], sends a new
    [GET /health] and waits for it.  The home screen of the navigation
    based app does the same with the error its service client throws:
    the status becomes ['disconnected'], the camera control then raises
    one alert with "Retry" and "Cancel" without navigating, and "Retry"
    starts a new check. *)
Theorem health_check_failure_disconnects :
  (∀ ok w,
     ∃ r, resume CheckServer_fetch (Resolved (VResponse ok)) w = Some r
          ∧ next r = None ∧ spawned r = []
          ∧ serverStatus (after r) = (if ok then connected else error)
          ∧ log (after r)
            = log w ++ [SetServerStatus (if ok then connected else error)]
          ∧ screen (after r) = screen w)
  ∧ (∀ e w,
       ∃ r, resume CheckServer_fetch (Rejected e) w = Some r
            ∧ next r = None ∧ spawned r = []
            ∧ serverStatus (after r) = error
            ∧ log (after r) = log w ++ [SetServerStatus error]
            ∧ screen (after r) = screen w)
  ∧ (∀ w, serverStatus w ≠ connected →
       log (takePhoto w)
       = log w
           ++ [AlertAlert (str "Server not connected")
                 (str "Please wait or check connection")]
       ∧ screen (takePhoto w) = screen w
       ∧ serverStatus (takePhoto w) = serverStatus w)
  ∧ (∀ sys, screen (world sys) = home →
       ∃ sys',
         step PressStatus sys = Some sys'
         ∧ serverStatus (world sys') = checking
         ∧ log (world sys')
           = log (world sys) ++ [SetServerStatus checking; Fetch GetHealth]
         ∧ pool sys' = pool sys ++ [Some CheckServer_fetch]
         ∧ screen (world sys') = home)
  ∧ (∀ e st,
       HomeScreen.serverStatus
         (HomeScreen.checkServerHealth_settled (HomeScreen.Failure e)
            (HomeScreen.checkServerHealth st))
       = HomeScreen.disconnected
       ∧ HomeScreen.route
           (HomeScreen.checkServerHealth_settled (HomeScreen.Failure e)
              (HomeScreen.checkServerHealth st))
         = HomeScreen.route st
       ∧ HomeScreen.alerts
           (HomeScreen.checkServerHealth_settled (HomeScreen.Failure e)
              (HomeScreen.checkServerHealth st))
         = HomeScreen.alerts st)
  ∧ (∀ st, HomeScreen.serverStatus st ≠ HomeScreen.connected →
       HomeScreen.route (HomeScreen.handleCameraPress st)
       = HomeScreen.route st
       ∧ HomeScreen.serverStatus (HomeScreen.handleCameraPress st)
         = HomeScreen.serverStatus st
       ∧ HomeScreen.alerts (HomeScreen.handleCameraPress st)
         = HomeScreen.alerts st
             ++ [(str "Server Unavailable",
                  str "Cannot connect to the server. Please check your connection and try again.",
                  [HomeScreen.Retry; HomeScreen.Cancel])])
  ∧ (∀ st,
       HomeScreen.serverStatus
         (HomeScreen.pressAlertButton HomeScreen.Retry st)
       = HomeScreen.checking).
Proof.
  split_and!.
  - intros ok w. eexists. split; [reflexivity|]. by destruct ok.
  - intros e w. eexists. split; [reflexivity|]. done.
  - intros w Hw. unfold takePhoto.
    destruct (serverStatus w) eqn:E; try done; simpl; by rewrite E.
  - intros sys Hhome. eexists. unfold step, handle, onScreen.
    rewrite Hhome. split; [reflexivity|]. simpl.
    rewrite <- app_assoc. by split_and!.
  - done.
  - intros st Hst. unfold HomeScreen.handleCameraPress.
    by destruct (HomeScreen.serverStatus st).
  - done.
Qed.

Lemma health_check_failure_disconnects_witness :
  (∃ r, resume CheckServer_fetch (Rejected ThrownValue) (world mounted)
        = Some r
        ∧ next r = None ∧ spawned r = []
        ∧ serverStatus (after r) = error
        ∧ log (after r) = log (world mounted) ++ [SetServerStatus error]
        ∧ screen (after r) = screen (world mounted))
  ∧ log (takePhoto (world mounted))
    = log (world mounted)
        ++ [AlertAlert (str "Server not connected")
              (str "Please wait or check connection")]
  ∧ screen (takePhoto (world mounted)) = screen (world mounted)
  ∧ serverStatus (takePhoto (world mounted)) = serverStatus (world mounted).
Proof.
  destruct health_check_failure_disconnects
    as (_ & Hrejected & Hpress & _).
  split.
  - apply Hrejected.
  - apply Hpress. discriminate.
Defined.

(** C6, as the code has it.  [seekTo] does not clamp and does not write
    the position: it leaves the component's state as it is and, when a
    sound is loaded, forwards [seconds * 1000] to [setPositionAsync],
    whatever [seconds] is; without a sound it does nothing.  The values
    the slider reports lie between 0 and [duration], and for them the
    forwarded target lies between 0 and [duration * 1000] and clamping
    would change nothing.  [position] is written by the playback status
    callback only, which sets it to the position the engine reports. *)
Theorem seekTo_forwards_the_target (seconds : Q) (st : AudioPlayer.State) :
  fst (AudioPlayer.seekTo seconds st) = st
  ∧ snd (AudioPlayer.seekTo seconds st)
    = match AudioPlayer.sound st with
      | Some s => [AudioPlayer.SetPositionAsync s (seconds * 1000)]
      | None => []
      end
  ∧ (∀ duration, AudioPlayer.sliderValue duration seconds →
       (0 <= seconds * 1000 <= duration * 1000)%Q
       ∧ (AudioPlayer.clamped duration seconds == seconds)%Q)
  ∧ (∀ status,
       AudioPlayer.isLoaded status = true →
       AudioPlayer.didJustFinish status = false →
       AudioPlayer.position (AudioPlayer.onPlaybackStatusUpdate status st)
       = (AudioPlayer.positionMillis status / 1000)%Q).
Proof.
  split_and!.
  - unfold AudioPlayer.seekTo. by destruct (AudioPlayer.sound st).
  - unfold AudioPlayer.seekTo. by destruct (AudioPlayer.sound st).
  - intros duration [Hlo Hhi]. split.
    + split.
      * apply Qmult_le_0_compat; [done|]. by compute.
      * apply Qmult_le_compat_r; [done|]. by compute.
    + unfold AudioPlayer.clamped.
      destruct (Qle_bool seconds 0) eqn:E0.
      * apply Qle_bool_iff in E0. by apply Qle_antisym.
      * destruct (Qle_bool duration seconds) eqn:E1; [|reflexivity].
        apply Qle_bool_iff in E1. by apply Qle_antisym.
  - intros status Hl Hf. unfold AudioPlayer.onPlaybackStatusUpdate.
    by rewrite Hl, Hf.
Qed.

Lemma seekTo_forwards_the_target_witness :
  (0 <= 4 * 1000 <= 10 * 1000)%Q
  ∧ (AudioPlayer.clamped 10 4 == 4)%Q
  ∧ AudioPlayer.position
      (AudioPlayer.onPlaybackStatusUpdate
         {| AudioPlayer.isLoaded := true; AudioPlayer.positionMillis := 4000;
            AudioPlayer.statusIsPlaying := true;
            AudioPlayer.didJustFinish := false |}
         threeSecondsIn)
    = (4000 / 1000)%Q.
Proof.
  destruct (seekTo_forwards_the_target 4 threeSecondsIn)
    as (_ & _ & Hslider & Hstatus).
  destruct (Hslider 10%Q) as [Hrange Hclamp]; [split; by compute|].
  split_and!; [apply Hrange..|exact Hclamp|].
  apply Hstatus; reflexivity.
Defined.

(** C6 as stated fails: a seek to five seconds before the start of a ten
    second sound leaves [position] at three seconds, not at 0, and asks
    the engine for the position of minus five thousand milliseconds. *)
Lemma seekTo_does_not_clamp :
  ¬ (AudioPlayer.position (fst (AudioPlayer.seekTo (-5) threeSecondsIn))
     == AudioPlayer.clamped 10 (-5))%Q
  ∧ snd (AudioPlayer.seekTo (-5) threeSecondsIn)
    = [AudioPlayer.SetPositionAsync 0 (-5 * 1000)]
  ∧ ¬ (0 <= -5 * 1000)%Q.
Proof. split_and!; [by compute|reflexivity|by compute]. Qed.

(** C8, as the code has it.  Every operation of the service client, the
    health check included, is sent with the one timeout of the axios
    instance, 120000 milliseconds (two minutes), also after
    [setBaseUrl]; and a request that timed out fails with the message of
    a request that got no response at all. *)
Theorem one_timeout_for_every_operation (op : ApiService.Operation) :
  ApiService.requestTimeout (ApiService.request ApiService.client op)
  = (2 * 60 * 1000)%Z
  ∧ ApiService.requestTimeout (ApiService.request ApiService.client op)
    = ApiService.requestTimeout
        (ApiService.request ApiService.client ApiService.checkHealth)
  ∧ (∀ url,
       ApiService.requestTimeout
         (ApiService.request
            (ApiService.setBaseUrl url ApiService.client) op)
       = 120000%Z)
  ∧ ApiService.interceptor ApiService.timeoutError
    = str "Cannot connect to server. Please check your connection."
  ∧ ApiService.interceptor ApiService.timeoutError
    = ApiService.interceptor ApiService.networkError.
Proof. by destruct op. Qed.

(** C8 as stated fails: the health check is not sent with a shorter
    timeout than speech synthesis. *)
Lemma health_check_timeout_is_not_shorter :
  ¬ (ApiService.requestTimeout
       (ApiService.request ApiService.client ApiService.checkHealth)
     < ApiService.requestTimeout
         (ApiService.request ApiService.client ApiService.textToSpeech))%Z.
Proof. simpl. lia. Qed.

(** ** Releasing the sound *)

Lemma invalidate_iter_frame n w :
  soundRef (Nat.iter n invalidate w) = soundRef w
  ∧ sound (Nat.iter n invalidate w) = sound w
  ∧ isPlaying (Nat.iter n invalidate w) = isPlaying w
  ∧ loaded (Nat.iter n invalidate w) = loaded w
  ∧ ttsRequestId (Nat.iter n invalidate w) = ttsRequestId w + n.
Proof.
  induction n as [|n (IH1 & IH2 & IH3 & IH4 & IH5)]; simpl.
  - split_and!; (done || lia).
  - split_and!; try done. rewrite IH5. lia.
Qed.

Lemma cleanupSound_returns_idle invalidateRequests k o1 o2 w :
  soundRef w = None →
  cleanupSound_returns invalidateRequests k o1 o2 w
  = Some (if invalidateRequests then invalidate w else w).
Proof.
  intros H. unfold cleanupSound_returns, cleanupSound.
  destruct invalidateRequests; simpl; by rewrite H.
Qed.

Lemma iter_invalidate n w :
  Nat.iter n invalidate (invalidate w) = invalidate (Nat.iter n invalidate w).
Proof.
  induction n as [|n IH]; [done|].
  change (invalidate (Nat.iter n invalidate (invalidate w))
          = invalidate (invalidate (Nat.iter n invalidate w))).
  by rewrite IH.
Qed.

Lemma cleanupSound_sequence_idle calls k w :
  soundRef w = None →
  cleanupSound_sequence calls k w
  = Some (Nat.iter (invalidating calls) invalidate w).
Proof.
  revert w. induction calls as [|[[i o1] o2] calls IH]; intros w H; [done|].
  simpl. rewrite cleanupSound_returns_idle by done.
  unfold invalidating. rewrite filter_cons. destruct i; simpl.
  - rewrite IH by done. fold (invalidating calls).
    by rewrite iter_invalidate.
  - by rewrite IH.
Qed.

(** C9, as the code has it.  An awaited [cleanupSound] on a held sound
    returns to its caller whatever [stopAsync] and [unloadAsync] settle
    to: their rejections are swallowed and nothing but the two calls and
    the setters is logged.  It leaves no sound held and playback paused.
    Any number of further awaited calls find no sound and return at
    once; they touch neither the sound nor the playback state, but each
    one that is not called with [invalidateRequests = false] runs the
    invalidation again: it increments [ttsRequestId] and clears the
    three synthesis cells.  Only [cleanupSound(false)] is without
    effect. *)
Theorem cleanupSound_releases_once
    (w : World) (s : Sound) (invalidateRequests : bool) (k : Caller)
    (o1 o2 : Outcome) (calls : list (bool * Outcome * Outcome)) :
  soundRef w = Some s →
  ∃ w1,
    cleanupSound_returns invalidateRequests k o1 o2 w = Some w1
    ∧ soundRef w1 = None ∧ sound w1 = None ∧ isPlaying w1 = false
    ∧ log w1
      = log (if invalidateRequests then invalidate w else w)
          ++ [StopAsync s; UnloadAsync s; SetSound None; SetIsPlaying false]
    ∧ ∃ w2,
        cleanupSound_sequence calls k w1 = Some w2
        ∧ w2 = Nat.iter (invalidating calls) invalidate w1
        ∧ soundRef w2 = None ∧ sound w2 = None ∧ isPlaying w2 = false
        ∧ loaded w2 = loaded w1
        ∧ ttsRequestId w2 = ttsRequestId w1 + invalidating calls
        ∧ (invalidating calls = 0 → w2 = w1).
Proof.
  intros Hs.
  assert (∃ w1,
    cleanupSound_returns invalidateRequests k o1 o2 w = Some w1
    ∧ soundRef w1 = None ∧ sound w1 = None ∧ isPlaying w1 = false
    ∧ log w1
      = log (if invalidateRequests then invalidate w else w)
          ++ [StopAsync s; UnloadAsync s; SetSound None; SetIsPlaying false])
    as (w1 & Hret & Href & Hsound & Hplay & Hlog).
  { unfold cleanupSound_returns, cleanupSound.
    destruct invalidateRequests; simpl; rewrite Hs; simpl;
      (eexists; split; [reflexivity|]); simpl;
      split_and!; try done; destruct o2; simpl;
      by repeat rewrite <- app_assoc. }
  exists w1. split_and!; try done.
  exists (Nat.iter (invalidating calls) invalidate w1).
  destruct (invalidate_iter_frame (invalidating calls) w1)
    as (F1 & F2 & F3 & F4 & F5).
  split_and!; try congruence.
  - by apply cleanupSound_sequence_idle.
  - by intros ->.
Qed.

Lemma cleanupSound_releases_once_witness :
  ∃ w1,
    cleanupSound_returns true K_takeAnother settledOk
      (Rejected (ThrownError (str "Player does not exist."))) (world audioLoaded)
    = Some w1
    ∧ soundRef w1 = None ∧ sound w1 = None ∧ isPlaying w1 = false
    ∧ log w1
      = log (invalidate (world audioLoaded))
          ++ [StopAsync 0; UnloadAsync 0; SetSound None; SetIsPlaying false]
    ∧ ∃ w2,
        cleanupSound_sequence
          [(false, settledOk, settledOk); (true, settledOk, settledOk)]
          K_takeAnother w1 = Some w2
        ∧ w2 = Nat.iter 1 invalidate w1
        ∧ soundRef w2 = None ∧ sound w2 = None ∧ isPlaying w2 = false
        ∧ loaded w2 = loaded w1
        ∧ ttsRequestId w2 = ttsRequestId w1 + 1
        ∧ (1 = 0 → w2 = w1).
Proof.
  apply (cleanupSound_releases_once (world audioLoaded) 0 true K_takeAnother
           settledOk (Rejected (ThrownError (str "Player does not exist.")))
           [(false, settledOk, settledOk); (true, settledOk, settledOk)]).
  reflexivity.
Defined.

(** C9 as stated fails: after the sound has been released, a further
    [cleanupSound()] does have an effect, it moves the request counter
    on. *)
Lemma second_cleanupSound_has_an_effect :
  cleanupSound_returns true K_takeAnother settledOk settledOk
    (world audioLoaded) = Some releasedOnce
  ∧ soundRef releasedOnce = None
  ∧ isPlaying releasedOnce = false
  ∧ ∃ w2,
      cleanupSound_returns true K_takeAnother settledOk settledOk releasedOnce
      = Some w2
      ∧ w2 ≠ releasedOnce
      ∧ ttsRequestId w2 = ttsRequestId releasedOnce + 1.
Proof.
  split_and!; try (vm_compute; reflexivity).
  eexists. split; [vm_compute; reflexivity|]. split; [|reflexivity].
  intros H. apply (f_equal ttsRequestId) in H. vm_compute in H. lia.
Qed.

(** The clean-up of the stand-alone audio player is idempotent as well:
    the first run clears [soundRef], the second finds nothing. *)
Lemma unmount_twice (st : AudioPlayer.State) :
  AudioPlayer.unmount (fst (AudioPlayer.unmount st))
  = (fst (AudioPlayer.unmount st), []).
Proof.
  unfold AudioPlayer.unmount.
  destruct (AudioPlayer.soundRef st) eqn:E; simpl; [done|by rewrite E].
Qed.

(** ** A capture that finds no text *)

Lemma resume_capture_continues p o w r p' :
  resume p o w = Some r → inCapture p = true → next r = Some p' →
  captureFrame w (after r) ∧ spawned r = [] ∧ inCapture p' = true
  ∧ (soundReleased p w → soundReleased p' (after r)).
Proof.
  intros H Hin Hn. unfold captureFrame.
  resume_cases p o H; by split_and!.
Qed.

Lemma captureFrame_trans w1 w2 w3 :
  captureFrame w1 w2 → captureFrame w2 w3 → captureFrame w1 w3.
Proof.
  unfold captureFrame.
  intros (A1 & A2 & A3 & A4 & A5 & A6 & A7 & A8 & A9)
         (B1 & B2 & B3 & B4 & B5 & B6 & B7 & B8 & B9).
  split_and!; congruence.
Qed.

Lemma drive_capture os r r' p :
  next r = Some p → inCapture p = true →
  drive os r = Some r' → is_Some (next r') →
  captureFrame (after r) (after r') ∧ spawned r' = spawned r
  ∧ ∃ p', next r' = Some p' ∧ inCapture p' = true
          ∧ (soundReleased p (after r) → soundReleased p' (after r')).
Proof.
  revert r p. induction os as [|o os IH]; intros r p Hn Hin Hd Hsome.
  - simpl in Hd. simplify_eq. split_and!; [by unfold captureFrame|done|].
    by exists p.
  - simpl in Hd. rewrite Hn in Hd.
    destruct (resume p o (after r)) as [r1|] eqn:Hr; [|done].
    destruct (next r1) as [p1|] eqn:Hn1.
    + destruct (resume_capture_continues _ _ _ _ _ Hr Hin Hn1)
        as (Hf & Hsp & Hin1 & Hrel).
      destruct
        (IH {| after := after r1; next := Some p1;
               spawned := spawned r ++ spawned r1 |}
            p1 eq_refl Hin1 Hd Hsome)
        as (Hf' & Hsp' & p' & Hn' & Hin' & Hrel').
      simpl in *. split_and!.
      * by eapply captureFrame_trans.
      * by rewrite Hsp', Hsp, app_nil_r.
      * exists p'. split_and!; auto.
    + destruct os; simpl in Hd; simplify_eq/=. by destruct Hsome.
Qed.

(** A capture that finds no text, run on its own: nothing else is
    resumed between its awaits. *)
Lemma blank_capture_alone
    (w : World) (os : list Outcome) (r : Ran) (result : OcrResult) :
  cameraRefCurrent w = true →
  isProcessing w = false →
  drive os (handleCapture_called w) = Some r →
  next r = Some HandleCapture_resultJson →
  noText (text result) = true →
  ∃ r',
    drive [Resolved (VOcrResult result)] r = Some r'
    ∧ next r' = None ∧ spawned r' = []
    ∧ log (after r')
      = log (after r)
          ++ [AlertAlert (str "Error") (str "No text found in the image");
              SetIsProcessing false; SetLoadingText []]
    ∧ screen (after r') = camera
    ∧ extractedText (after r') = extractedText w
    ∧ detectedLanguage (after r') = detectedLanguage w
    ∧ isGeneratingAudio (after r') = false
    ∧ audioReady (after r') = false
    ∧ ttsError (after r') = None
    ∧ soundRef (after r') = None
    ∧ ttsRequestId (after r') = ttsRequestId w + 1
    ∧ isProcessing (after r') = false.
Proof.
  intros Hcam Hidle Hd Hn Hno.
  assert (screen w = camera) as Hscreen.
  { unfold cameraRefCurrent in Hcam. by destruct (screen w). }
  assert (∃ p0, next (handleCapture_called w) = Some p0
                ∧ inCapture p0 = true
                ∧ soundReleased p0 (after (handleCapture_called w))
                ∧ spawned (handleCapture_called w) = []
                ∧ captureFrame
                    (with_isProcessing true
                       (with_ttsError None
                          (with_audioReady false
                             (with_isGeneratingAudio false
                                (with_ttsRequestId (ttsRequestId w + 1) w)))))
                    (after (handleCapture_called w)))
    as (p0 & Hn0 & Hin0 & Hrel0 & Hsp0 & Hf0).
  { unfold handleCapture_called, handleCapture, cleanupSound, captureFrame.
    rewrite Hcam, Hidle. simpl.
    destruct (soundRef w) eqn:Hs; simpl; eexists; by split_and!. }
  destruct (drive_capture _ _ _ _ Hn0 Hin0 Hd ltac:(by rewrite Hn))
    as (Hf & Hsp & p' & Hn' & _ & Hrel).
  rewrite Hn in Hn'. simplify_eq. specialize (Hrel Hrel0). simpl in Hrel.
  pose proof (captureFrame_trans _ _ _ Hf0 Hf)
    as (F1 & F2 & F3 & F4 & F5 & F6 & F7 & F8 & F9).
  simpl in *.
  assert (resume HandleCapture_resultJson (Resolved (VOcrResult result))
            (after r)
          = Some
              (handleCapture_catch
                 (ThrownError (str "No text found in the image")) (after r)))
    as Hres.
  { unfold resume. rewrite Hno. by destruct (text result). }
  eexists. simpl. rewrite Hn, Hres. split; [reflexivity|]. simpl.
  rewrite Hsp, Hsp0. split_and!; try done; try congruence.
  by repeat rewrite <- app_assoc.
Qed.

(** C5, as the code has it.  Whatever else is in flight, when the
    parsed extraction response has a text that is missing, empty or
    white space only, the attempt ends there: the function is finished,
    nothing is started, the calls it makes are the alert 'No text found
    in the image' and the two setters of the [finally] block, and every
    cell but [isProcessing] and [loadingText] is what it was just before
    the response.  Run on its own the attempt never leaves the camera
    screen, [extractedText] and [detectedLanguage] are those from before
    the attempt, and the synthesis state is what the [cleanupSound()]
    that opens the attempt made of it: [isGeneratingAudio] and
    [audioReady] false, [ttsError] null, no sound held, [ttsRequestId]
    one more.  The synthesis state is never put back: the press already
    resets the three cells and increments the counter, and the counter
    stays above its old value whatever runs afterwards.  In the event
    loop the reset values need not be the end values: in
    [blankCaptureDuringLoad] the load of an earlier synthesis finishes
    between the awaits of the capture, and the attempt ends with
    [audioReady] set and a sound held. *)
Theorem blank_text_aborts_the_capture :
  (∀ sys pid result,
     pool sys !! pid = Some (Some HandleCapture_resultJson) →
     noText (text result) = true →
     ∃ sys',
       step (Settle pid (Resolved (VOcrResult result))) sys = Some sys'
       ∧ pool sys' = <[pid := None]> (pool sys)
       ∧ log (world sys')
         = log (world sys)
             ++ [AlertAlert (str "Error") (str "No text found in the image");
                 SetIsProcessing false; SetLoadingText []]
       ∧ isProcessing (world sys') = false
       ∧ loadingText (world sys') = []
       ∧ screen (world sys') = screen (world sys)
       ∧ extractedText (world sys') = extractedText (world sys)
       ∧ detectedLanguage (world sys') = detectedLanguage (world sys)
       ∧ isGeneratingAudio (world sys') = isGeneratingAudio (world sys)
       ∧ audioReady (world sys') = audioReady (world sys)
       ∧ ttsError (world sys') = ttsError (world sys)
       ∧ sound (world sys') = sound (world sys)
       ∧ soundRef (world sys') = soundRef (world sys)
       ∧ ttsRequestId (world sys') = ttsRequestId (world sys))
  ∧ (∀ w os r result,
       cameraRefCurrent w = true →
       isProcessing w = false →
       drive os (handleCapture_called w) = Some r →
       next r = Some HandleCapture_resultJson →
       noText (text result) = true →
       ∃ r',
         drive [Resolved (VOcrResult result)] r = Some r'
         ∧ next r' = None ∧ spawned r' = []
         ∧ log (after r')
           = log (after r)
               ++ [AlertAlert (str "Error")
                     (str "No text found in the image");
                   SetIsProcessing false; SetLoadingText []]
         ∧ screen (after r') = camera
         ∧ extractedText (after r') = extractedText w
         ∧ detectedLanguage (after r') = detectedLanguage w
         ∧ isGeneratingAudio (after r') = false
         ∧ audioReady (after r') = false
         ∧ ttsError (after r') = None
         ∧ soundRef (after r') = None
         ∧ ttsRequestId (after r') = ttsRequestId w + 1
         ∧ isProcessing (after r') = false)
  ∧ (∀ sys sys1 es sys2,
       cameraRefCurrent (world sys) = true →
       isProcessing (world sys) = false →
       step PressCapture sys = Some sys1 →
       run es sys1 = Some sys2 →
       isGeneratingAudio (world sys1) = false
       ∧ audioReady (world sys1) = false
       ∧ ttsError (world sys1) = None
       ∧ ttsRequestId (world sys1) = ttsRequestId (world sys) + 1
       ∧ ttsRequestId (world sys) < ttsRequestId (world sys2))
  ∧ (reachable staleLoadPending
     ∧ run blankCaptureDuringLoad staleLoadPending
       = Some afterBlankCaptureDuringLoad
     ∧ screen (world staleLoadPending) = camera
     ∧ audioReady (world staleLoadPending) = false
     ∧ soundRef (world staleLoadPending) = None
     ∧ drop (length (log (world afterBlankCaptureDuringLoad)) - 3)
         (log (world afterBlankCaptureDuringLoad))
       = [AlertAlert (str "Error") (str "No text found in the image");
          SetIsProcessing false; SetLoadingText []]
     ∧ screen (world afterBlankCaptureDuringLoad) = camera
     ∧ audioReady (world afterBlankCaptureDuringLoad) = true
     ∧ soundRef (world afterBlankCaptureDuringLoad) = Some 0
     ∧ sound (world afterBlankCaptureDuringLoad) = Some 0).
Proof.
  split_and!.
  - intros sys pid result Hp Hno. eexists.
    unfold step. rewrite Hp. unfold resume. rewrite Hno.
    split; [by destruct (text result)|].
    simpl. rewrite app_nil_r, <- !app_assoc. by split_and!.
  - apply blank_capture_alone.
  - intros sys sys1 es sys2 Hcam Hidle Hstep Hrun.
    assert (screen (world sys) = camera
            ∧ permissionGranted (world sys) = true) as [Hsc Hperm].
    { unfold cameraRefCurrent in Hcam. by destruct (screen (world sys)). }
    pose proof (run_epoch_mono _ _ _ Hrun) as Hmono.
    unfold step, handle, onScreen, handleCapture, cleanupSound in Hstep.
    rewrite Hsc, Hperm, Hcam, Hidle in Hstep. simpl in Hstep.
    destruct (soundRef (world sys)); simplify_eq/=; split_and!; try done; lia.
  - exists (firstAudioLoading ++ [PressTakeAnother; Settle 3 settledOk]).
    vm_compute. reflexivity.
  - vm_compute. reflexivity.
  - reflexivity.
  - reflexivity.
  - reflexivity.
  - vm_compute. reflexivity.
  - reflexivity.
  - reflexivity.
  - reflexivity.
  - reflexivity.
Qed.

Lemma blank_text_aborts_the_capture_witness :
  ∃ r',
    drive [Resolved (VOcrResult blankPage)]
      {| after := world extracting;
         next := Some HandleCapture_resultJson;
         spawned := [] |} = Some r'
    ∧ next r' = None ∧ spawned r' = []
    ∧ log (after r')
      = log (world extracting)
          ++ [AlertAlert (str "Error") (str "No text found in the image");
              SetIsProcessing false; SetLoadingText []]
    ∧ screen (after r') = camera
    ∧ extractedText (after r') = extractedText (world cameraOpened)
    ∧ detectedLanguage (after r') = detectedLanguage (world cameraOpened)
    ∧ isGeneratingAudio (after r') = false
    ∧ audioReady (after r') = false
    ∧ ttsError (after r') = None
    ∧ soundRef (after r') = None
    ∧ ttsRequestId (after r') = ttsRequestId (world cameraOpened) + 1
    ∧ isProcessing (after r') = false.
Proof.
  apply (proj1 (proj2 blank_text_aborts_the_capture) (world cameraOpened)
           [settledOk;
            Resolved (VPhoto (Some (str "file:///photo.jpg")));
            Resolved (VManipulated (str "file:///small.jpg"));
            Resolved (VString (str "/9j/4AAQ"));
            Resolved (VResponse true)]).
  - reflexivity.
  - reflexivity.
  - vm_compute. reflexivity.
  - reflexivity.
  - vm_compute. reflexivity.
Defined.

(** C5 as stated fails: the synthesis state is not what it was before
    the attempt.  In [staleAudioOnCamera], a state the app reaches when
    "Take Another Photo" is pressed while the audio of the page is being
    loaded, the camera is shown with [audioReady] set and a sound held;
    a capture that finds white space only alerts the user, stays on the
    camera screen, and leaves [audioReady] cleared, the sound released
    and the request counter moved on.  The counter moves on in the plain
    case too, when nothing else was there to reset. *)
Lemma blank_capture_resets_the_synthesis_state :
  reachable staleAudioOnCamera
  ∧ run blankCapture staleAudioOnCamera = Some afterBlankCapture
  ∧ screen (world staleAudioOnCamera) = camera
  ∧ screen (world afterBlankCapture) = camera
  ∧ drop (length (log (world afterBlankCapture)) - 3)
      (log (world afterBlankCapture))
    = [AlertAlert (str "Error") (str "No text found in the image");
       SetIsProcessing false; SetLoadingText []]
  ∧ audioReady (world staleAudioOnCamera) = true
  ∧ audioReady (world afterBlankCapture) = false
  ∧ sound (world staleAudioOnCamera) = Some 0
  ∧ sound (world afterBlankCapture) = None
  ∧ ttsRequestId (world staleAudioOnCamera) = 3
  ∧ ttsRequestId (world afterBlankCapture) = 4
  ∧ run (PressCapture :: captureSettles 1 blankPage) cameraOpened
    = Some afterFirstBlankCapture
  ∧ ttsRequestId (world cameraOpened) = 0
  ∧ ttsRequestId (world afterFirstBlankCapture) = 1.
Proof.
  split_and!; try (vm_compute; reflexivity).
  exists (firstAudioLoading
            ++ [PressTakeAnother; Settle 3 settledOk;
                Settle 2 (Resolved VSound); Settle 2 settledOk]).
  vm_compute. reflexivity.
Qed.

(** C4 fails on the code.  In the run [twoLoads] every promise resolves,
    none is rejected, and at its end the engine holds two loaded sounds:
    the one [soundRef] points to and the one of the page before, which
    was created after the second [generateAudio] had looked for a sound
    to release.  No [stopAsync] and no [unloadAsync] has been called,
    and no function is left that could call them. *)
Theorem two_sounds_are_loaded_at_once :
  run twoLoads mounted = Some afterTwoLoads
  ∧ loaded (world afterTwoLoads) = [1; 0]
  ∧ soundRef (world afterTwoLoads) = Some 1
  ∧ sound (world afterTwoLoads) = Some 1
  ∧ audioReady (world afterTwoLoads) = true
  ∧ existsb releases (log (world afterTwoLoads)) = false
  ∧ pool afterTwoLoads = [None; None; None; None; None; None].
Proof. split_and!; vm_compute; reflexivity. Qed.

(** ** A synthesis that fails *)

(** What the [catch] and [finally] of [generateAudio] do when the request
    is the current one: the text, the language and the screen stay, the
    message is stored, and the retry control is rendered when the player
    screen is shown and the message is not empty; pressing it issues the
    request again under the next epoch. *)
Lemma synthesis_failure_keeps_the_text rid e w :
  ttsRequestId w = rid →
  let w' := generateAudio_catch rid e w in
  extractedText w' = extractedText w
  ∧ detectedLanguage w' = detectedLanguage w
  ∧ screen w' = screen w
  ∧ sound w' = sound w ∧ isPlaying w' = isPlaying w
  ∧ ttsRequestId w' = rid
  ∧ ttsError w' = Some (generateAudio_message e)
  ∧ audioReady w' = false
  ∧ isGeneratingAudio w' = false
  ∧ log w'
    = log w
        ++ [SetTtsError (Some (generateAudio_message e));
            SetAudioReady false; SetIsGeneratingAudio false]
  ∧ (retryRendered w' = true
     ↔ screen w = player ∧ generateAudio_message e ≠ [])
  ∧ snd (retryAudio w') = GenerateAudio_fetch (rid + 1).
Proof.
  intros Hrid w'. subst w'. unfold generateAudio_catch, generateAudio_finally.
  apply Nat.eqb_eq in Hrid as Heq. rewrite Heq. simpl. rewrite Heq. simpl.
  apply Nat.eqb_eq in Heq.
  split_and!; try done.
  - by repeat rewrite <- app_assoc.
  - unfold retryRendered. simpl.
    destruct (screen w), (generateAudio_message e); simpl;
      intuition congruence.
  - by rewrite Heq.
Qed.

(** C3 fails on the code.  The synthesis of the page on display is
    answered with an error status and the body [{"detail": []}].  The
    request is the current one, so the failure is recorded: the text
    stays, [audioReady] and [isGeneratingAudio] are false, and
    [ttsError] is the message of [new Error([])], the empty string.  It
    is falsy, so [{ttsError && ...}] renders no retry control: there is
    nothing to press. *)
Theorem empty_error_message_offers_no_retry :
  run emptyDetailFailure mounted = Some afterEmptyDetailFailure
  ∧ pool afterEmptyDetailFailure = [None; None; None]
  ∧ ttsRequestId (world afterEmptyDetailFailure) = 2
  ∧ screen (world afterEmptyDetailFailure) = player
  ∧ extractedText (world afterEmptyDetailFailure)
    = str "Once upon a time..."
  ∧ audioReady (world afterEmptyDetailFailure) = false
  ∧ isGeneratingAudio (world afterEmptyDetailFailure) = false
  ∧ ttsError (world afterEmptyDetailFailure) = Some []
  ∧ retryRendered (world afterEmptyDetailFailure) = false
  ∧ step PressRetry afterEmptyDetailFailure = None.
Proof. split_and!; vm_compute; reflexivity. Qed.

(** * More properties of [App] *)

(** ** Invariants of the cells alone *)

Lemma world_invariant (P : World → Prop) :
  (∀ p o w r, resume p o w = Some r → P w → P (after r)) →
  (∀ e w w' ps, handle e w = Some (w', ps) → P w → P w') →
  P (world mounted) →
  ∀ sys, reachable sys → P (world sys).
Proof.
  intros Hres Hhan Hinit sys [es Hrun].
  eapply (run_invariant (fun s => P (world s))); [|exact Hinit|exact Hrun].
  intros e s s' HP Hstep.
  apply step_inv in Hstep
    as [(pid & o & p & r & -> & _ & Hr & ->)|(w & ps & Hh & ->)]; simpl; eauto.
Qed.

Lemma resume_counter p o w r :
  resume p o w = Some r →
  ttsRequestId (after r)
  = ttsRequestId w + (if callsGenerateAudio p o then 1 else 0).
Proof.
  intros H. resume_cases p o H; simpl; try lia;
    match goal with
    | Ht : text ?x = _, Hn : noText (text ?x) = _ |- _ =>
        rewrite Ht in Hn; simpl in Hn;
        first
          [ congruence
          | apply orb_true_iff in Hn as [Hn|Hn];
            apply negb_true_iff in Hn; congruence ]
    end.
Qed.

Lemma handle_counter e w w' ps :
  handle e w = Some (w', ps) →
  ttsRequestId w'
  = ttsRequestId w
    + (if match e with
          | PressRetry => true
          | _ => callsCleanupSound e w
          end
       then 1 else 0).
Proof.
  intros H.
  destruct (cameraRefCurrent w) eqn:Hc, (isProcessing w) eqn:Hi;
    handle_cases e H; simpl; rewrite ?Hc, ?Hi; simpl; try lia;
    simpl in *; try congruence;
    match goal with
    | Hx : negb (cameraRefCurrent ?w) || isProcessing ?w = _,
      Hc' : cameraRefCurrent ?w = _, Hi' : isProcessing ?w = _ |- _ =>
        rewrite Hc', Hi' in Hx; discriminate Hx
    | Hx : cameraRefCurrent ?w && negb (isProcessing ?w) = _,
      Hc' : cameraRefCurrent ?w = _, Hi' : isProcessing ?w = _ |- _ =>
        rewrite Hc', Hi' in Hx; discriminate Hx
    end.
Qed.

Lemma step_counter e sys sys' :
  step e sys = Some sys' →
  ttsRequestId (world sys')
  = ttsRequestId (world sys) + (if writesCounter e sys then 1 else 0).
Proof.
  intros Hstep.
  apply step_inv in Hstep
    as [(pid & o & p & r & -> & Hp & Hr & ->)|(w & ps & Hh & ->)]; simpl.
  - rewrite Hp. by apply resume_counter.
  - rewrite (handle_counter _ _ _ _ Hh). by destruct e.
Qed.

(** X1.  The request counter is written by the calls of
    [cleanupSound()] and of [generateAudio] and by nothing else, and
    each of them adds one.  Along every run of the event loop
    [ttsRequestId.current] grows by exactly the number of tasks that
    make such a call: "Home", "Take Another Photo", a press of the
    capture button that passes the guard, "Retry Audio", and the
    handling of an extraction response with a text that is not blank.
    Every other task leaves it alone, the [cleanupSound(false)] inside
    [generateAudio] included; so the counter never goes down. *)
Theorem request_counter_never_decreases
    (es : list Event) (sys sys' : System) :
  run es sys = Some sys' →
  ttsRequestId (world sys')
  = ttsRequestId (world sys) + counterWrites es sys
  ∧ ttsRequestId (world sys) ≤ ttsRequestId (world sys').
Proof.
  intros H.
  assert (ttsRequestId (world sys')
          = ttsRequestId (world sys) + counterWrites es sys) as Heq;
    [|split; [done|lia]].
  revert sys H. induction es as [|e es IH]; intros sys H; simpl in H.
  - simplify_eq. simpl. lia.
  - simpl. destruct (step e sys) as [sys1|] eqn:E; [|done].
    rewrite (IH _ H), (step_counter _ _ _ E). lia.
Qed.

Lemma request_counter_never_decreases_witness :
  ttsRequestId (world beforeLateResponse)
  = ttsRequestId (world nextPageRequested)
    + counterWrites secondPageFirst nextPageRequested
  ∧ ttsRequestId (world nextPageRequested)
    ≤ ttsRequestId (world beforeLateResponse).
Proof.
  apply (request_counter_never_decreases secondPageFirst).
  vm_compute. reflexivity.
Defined.

(** X2.  The state cell [sound] and the ref [soundRef.current] always
    hold the same sound: in every reachable state they are both null or
    both the same [Audio.Sound]. *)
Theorem sound_cell_agrees_with_ref (sys : System) :
  reachable sys → sound (world sys) = soundRef (world sys).
Proof.
  apply (world_invariant (fun w => sound w = soundRef w)); [| |done].
  - intros p o w r H Hw. resume_cases p o H; congruence.
  - intros e w w' ps H Hw. handle_cases e H; congruence.
Qed.

Lemma sound_cell_agrees_with_ref_witness :
  sound (world afterTwoLoads) = soundRef (world afterTwoLoads).
Proof.
  apply sound_cell_agrees_with_ref. exists twoLoads. vm_compute. reflexivity.
Defined.

(** ** What is shown and what is sent *)

Lemma orElse_truthy x fallback :
  truthy fallback = true → truthy (orElse x fallback) = true.
Proof. intros H. destruct x as [s|]; simpl; [|done]. by destruct (truthy s) eqn:E. Qed.

Lemma presentable_resume p o w r :
  resume p o w = Some r → presentable w → presentable (after r).
Proof.
  unfold presentable. intros H (Htext & Hlang & Hlog).
  resume_cases p o H; rewrite ?Forall_app;
    repeat match goal with
      | |- _ ∧ _ => split
      | |- Forall _ [_] => apply Forall_singleton
      end;
    simpl; try done; auto using orElse_truthy;
    try intros _;
    repeat match goal with
      | Ht : truthy _ = true |- _ => rewrite Ht; clear Ht
      end;
    simpl; split_and?; auto using orElse_truthy.
Qed.

Lemma presentable_handle e w w' ps :
  handle e w = Some (w', ps) → presentable w → presentable w'.
Proof.
  unfold presentable. intros H (Htext & Hlang & Hlog).
  handle_cases e H; rewrite ?Forall_app;
    repeat match goal with
      | |- _ ∧ _ => split
      | |- Forall _ [_] => apply Forall_singleton
      end;
    simpl; try done; try (intros; congruence); split_and?; auto.
  apply Htext. unfold retryRendered in *. by destruct (screen w).
Qed.

(** X3.  The player screen never shows a blank text, and no blank text
    is ever sent for synthesis: in every reachable state, if the player
    screen is up then [extractedText] is neither empty nor white space
    only, [detectedLanguage] is not empty, every synthesis request sent
    so far carried a text that is not blank, a language that is not
    empty, the voice ['warm'] and the speed 1, and every extraction
    request left the language to the server (['auto']). *)
Theorem no_blank_text_is_shown_or_sent (sys : System) :
  reachable sys →
  (screen (world sys) = player →
   truthy (extractedText (world sys)) = true
   ∧ ¬ whitespaceOnly (extractedText (world sys)))
  ∧ truthy (detectedLanguage (world sys)) = true
  ∧ Forall wellFormed (log (world sys)).
Proof.
  intros Hsys.
  assert (presentable (world sys)) as (Htext & Hlang & Hlog).
  { revert sys Hsys. apply (world_invariant presentable).
    - apply presentable_resume.
    - apply presentable_handle.
    - unfold presentable. split_and!; [done|done|].
      vm_compute. by repeat constructor. }
  split_and!; try done.
  intros Hp. specialize (Htext Hp). split.
  - simpl in Htext. by destruct (truthy (extractedText (world sys))).
  - intros Hws.
    assert (noText (Some (extractedText (world sys))) = true) as Hyes.
    { apply noText_spec. right. by eexists. }
    congruence.
Qed.

Lemma no_blank_text_is_shown_or_sent_witness :
  (screen (world audioLoaded) = player →
   truthy (extractedText (world audioLoaded)) = true
   ∧ ¬ whitespaceOnly (extractedText (world audioLoaded)))
  ∧ truthy (detectedLanguage (world audioLoaded)) = true
  ∧ Forall wellFormed (log (world audioLoaded)).
Proof.
  apply no_blank_text_is_shown_or_sent.
  exists (firstPageShown
            ++ [Settle 2 (Resolved (VResponse true)); Settle 2 lateResponse;
                Settle 2 settledOk; Settle 2 settledOk; Settle 2 settledOk;
                Settle 2 (Resolved VSound); Settle 2 settledOk]).
  vm_compute. reflexivity.
Defined.

(** ** Invariants of the cells and the functions in flight *)

Lemma settled_lookup_spawned pid r sys i x :
  pool (settled pid r sys) !! i = Some x →
  length (pool sys) ≤ i →
  ∃ g, x = Some g ∧ spawned r !! (i - length (pool sys)) = Some g.
Proof.
  simpl. intros [H|[_ H]]%lookup_app_Some Hi.
  - apply lookup_lt_Some in H. rewrite length_insert in H. lia.
  - rewrite length_insert in H.
    apply list_lookup_fmap_Some in H as (g & ? & Hg). eauto.
Qed.

Lemma started_lookup_spawned w ps sys i x :
  pool (started w ps sys) !! i = Some x →
  length (pool sys) ≤ i →
  ∃ g, x = Some g ∧ ps !! (i - length (pool sys)) = Some g.
Proof.
  simpl. intros [H|[_ H]]%lookup_app_Some Hi.
  - apply lookup_lt_Some in H. lia.
  - apply list_lookup_fmap_Some in H as (g & ? & Hg). eauto.
Qed.

Lemma settled_lookup_new pid r sys g :
  spawned r = [g] →
  pool (settled pid r sys) !! length (pool sys) = Some (Some g).
Proof.
  intros H. simpl. rewrite H. apply lookup_app_Some. right.
  rewrite length_insert. split; [lia|]. by rewrite Nat.sub_diag.
Qed.

Lemma started_lookup_new w g sys :
  pool (started w [g] sys) !! length (pool sys) = Some (Some g).
Proof.
  simpl. apply lookup_app_Some. right. split; [lia|].
  by rewrite Nat.sub_diag.
Qed.

Lemma singleton_lookup {A} (g x : A) i : [g] !! i = Some x → i = 0 ∧ x = g.
Proof. destruct i as [|[|i]]; simpl; intros; by simplify_eq. Qed.

Lemma resume_request_next p o w r p' rid :
  resume p o w = Some r → next r = Some p' →
  requestOf p' = Some rid → requestOf p = Some rid.
Proof. intros H Hn Hp'. resume_cases p o H; done. Qed.

Lemma resume_request_spawned p o w r :
  resume p o w = Some r →
  spawned r = []
  ∨ ∃ g, spawned r = [g] ∧ next r = None
         ∧ requestOf g = Some (ttsRequestId (after r))
         ∧ ttsRequestId w < ttsRequestId (after r).
Proof.
  intros H. resume_cases p o H; first [by left|right].
  eexists. split_and!; [done..|lia].
Qed.

Lemma handle_request_spawned e w w' ps :
  handle e w = Some (w', ps) →
  ps = []
  ∨ ∃ g, ps = [g]
         ∧ (requestOf g = None
            ∨ requestOf g = Some (ttsRequestId w')
              ∧ ttsRequestId w < ttsRequestId w').
Proof.
  intros H. handle_cases e H; first [by left|right];
    eexists; (split; [done|]); first [by left|right; split; [done|lia]].
Qed.

Lemma requestsDistinct_step e sys sys' :
  requestsDistinct sys → step e sys = Some sys' → requestsDistinct sys'.
Proof.
  intros [Hle Hdis] Hstep.
  pose proof (step_epoch_mono _ _ _ Hstep) as Hmono.
  apply step_inv in Hstep
    as [(pid & o & p & r & -> & Hp & Hr & ->)|(w & ps & Hh & ->)].
  - assert (∀ i q rid,
              pool (settled pid r sys) !! i = Some (Some q) →
              requestOf q = Some rid →
              (i < length (pool sys) ∧ rid ≤ ttsRequestId (world sys)
               ∧ ∃ q0, pool sys !! i = Some (Some q0)
                       ∧ requestOf q0 = Some rid)
              ∨ (i = length (pool sys) ∧ spawned r = [q]
                 ∧ ttsRequestId (world sys) < rid
                 ∧ rid = ttsRequestId (after r))) as Hcase.
    { intros i q rid Hq Hrid.
      destruct (decide (i < length (pool sys))) as [Hlt|Hge].
      - left. split; [done|]. simpl in Hq.
        rewrite lookup_app_l in Hq by (by rewrite length_insert).
        apply list_lookup_insert_Some in Hq as [(-> & Hn & _)|[Hne Hq]].
        + pose proof (resume_request_next _ _ _ _ _ _ Hr Hn Hrid).
          split; [by eapply Hle|]. by exists p.
        + split; [by eapply Hle|]. by exists q.
      - right.
        apply settled_lookup_spawned in Hq as (g & [= <-] & Hg); [|lia].
        destruct (resume_request_spawned _ _ _ _ Hr)
          as [Hnil|(g' & Hsp & Hn & Hg' & Hlt')].
        + by rewrite Hnil in Hg.
        + rewrite Hsp in Hg. apply singleton_lookup in Hg as [Hi ->].
          rewrite Hrid in Hg'. simplify_eq.
          split_and!; [lia|done|done|done]. }
    split.
    + intros i q rid Hq Hrid.
      destruct (Hcase _ _ _ Hq Hrid) as [(_ & Hle' & _)|(_ & _ & _ & ->)];
        simpl in *; lia.
    + intros i j q1 q2 rid Hq1 Hq2 Hr1 Hr2.
      destruct (Hcase _ _ _ Hq1 Hr1)
        as [(Hi & Hle1 & q1' & Hl1 & Hr1')|(Hi & _ & Hgt1 & _)],
         (Hcase _ _ _ Hq2 Hr2)
        as [(Hj & Hle2 & q2' & Hl2 & Hr2')|(Hj & _ & Hgt2 & _)];
        try lia.
      by eapply Hdis.
  - assert (∀ i q rid,
              pool (started w ps sys) !! i = Some (Some q) →
              requestOf q = Some rid →
              (i < length (pool sys) ∧ rid ≤ ttsRequestId (world sys)
               ∧ pool sys !! i = Some (Some q))
              ∨ (i = length (pool sys)
                 ∧ ttsRequestId (world sys) < rid
                 ∧ rid = ttsRequestId w)) as Hcase.
    { intros i q rid Hq Hrid.
      destruct (decide (i < length (pool sys))) as [Hlt|Hge].
      - left. split; [done|]. simpl in Hq.
        rewrite lookup_app_l in Hq by done.
        split; [by eapply Hle|done].
      - right.
        apply started_lookup_spawned in Hq as (g & [= <-] & Hg); [|lia].
        destruct (handle_request_spawned _ _ _ _ Hh)
          as [->|(g' & -> & Hg')]; [done|].
        apply singleton_lookup in Hg as [Hi ->].
        destruct Hg' as [Hnone|[Hsome Hlt']]; [congruence|].
        rewrite Hrid in Hsome. simplify_eq. split_and!; [lia|done|done]. }
    split.
    + intros i q rid Hq Hrid.
      destruct (Hcase _ _ _ Hq Hrid) as [(_ & Hle' & _)|(_ & _ & ->)];
        simpl in *; lia.
    + intros i j q1 q2 rid Hq1 Hq2 Hr1 Hr2.
      destruct (Hcase _ _ _ Hq1 Hr1) as [(Hi & Hle1 & Hl1)|(Hi & Hgt1 & _)],
               (Hcase _ _ _ Hq2 Hr2) as [(Hj & Hle2 & Hl2)|(Hj & Hgt2 & _)];
        try lia.
      by eapply Hdis.
Qed.

Lemma requestsDistinct_reachable sys : reachable sys → requestsDistinct sys.
Proof.
  intros [es H]. eapply (run_invariant requestsDistinct); [..|exact H].
  - apply requestsDistinct_step.
  - split.
    + intros [|[|?]] p rid Hp Hrid; by simplify_eq/=.
    + intros [|[|?]] j p q rid Hp Hq Hrid; by simplify_eq/=.
Qed.

(** X4.  Of the [generateAudio] calls in flight, at whatever await they
    are, no two carry the same request id; so at most one of them carries
    the current value of [ttsRequestId.current], and every other one
    carries a smaller id. *)
Theorem at_most_one_current_request
    (sys : System) (i j : nat) (p q : Proc) (rid rid' : nat) :
  reachable sys →
  pool sys !! i = Some (Some p) → requestOf p = Some rid →
  pool sys !! j = Some (Some q) → requestOf q = Some rid' →
  rid ≤ ttsRequestId (world sys)
  ∧ (rid = rid' → i = j)
  ∧ (i ≠ j → rid = ttsRequestId (world sys) →
     rid' < ttsRequestId (world sys)).
Proof.
  intros Hsys Hp Hrid Hq Hrid'.
  destruct (requestsDistinct_reachable _ Hsys) as [Hle Hdis].
  split_and!.
  - exact (Hle _ _ _ Hp Hrid).
  - intros <-. exact (Hdis _ _ _ _ _ Hp Hq Hrid Hrid').
  - intros Hne Hcur. pose proof (Hle _ _ _ Hq Hrid').
    destruct (decide (rid' = ttsRequestId (world sys))) as [Heq|]; [|lia].
    exfalso. apply Hne. eapply Hdis; [exact Hp|exact Hq|done|congruence].
Qed.

Lemma at_most_one_current_request_witness :
  5 ≤ ttsRequestId (world beforeLateResponse)
  ∧ (5 = 2 → 5 = 2)
  ∧ (5 ≠ 2 → 5 = ttsRequestId (world beforeLateResponse) →
     2 < ttsRequestId (world beforeLateResponse)).
Proof.
  apply (at_most_one_current_request beforeLateResponse 5 2
           (GenerateAudio_resultJson 5) (GenerateAudio_resultJson 2) 5 2).
  - exists (firstPageShown ++ [PressTakeAnother; Settle 3 settledOk]
              ++ secondPageFirst).
    vm_compute. reflexivity.
  - reflexivity.
  - reflexivity.
  - reflexivity.
  - reflexivity.
Defined.

(** ** The progress texts are backed by a function in flight *)

Lemma resume_generating p o w r :
  resume p o w = Some r → isGeneratingAudio (after r) = true →
  (∃ g, spawned r = [g] ∧ requestOf g = Some (ttsRequestId (after r)))
  ∨ (isGeneratingAudio w = true
     ∧ ttsRequestId (after r) = ttsRequestId w
     ∧ (requestOf p = Some (ttsRequestId w) →
        ∃ p', next r = Some p' ∧ requestOf p' = Some (ttsRequestId w))).
Proof.
  intros H Hg.
  resume_cases p o H;
    first
      [ by left; eexists
      | right; split_and!; [done..|];
        intros; simplify_eq/=; first [congruence|by eexists] ].
Qed.

Lemma handle_generating e w w' ps :
  handle e w = Some (w', ps) → isGeneratingAudio w' = true →
  (∃ g, ps = [g] ∧ requestOf g = Some (ttsRequestId w'))
  ∨ (isGeneratingAudio w = true ∧ ttsRequestId w' = ttsRequestId w).
Proof.
  intros H Hg.
  handle_cases e H; first [by left; eexists|by right].
Qed.

Lemma generatingBacked_step e sys sys' :
  generatingBacked sys → step e sys = Some sys' → generatingBacked sys'.
Proof.
  unfold generatingBacked. intros IH Hstep Hflag.
  apply step_inv in Hstep
    as [(pid & o & p & r & -> & Hp & Hr & ->)|(w & ps & Hh & ->)].
  - destruct (resume_generating _ _ _ _ Hr Hflag)
      as [(g & Hsp & Hg)|(Hold & Heq & Hnext)].
    + exists (length (pool sys)), g. split; [|done].
      by apply settled_lookup_new.
    + destruct (IH Hold) as (pid1 & p1 & Hp1 & Hr1).
      simpl. rewrite Heq.
      destruct (decide (pid1 = pid)) as [->|Hne].
      * rewrite Hp in Hp1. simplify_eq.
        destruct (Hnext Hr1) as (p' & Hn & Hp').
        exists pid, p'. split; [|done].
        rewrite <- Hn. by eapply (settled_lookup_same pid r sys).
      * exists pid1, p1. split; [|done].
        by apply (settled_lookup_other pid r sys).
  - destruct (handle_generating _ _ _ _ Hh Hflag)
      as [(g & -> & Hg)|(Hold & Heq)].
    + exists (length (pool sys)), g. split; [|done].
      apply started_lookup_new.
    + destruct (IH Hold) as (pid1 & p1 & Hp1 & Hr1).
      exists pid1, p1. simpl. rewrite Heq. split; [|done].
      by apply (started_lookup_old w ps sys).
Qed.

(** X5.  "Generating audio..." is never left on: in every reachable
    state in which [isGeneratingAudio] is set, a [generateAudio] call
    that carries the current request id is still in flight, so its
    [finally] block is still to run. *)
Theorem generating_audio_is_backed_by_the_current_request (sys : System) :
  reachable sys →
  isGeneratingAudio (world sys) = true →
  ∃ pid p,
    pool sys !! pid = Some (Some p)
    ∧ requestOf p = Some (ttsRequestId (world sys)).
Proof.
  intros [es H].
  eapply (run_invariant generatingBacked); [..|exact H].
  - apply generatingBacked_step.
  - intros Hflag. vm_compute in Hflag. done.
Qed.

Lemma generating_audio_is_backed_by_the_current_request_witness :
  ∃ pid p,
    pool beforeLateResponse !! pid = Some (Some p)
    ∧ requestOf p = Some (ttsRequestId (world beforeLateResponse)).
Proof.
  apply generating_audio_is_backed_by_the_current_request.
  - exists (firstPageShown ++ [PressTakeAnother; Settle 3 settledOk]
              ++ secondPageFirst).
    vm_compute. reflexivity.
  - vm_compute. reflexivity.
Defined.

Lemma resume_checking p o w r :
  resume p o w = Some r → serverStatus (after r) = checking →
  serverStatus w = checking ∧ p ≠ CheckServer_fetch.
Proof. intros H Hc. resume_cases p o H; done. Qed.

Lemma handle_checking e w w' ps :
  handle e w = Some (w', ps) → serverStatus w' = checking →
  ps = [CheckServer_fetch] ∨ serverStatus w = checking.
Proof.
  intros H Hc.
  handle_cases e H; first [by left|by right|congruence].
Qed.

Lemma checkingBacked_step e sys sys' :
  checkingBacked sys → step e sys = Some sys' → checkingBacked sys'.
Proof.
  unfold checkingBacked. intros IH Hstep Hc.
  apply step_inv in Hstep
    as [(pid & o & p & r & -> & Hp & Hr & ->)|(w & ps & Hh & ->)].
  - destruct (resume_checking _ _ _ _ Hr Hc) as (Hold & Hne).
    destruct (IH Hold) as (pid1 & Hp1).
    exists pid1. apply (settled_lookup_other pid r sys); [|done].
    intros ->. congruence.
  - destruct (handle_checking _ _ _ _ Hh Hc) as [->|Hold].
    + exists (length (pool sys)). apply started_lookup_new.
    + destruct (IH Hold) as (pid1 & Hp1).
      exists pid1. by apply (started_lookup_old w ps sys).
Qed.

(** X6.  "Connecting..." is never left on: in every reachable state in
    which [serverStatus] is ['checking'], a [checkServer] call is still
    waiting for its [fetch], and whatever that settles to ends the
    state. *)
Theorem connecting_is_backed_by_a_health_check (sys : System) :
  reachable sys →
  serverStatus (world sys) = checking →
  ∃ pid, pool sys !! pid = Some (Some CheckServer_fetch).
Proof.
  intros [es H].
  eapply (run_invariant checkingBacked); [..|exact H].
  - apply checkingBacked_step.
  - intros _. by exists 0.
Qed.

Lemma connecting_is_backed_by_a_health_check_witness :
  ∃ pid, pool mounted !! pid = Some (Some CheckServer_fetch).
Proof.
  apply connecting_is_backed_by_a_health_check.
  - exists []. reflexivity.
  - reflexivity.
Defined.

(** ** The loading overlay *)

Lemma captures_lookup l i x : l !! i = Some x → weight x ≤ captures l.
Proof.
  revert i. induction l as [|y l IH]; intros [|i] H; simplify_eq/=;
    rewrite captures_cons; [lia|]. specialize (IH _ H). lia.
Qed.

Lemma captures_two l i j x y :
  l !! i = Some x → l !! j = Some y → i ≠ j →
  weight x + weight y ≤ captures l.
Proof.
  revert i j. induction l as [|z l IH]; intros [|i] [|j] Hi Hj Hne;
    simplify_eq/=; rewrite captures_cons.
  - apply captures_lookup in Hj. lia.
  - apply captures_lookup in Hi. lia.
  - assert (i ≠ j) as Hne' by congruence.
    specialize (IH _ _ Hi Hj Hne'). lia.
Qed.

Lemma weight_inCapture p : inCapture p = true → weight (Some p) = 1.
Proof. unfold weight. simpl. by intros ->. Qed.

Lemma resume_overlay p o w r :
  resume p o w = Some r →
  (inCapture p = true →
   isProcessing w = true ∧ stageText p = Some (loadingText w)) →
  (isProcessing w = false → loadingText w = []) →
  (isProcessing (after r) = false → loadingText (after r) = [])
  ∧ (∀ q, next r = Some q → inCapture q = true →
          stageText q = Some (loadingText (after r)))
  ∧ (inCapture p = false →
     loadingText (after r) = loadingText w
     ∧ isProcessing (after r) = isProcessing w)
  ∧ (∀ g, g ∈ spawned r → inCapture g = false).
Proof.
  intros H Hcap Hidle.
  resume_cases p o H;
    try (destruct Hcap as [Hproc Hstage]; [done|]);
    simplify_eq/=;
    (split_and!;
     [ try done; auto
     | intros q ? ?; simplify_eq/=; try done; auto
     | try done; auto
     | intros g Hg;
       repeat match goal with
         | Hg : _ ∈ [] |- _ => by apply elem_of_nil in Hg
         | Hg : _ ∈ [_] |- _ => apply list_elem_of_singleton in Hg; subst
         end; try done ]);
    try (by apply Hcap); intros; congruence.
Qed.

Lemma handle_overlay e w w' ps :
  handle e w = Some (w', ps) →
  (loadingText w' = loadingText w ∧ isProcessing w' = isProcessing w
   ∧ ∀ g, g ∈ ps → inCapture g = false)
  ∨ (isProcessing w = false ∧ isProcessing w' = true
     ∧ loadingText w' = str "Capturing..."
     ∧ ∃ g, ps = [g] ∧ inCapture g = true
            ∧ stageText g = Some (str "Capturing...")).
Proof.
  intros H.
  handle_cases e H;
    first
      [ by right; split_and!; [done..|eexists]
      | left; split_and!; [done..|];
        intros g Hg;
        repeat match goal with
          | Hg : _ ∈ [] |- _ => by apply elem_of_nil in Hg
          | Hg : _ ∈ [_] |- _ => apply list_elem_of_singleton in Hg; subst
          end; done ].
Qed.

Lemma overlayLabelled_step e sys sys' :
  overlayLabelled sys → step e sys = Some sys' → overlayLabelled sys'.
Proof.
  intros (Hone & Hidle & Hstage) Hstep.
  split; [by eapply oneCapture_step|].
  assert (∀ i q, pool sys !! i = Some (Some q) → inCapture q = true →
                 isProcessing (world sys) = true) as Hbusy.
  { intros i q Hq Hin. apply captures_lookup in Hq.
    rewrite (weight_inCapture _ Hin) in Hq. unfold oneCapture in Hone.
    unfold capturesInFlight in Hone.
    destruct (isProcessing (world sys)); [done|lia]. }
  assert (∀ i j q1 q2, pool sys !! i = Some (Some q1) →
                       pool sys !! j = Some (Some q2) →
                       inCapture q1 = true → inCapture q2 = true →
                       i = j) as Huniq.
  { intros i j q1 q2 Hq1 Hq2 Hin1 Hin2.
    destruct (decide (i = j)) as [|Hne]; [done|exfalso].
    pose proof (captures_two _ _ _ _ _ Hq1 Hq2 Hne) as Hle.
    rewrite !weight_inCapture in Hle by done.
    unfold oneCapture, capturesInFlight in Hone.
    destruct (isProcessing (world sys)); lia. }
  apply step_inv in Hstep
    as [(pid & o & p & r & -> & Hp & Hr & ->)|(w & ps & Hh & ->)].
  - destruct (resume_overlay _ _ _ _ Hr) as (Hidle' & Hnext & Hother & Hsp).
    { intros Hin. split; [by eapply Hbusy|by eapply Hstage]. }
    { done. }
    split; [done|].
    intros i q Hq Hin. change (world (settled pid r sys)) with (after r).
    apply settled_lookup in Hq as [[-> Hn]|[[Hne Hold]|(g & [= <-] & Hg)]].
    + by apply Hnext.
    + destruct (inCapture p) eqn:Hinp.
      * exfalso. apply Hne. by eapply Huniq.
      * destruct (Hother eq_refl) as [-> _]. by eapply Hstage.
    + rewrite (Hsp _ Hg) in Hin. done.
  - destruct (handle_overlay _ _ _ _ Hh)
      as [(Htext & Hproc & Hps)|(Hfree & Hproc & Htext & g & -> & Hg & Hgt)];
      simpl.
    + rewrite Htext, Hproc. split; [done|].
      intros i q Hq Hin.
      apply (started_lookup w ps sys) in Hq as [Hold|(g & [= <-] & Hg)].
      * by eapply Hstage.
      * rewrite (Hps _ Hg) in Hin. done.
    + rewrite Htext, Hproc. split; [done|].
      intros i q Hq Hin.
      apply (started_lookup w [g] sys) in Hq as [Hold|(g' & [= <-] & Hg')].
      * pose proof (Hbusy _ _ Hold Hin). congruence.
      * apply list_elem_of_singleton in Hg'. by subst.
Qed.

(** X7.  The loading overlay names the stage of the capture: in every
    reachable state, while no capture is processed the loading text is
    empty, and a [handleCapture] in flight finds in [loadingText] the
    text of the await it is at, 'Capturing...' up to the photo,
    'Processing image...' while the image is resized and read, and
    'Extracting text...' during the exchange with the server. *)
Theorem loading_text_names_the_stage (sys : System) :
  reachable sys →
  (isProcessing (world sys) = false → loadingText (world sys) = [])
  ∧ (∀ pid p,
       pool sys !! pid = Some (Some p) → inCapture p = true →
       isProcessing (world sys) = true
       ∧ stageText p = Some (loadingText (world sys))).
Proof.
  intros [es H].
  assert (overlayLabelled sys) as (Hone & Hidle & Hstage).
  { eapply (run_invariant overlayLabelled); [..|exact H].
    - apply overlayLabelled_step.
    - split_and!; [reflexivity|done|].
      intros [|[|?]] p Hp Hin; by simplify_eq/=. }
  split; [done|]. intros pid p Hp Hin. split; [|by eapply Hstage].
  apply captures_lookup in Hp. rewrite (weight_inCapture _ Hin) in Hp.
  unfold oneCapture, capturesInFlight in Hone.
  destruct (isProcessing (world sys)); [done|lia].
Qed.

Lemma loading_text_names_the_stage_witness :
  (isProcessing (world extracting) = false → loadingText (world extracting) = [])
  ∧ (∀ pid p,
       pool extracting !! pid = Some (Some p) → inCapture p = true →
       isProcessing (world extracting) = true
       ∧ stageText p = Some (loadingText (world extracting))).
Proof.
  apply loading_text_names_the_stage.
  exists (toCamera
            ++ [PressCapture; Settle 1 settledOk;
                Settle 1 (Resolved (VPhoto (Some (str "file:///photo.jpg"))));
                Settle 1 (Resolved (VManipulated (str "file:///small.jpg")));
                Settle 1 (Resolved (VString (str "/9j/4AAQ")));
                Settle 1 (Resolved (VResponse true))]).
  vm_compute. reflexivity.
Defined.

(** ** Leaving a page *)

Lemma handle_cleanup e w w' ps :
  handle e w = Some (w', ps) → callsCleanupSound e w = true →
  ttsRequestId w' = S (ttsRequestId w)
  ∧ isGeneratingAudio w' = false ∧ audioReady w' = false
  ∧ ttsError w' = None
  ∧ ∀ g, g ∈ ps → requestOf g = None.
Proof.
  intros H Hc.
  handle_cases e H; try discriminate Hc;
    try match goal with
      | H1 : negb (cameraRefCurrent ?w) || isProcessing ?w = true,
        H2 : cameraRefCurrent ?w = true,
        H3 : isProcessing ?w = false |- _ =>
          rewrite H2, H3 in H1; discriminate H1
      end;
    (split_and!; [lia|done..|]);
    intros g Hg;
    repeat match goal with
      | Hg : _ ∈ [] |- _ => by apply elem_of_nil in Hg
      | Hg : _ ∈ [_] |- _ => apply list_elem_of_singleton in Hg; subst
      end; done.
Qed.

(** X8.  Leaving a page supersedes every synthesis in flight: after
    "Home", "Take Another Photo" or a capture that passes its guard, the
    counter is one more than before, the synthesis cells are reset
    ([isGeneratingAudio] and [audioReady] false, [ttsError] null), and
    every [generateAudio] still in flight carries an id below the
    counter. *)
Theorem leaving_a_page_supersedes_every_request
    (e : Event) (sys sys' : System) :
  reachable sys →
  callsCleanupSound e (world sys) = true →
  step e sys = Some sys' →
  ttsRequestId (world sys') = S (ttsRequestId (world sys))
  ∧ isGeneratingAudio (world sys') = false
  ∧ audioReady (world sys') = false
  ∧ ttsError (world sys') = None
  ∧ ∀ pid p rid,
      pool sys' !! pid = Some (Some p) → requestOf p = Some rid →
      rid < ttsRequestId (world sys').
Proof.
  intros Hsys Hc Hstep.
  destruct (requestsDistinct_reachable _ Hsys) as [Hle _].
  apply step_inv in Hstep
    as [(pid & o & p & r & -> & _ & _ & _)|(w & ps & Hh & ->)]; [done|].
  destruct (handle_cleanup _ _ _ _ Hh Hc) as (He & Hg & Ha & Ht & Hps).
  simpl. split_and!; try done.
  intros pid p rid Hp Hrid.
  apply (started_lookup w ps sys) in Hp as [Hold|(g & [= <-] & Hg')].
  - pose proof (Hle _ _ _ Hold Hrid). lia.
  - rewrite (Hps _ Hg') in Hrid. done.
Qed.

Lemma leaving_a_page_supersedes_every_request_witness :
  ttsRequestId (world pageOneLeft) = S (ttsRequestId (world pageOneShown))
  ∧ isGeneratingAudio (world pageOneLeft) = false
  ∧ audioReady (world pageOneLeft) = false
  ∧ ttsError (world pageOneLeft) = None
  ∧ ∀ pid p rid,
      pool pageOneLeft !! pid = Some (Some p) → requestOf p = Some rid →
      rid < ttsRequestId (world pageOneLeft).
Proof.
  apply (leaving_a_page_supersedes_every_request PressTakeAnother
           pageOneShown).
  - exists firstPageShown. vm_compute. reflexivity.
  - reflexivity.
  - vm_compute. reflexivity.
Defined.

(** ** How a capture ends *)

Lemma alerts_emit a w :
  alerts (emit a w) = alerts w + (if isAlert a then 1 else 0).
Proof.
  unfold alerts. simpl. rewrite filter_app, length_app. f_equal.
  by destruct a.
Qed.

Lemma resume_capture_alerts p o w r p' :
  resume p o w = Some r → inCapture p = true → next r = Some p' →
  alerts (after r) = alerts w.
Proof.
  intros H Hin Hn.
  resume_cases p o H; unfold alerts; simpl;
    rewrite ?filter_app, ?length_app; simpl; lia.
Qed.

Lemma resume_capture_ends p o w r :
  resume p o w = Some r → inCapture p = true → next r = None →
  isProcessing (after r) = false ∧ loadingText (after r) = []
  ∧ (captureFailed w r ∨ captureShown w r).
Proof.
  intros H Hin Hn. unfold captureFailed, captureShown.
  resume_cases p o H;
    (split_and!; [done..|]);
    unfold alerts; simpl; rewrite ?filter_app, ?length_app; simpl;
    first
      [ left; split_and!; [lia|done..]
      | right; split_and!; [lia|done| |done|f_equal; f_equal; lia|lia] ].
  match goal with
  | Ha : truthy ?t = true, Hb : truthy (trim ?t) = true |- _ =>
      by rewrite Ha, Hb
  end.
Qed.

Lemma drive_capture_ends os r r' p :
  next r = Some p → inCapture p = true → spawned r = [] →
  drive os r = Some r' → next r' = None →
  isProcessing (after r') = false ∧ loadingText (after r') = []
  ∧ (captureFailed (after r) r' ∨ captureShown (after r) r').
Proof.
  revert r p. induction os as [|o os IH]; intros r p Hn Hin Hsp Hd Hend.
  - simpl in Hd. by simplify_eq.
  - simpl in Hd. rewrite Hn in Hd.
    destruct (resume p o (after r)) as [r1|] eqn:Hr; [|done].
    destruct (next r1) as [p1|] eqn:Hn1.
    + destruct (resume_capture_continues _ _ _ _ _ Hr Hin Hn1)
        as (Hf & Hsp1 & Hin1 & _).
      pose proof (resume_capture_alerts _ _ _ _ _ Hr Hin Hn1) as Hal.
      destruct
        (IH {| after := after r1; next := Some p1;
               spawned := spawned r ++ spawned r1 |}
            p1 eq_refl Hin1 ltac:(by rewrite Hsp, Hsp1) Hd Hend)
        as (Hproc & Htext & Hcase).
      split_and!; [done..|].
      destruct Hf as (F1 & F2 & F3 & F4 & F5 & F6 & F7 & F8 & F9).
      unfold captureFailed, captureShown in *. simpl in *.
      destruct Hcase as [(A & B & C & D & E & F)|(A & B & C & D & E & F)];
        [left|right]; split_and!; congruence.
    + destruct os; simpl in Hd; simplify_eq/=.
      destruct (resume_capture_ends _ _ _ _ Hr Hin Hn1)
        as (Hproc & Htext & Hcase).
      split_and!; [done..|].
      unfold captureFailed, captureShown in *. simpl. by rewrite Hsp.
Qed.

(** X9.  However its awaits settle, a [handleCapture] that has passed
    its guard and has run to its end has cleared [isProcessing] and
    [loadingText], and has ended in exactly one of two ways.  Either it
    has raised one alert, has started nothing and has left [screen],
    [extractedText] and [detectedLanguage] as they were; or it has raised
    no alert, the player screen is up with a text that is not blank, and
    the one function it has started is the [generateAudio] under the
    current request id, with [isGeneratingAudio] set. *)
Theorem a_capture_ends_with_one_alert_or_the_player
    (w : World) (os : list Outcome) (r : Ran) :
  cameraRefCurrent w = true →
  isProcessing w = false →
  drive os (handleCapture_called w) = Some r →
  next r = None →
  isProcessing (after r) = false ∧ loadingText (after r) = []
  ∧ (alerts (after r) = S (alerts w) ∧ spawned r = []
     ∧ screen (after r) = screen w
     ∧ extractedText (after r) = extractedText w
     ∧ detectedLanguage (after r) = detectedLanguage w
     ∨ alerts (after r) = alerts w
       ∧ screen (after r) = player
       ∧ noText (Some (extractedText (after r))) = false
       ∧ isGeneratingAudio (after r) = true
       ∧ spawned r = [GenerateAudio_fetch (ttsRequestId (after r))]).
Proof.
  intros Hcam Hidle Hd Hend.
  assert (∃ p0, next (handleCapture_called w) = Some p0
                ∧ inCapture p0 = true
                ∧ spawned (handleCapture_called w) = []
                ∧ alerts (after (handleCapture_called w)) = alerts w
                ∧ screen (after (handleCapture_called w)) = screen w
                ∧ extractedText (after (handleCapture_called w))
                  = extractedText w
                ∧ detectedLanguage (after (handleCapture_called w))
                  = detectedLanguage w)
    as (p0 & Hn0 & Hin0 & Hsp0 & Hal0 & Hs0 & Ht0 & Hl0).
  { unfold handleCapture_called, handleCapture, cleanupSound, alerts.
    rewrite Hcam, Hidle. simpl.
    destruct (soundRef w) eqn:Hs; simpl; eexists;
      rewrite ?filter_app, ?length_app; simpl; split_and!; try done; lia. }
  destruct (drive_capture_ends _ _ _ _ Hn0 Hin0 Hsp0 Hd Hend)
    as (Hproc & Htext & Hcase).
  split_and!; [done..|].
  unfold captureFailed, captureShown in Hcase.
  destruct Hcase as [(A & B & C & D & E & F)|(A & B & C & D & E & F)];
    [left|right]; split_and!; congruence.
Qed.

Lemma a_capture_ends_with_one_alert_or_the_player_witness :
  isProcessing (after afterServerError) = false
  ∧ loadingText (after afterServerError) = []
  ∧ (alerts (after afterServerError) = S (alerts (world cameraOpened))
     ∧ spawned afterServerError = []
     ∧ screen (after afterServerError) = screen (world cameraOpened)
     ∧ extractedText (after afterServerError)
       = extractedText (world cameraOpened)
     ∧ detectedLanguage (after afterServerError)
       = detectedLanguage (world cameraOpened)
     ∨ alerts (after afterServerError) = alerts (world cameraOpened)
       ∧ screen (after afterServerError) = player
       ∧ noText (Some (extractedText (after afterServerError))) = false
       ∧ isGeneratingAudio (after afterServerError) = true
       ∧ spawned afterServerError
         = [GenerateAudio_fetch (ttsRequestId (after afterServerError))]).
Proof.
  apply (a_capture_ends_with_one_alert_or_the_player (world cameraOpened)
           serverError).
  - reflexivity.
  - reflexivity.
  - vm_compute. reflexivity.
  - reflexivity.
Defined.

(** ** The controls of the player screen *)

(** X10.  [goHome] run on its own, no other function being resumed
    between its awaits, ends on a clean home screen.  Whatever
    [stopAsync] and [unloadAsync] settle to, rejections included, it
    runs to its end, starts nothing, and leaves the home screen with no
    text, the language ['auto'], no sound held, the synthesis cells
    reset and the request counter one further; the sound held before,
    if any, was asked to stop and then to unload, in that order, and no
    other release was asked for.  In the event loop, whatever else is in
    flight, the resumption that ends [goHome] makes exactly the calls
    [setExtractedText('')], [setDetectedLanguage('auto')] and
    [setScreen('home')], finishes the function, and leaves the synthesis
    cells, the counter and the sound as it finds them. *)
Theorem goHome_ends_on_a_clean_home_screen
    (w : World) (o1 o2 o3 : Outcome) :
  sound w = soundRef w →
  (∃ r,
     drive (cleanupOutcomes w o1 o2 o3) (goHome_called w) = Some r
     ∧ next r = None ∧ spawned r = []
     ∧ screen (after r) = home
     ∧ extractedText (after r) = []
     ∧ detectedLanguage (after r) = str "auto"
     ∧ soundRef (after r) = None ∧ sound (after r) = None
     ∧ isGeneratingAudio (after r) = false
     ∧ audioReady (after r) = false
     ∧ ttsError (after r) = None
     ∧ ttsRequestId (after r) = S (ttsRequestId w)
     ∧ filter (fun a => releases a = true) (log (after r))
       = filter (fun a => releases a = true) (log w)
           ++ match soundRef w with
              | Some s => [StopAsync s; UnloadAsync s]
              | None => []
              end)
  ∧ (∀ sys pid o,
       pool sys !! pid = Some (Some (CleanupSound_return K_goHome)) →
       ∃ sys',
         step (Settle pid o) sys = Some sys'
         ∧ pool sys' = <[pid := None]> (pool sys)
         ∧ log (world sys')
           = log (world sys)
               ++ [SetExtractedText []; SetDetectedLanguage (str "auto");
                   SetScreen home]
         ∧ screen (world sys') = home
         ∧ extractedText (world sys') = []
         ∧ detectedLanguage (world sys') = str "auto"
         ∧ isGeneratingAudio (world sys') = isGeneratingAudio (world sys)
         ∧ audioReady (world sys') = audioReady (world sys)
         ∧ ttsError (world sys') = ttsError (world sys)
         ∧ ttsRequestId (world sys') = ttsRequestId (world sys)
         ∧ soundRef (world sys') = soundRef (world sys)
         ∧ sound (world sys') = sound (world sys)).
Proof.
  intros Hs. split.
  - unfold goHome_called, goHome, cleanupSound, cleanupOutcomes. simpl.
    destruct (soundRef w) as [s|] eqn:Hr, o2 as [v|e]; simpl;
      eexists; (split; [reflexivity|]); simpl;
      rewrite ?filter_app; simpl; rewrite ?app_nil_r, <- ?app_assoc;
      split_and!; try done; lia.
  - intros sys pid o Hp. eexists. unfold step. rewrite Hp.
    split; [by destruct o|]. simpl.
    rewrite app_nil_r, <- !app_assoc. by split_and!.
Qed.

Lemma goHome_ends_on_a_clean_home_screen_witness :
  ∃ r,
    drive
      (cleanupOutcomes (world audioLoaded)
         (Rejected ThrownValue) (Rejected ThrownValue) settledOk)
      (goHome_called (world audioLoaded)) = Some r
    ∧ next r = None ∧ spawned r = []
    ∧ screen (after r) = home
    ∧ extractedText (after r) = []
    ∧ detectedLanguage (after r) = str "auto"
    ∧ soundRef (after r) = None ∧ sound (after r) = None
    ∧ isGeneratingAudio (after r) = false
    ∧ audioReady (after r) = false
    ∧ ttsError (after r) = None
    ∧ ttsRequestId (after r) = S (ttsRequestId (world audioLoaded))
    ∧ filter (fun a => releases a = true) (log (after r))
      = filter (fun a => releases a = true) (log (world audioLoaded))
          ++ match soundRef (world audioLoaded) with
             | Some s => [StopAsync s; UnloadAsync s]
             | None => []
             end.
Proof.
  assert (sound (world audioLoaded) = soundRef (world audioLoaded)) as Hs
    by reflexivity.
  apply (proj1 (goHome_ends_on_a_clean_home_screen (world audioLoaded)
                  (Rejected ThrownValue) (Rejected ThrownValue) settledOk
                  Hs)).
Defined.

(** X11.  The handler of "Take Another Photo" run on its own, no other
    function being resumed between its awaits, keeps the page.  Whatever
    [stopAsync] and [unloadAsync] settle to, it runs to its end, starts
    nothing, and leaves the camera screen up with no sound held and the
    synthesis cells reset, while [extractedText] and [detectedLanguage]
    still hold the page that was on display.  In the event loop,
    whatever else is in flight, the resumption that ends the handler
    makes exactly one call, [setScreen('camera')], finishes the
    function, and leaves the text, the language, the synthesis cells,
    the counter and the sound as it finds them. *)
Theorem takeAnother_keeps_the_text
    (w : World) (o1 o2 o3 : Outcome) :
  sound w = soundRef w →
  (∃ r,
     drive (cleanupOutcomes w o1 o2 o3) (takeAnother_called w) = Some r
     ∧ next r = None ∧ spawned r = []
     ∧ screen (after r) = camera
     ∧ extractedText (after r) = extractedText w
     ∧ detectedLanguage (after r) = detectedLanguage w
     ∧ soundRef (after r) = None ∧ sound (after r) = None
     ∧ isGeneratingAudio (after r) = false
     ∧ audioReady (after r) = false
     ∧ ttsError (after r) = None
     ∧ ttsRequestId (after r) = S (ttsRequestId w))
  ∧ (∀ sys pid o,
       pool sys !! pid = Some (Some (CleanupSound_return K_takeAnother)) →
       ∃ sys',
         step (Settle pid o) sys = Some sys'
         ∧ pool sys' = <[pid := None]> (pool sys)
         ∧ log (world sys') = log (world sys) ++ [SetScreen camera]
         ∧ screen (world sys') = camera
         ∧ extractedText (world sys') = extractedText (world sys)
         ∧ detectedLanguage (world sys') = detectedLanguage (world sys)
         ∧ isGeneratingAudio (world sys') = isGeneratingAudio (world sys)
         ∧ audioReady (world sys') = audioReady (world sys)
         ∧ ttsError (world sys') = ttsError (world sys)
         ∧ ttsRequestId (world sys') = ttsRequestId (world sys)
         ∧ soundRef (world sys') = soundRef (world sys)
         ∧ sound (world sys') = sound (world sys)).
Proof.
  intros Hs. split.
  - unfold takeAnother_called, takeAnother, cleanupSound, cleanupOutcomes.
    simpl.
    destruct (soundRef w) as [s|] eqn:Hr, o2 as [v|e]; simpl;
      eexists; (split; [reflexivity|]); simpl;
      split_and!; try done; lia.
  - intros sys pid o Hp. eexists. unfold step. rewrite Hp.
    split; [by destruct o|]. simpl. rewrite app_nil_r. by split_and!.
Qed.

Lemma takeAnother_keeps_the_text_witness :
  ∃ r,
    drive
      (cleanupOutcomes (world audioLoaded) settledOk settledOk settledOk)
      (takeAnother_called (world audioLoaded)) = Some r
    ∧ next r = None ∧ spawned r = []
    ∧ screen (after r) = camera
    ∧ extractedText (after r) = extractedText (world audioLoaded)
    ∧ detectedLanguage (after r) = detectedLanguage (world audioLoaded)
    ∧ soundRef (after r) = None ∧ sound (after r) = None
    ∧ isGeneratingAudio (after r) = false
    ∧ audioReady (after r) = false
    ∧ ttsError (after r) = None
    ∧ ttsRequestId (after r) = S (ttsRequestId (world audioLoaded)).
Proof.
  assert (sound (world audioLoaded) = soundRef (world audioLoaded)) as Hs
    by reflexivity.
  apply (proj1 (takeAnother_keeps_the_text (world audioLoaded)
                  settledOk settledOk settledOk Hs)).
Defined.

(** X12.  [playPause] has no [try] around its awaits.  With a sound
    that is ready it calls [pauseAsync] when [isPlaying] is set and
    [playAsync] otherwise, on the sound of the state cell, and flips
    [isPlaying] only once the call has resolved; when the call is
    rejected [isPlaying] stays as it was and the rejection is left
    unhandled.  Nothing else is written. *)
Theorem playPause_flips_isPlaying_once_the_call_resolves
    (w : World) (s : Sound) (o : Outcome) :
  sound w = Some s → audioReady w = true →
  ∃ r,
    drive [o] (playPause_called w) = Some r
    ∧ next r = None ∧ spawned r = []
    ∧ sameState (with_isPlaying (isPlaying (after r)) w) (after r)
    ∧ match o with
      | Resolved _ =>
          isPlaying (after r) = negb (isPlaying w)
          ∧ log (after r)
            = log w ++ [if isPlaying w then PauseAsync s else PlayAsync s;
                        SetIsPlaying (negb (isPlaying w))]
      | Rejected e =>
          isPlaying (after r) = isPlaying w
          ∧ log (after r)
            = log w ++ [if isPlaying w then PauseAsync s else PlayAsync s;
                        UnhandledRejection e]
      end.
Proof.
  intros Hs Hready.
  unfold playPause_called, playPause, sameState. rewrite Hs, Hready. simpl.
  destruct (isPlaying w) eqn:Hp, o as [v|e]; simpl;
    eexists; (split; [reflexivity|]); simpl;
    rewrite <- ?app_assoc; by split_and!.
Qed.

Lemma playPause_flips_isPlaying_once_the_call_resolves_witness :
  ∃ r,
    drive [Rejected ThrownValue] (playPause_called (world audioLoaded))
    = Some r
    ∧ next r = None ∧ spawned r = []
    ∧ sameState
        (with_isPlaying (isPlaying (after r)) (world audioLoaded)) (after r)
    ∧ isPlaying (after r) = isPlaying (world audioLoaded)
      ∧ log (after r)
        = log (world audioLoaded)
            ++ [if isPlaying (world audioLoaded)
                then PauseAsync 0 else PlayAsync 0;
                UnhandledRejection ThrownValue].
Proof.
  apply (playPause_flips_isPlaying_once_the_call_resolves
           (world audioLoaded) 0 (Rejected ThrownValue)).
  - reflexivity.
  - reflexivity.
Defined.

(** ** From the photo to the audio *)



(** * The loading effect of [AudioPlayer] *)

Lemma effect_unmounted_step e st st' :
  AudioPlayerEffect.unmounted st →
  AudioPlayerEffect.step e st = Some st' →
  AudioPlayerEffect.unmounted st'
  ∧ AudioPlayerEffect.setSounds st' = AudioPlayerEffect.setSounds st
  ∧ AudioPlayerEffect.sound st' = AudioPlayerEffect.sound st.
Proof.
  intros [Hr Hflags] H. destruct e as [i resolved|a|]; simpl in H.
  - unfold AudioPlayerEffect.settle in H.
    destruct (AudioPlayerEffect.runs st !! i) as [r|] eqn:Hi; [|done].
    destruct (AudioPlayerEffect.pending r) as [p|] eqn:Hp; [|done].
    assert (AudioPlayerEffect.isMounted r = false) as Hm.
    { by eapply (Forall_lookup_1 _ _ _ _ Hflags). }
    unfold AudioPlayerEffect.resume, AudioPlayerEffect.catch,
      AudioPlayerEffect.setSounds, AudioPlayerEffect.unmounted in *.
    destruct resolved, p; simpl in H; rewrite ?Hm in H; simplify_eq/=;
      rewrite ?filter_app, ?length_app; simpl;
      (split_and!; [done|by apply Forall_insert|lia|done]).
  - by rewrite Hr in H.
  - by rewrite Hr in H.
Qed.

Lemma effect_unmounted_run es st st' :
  AudioPlayerEffect.unmounted st →
  AudioPlayerEffect.run es st = Some st' →
  AudioPlayerEffect.setSounds st' = AudioPlayerEffect.setSounds st
  ∧ AudioPlayerEffect.sound st' = AudioPlayerEffect.sound st.
Proof.
  revert st. induction es as [|e es IH]; intros st Hm H; simpl in H.
  - by simplify_eq.
  - destruct (AudioPlayerEffect.step e st) as [st1|] eqn:E; [|done].
    destruct (effect_unmounted_step _ _ _ Hm E) as (Hm1 & Hn1 & Hs1).
    destruct (IH _ Hm1 H) as [Hn Hs]. split; congruence.
Qed.

Lemma effect_resume_shared r p resolved st st1 p' :
  AudioPlayerEffect.resume r p resolved st = (st1, p') →
  AudioPlayerEffect.runs st1 = AudioPlayerEffect.runs st
  ∧ AudioPlayerEffect.rendered st1 = AudioPlayerEffect.rendered st.
Proof.
  unfold AudioPlayerEffect.resume, AudioPlayerEffect.catch.
  intros H.
  destruct resolved, p, (AudioPlayerEffect.isMounted r); by simplify_eq/=.
Qed.

Lemma effect_settle_inv i resolved st st' :
  AudioPlayerEffect.settle i resolved st = Some st' →
  ∃ r p st1 p',
    AudioPlayerEffect.runs st !! i = Some r
    ∧ AudioPlayerEffect.pending r = Some p
    ∧ AudioPlayerEffect.resume r p resolved st = (st1, p')
    ∧ st' = AudioPlayerEffect.with_runs
              (<[i := AudioPlayerEffect.with_pending p' r]>
                 (AudioPlayerEffect.runs st))
              st1.
Proof.
  unfold AudioPlayerEffect.settle. intros H.
  destruct (AudioPlayerEffect.runs st !! i) as [r|] eqn:Hi; [|done].
  destruct (AudioPlayerEffect.pending r) as [p|] eqn:Hp; [|done].
  destruct (AudioPlayerEffect.resume r p resolved st) as [st1 p'] eqn:Hr.
  destruct (effect_resume_shared _ _ _ _ _ _ Hr) as [Hruns _].
  simplify_eq. rewrite Hruns. by exists r, p, st1, p'.
Qed.

Lemma effect_cleanup_spec st :
  AudioPlayerEffect.rendered (AudioPlayerEffect.cleanup st)
  = AudioPlayerEffect.rendered st
  ∧ AudioPlayerEffect.runs (AudioPlayerEffect.cleanup st)
    = alter AudioPlayerEffect.unmountRun
        (length (AudioPlayerEffect.runs st) - 1) (AudioPlayerEffect.runs st)
  ∧ AudioPlayerEffect.soundRef (AudioPlayerEffect.cleanup st) = None
  ∧ AudioPlayerEffect.sound (AudioPlayerEffect.cleanup st)
    = AudioPlayerEffect.sound st
  ∧ AudioPlayerEffect.created (AudioPlayerEffect.cleanup st)
    = AudioPlayerEffect.created st
  ∧ AudioPlayerEffect.calls (AudioPlayerEffect.cleanup st)
    = AudioPlayerEffect.calls st
        ++ match AudioPlayerEffect.soundRef st with
           | Some s => [AudioPlayerEffect.UnloadAsync s]
           | None => []
           end.
Proof.
  unfold AudioPlayerEffect.cleanup. simpl.
  destruct (AudioPlayerEffect.soundRef st) eqn:Hs; simpl;
    rewrite ?app_nil_r; by split_and!.
Qed.

Lemma effect_effect_spec a st :
  AudioPlayerEffect.soundRef st = None →
  AudioPlayerEffect.rendered (AudioPlayerEffect.effect a st)
  = AudioPlayerEffect.rendered st
  ∧ AudioPlayerEffect.runs (AudioPlayerEffect.effect a st)
    = AudioPlayerEffect.runs st
        ++ [{| AudioPlayerEffect.audioBase64 := a;
               AudioPlayerEffect.isMounted := true;
               AudioPlayerEffect.pending :=
                 Some AudioPlayerEffect.SetAudioMode |}]
  ∧ AudioPlayerEffect.soundRef (AudioPlayerEffect.effect a st) = None
  ∧ AudioPlayerEffect.sound (AudioPlayerEffect.effect a st)
    = AudioPlayerEffect.sound st
  ∧ AudioPlayerEffect.created (AudioPlayerEffect.effect a st)
    = AudioPlayerEffect.created st
  ∧ AudioPlayerEffect.calls (AudioPlayerEffect.effect a st)
    = AudioPlayerEffect.calls st ++ [AudioPlayerEffect.SetAudioModeAsync].
Proof.
  intros Hs. unfold AudioPlayerEffect.effect, AudioPlayerEffect.loadAudio.
  rewrite Hs. simpl. by split_and!.
Qed.

(** In every state the component reaches, a run whose flag is still
    set is the latest run of a component that is still mounted; so
    after the unmount every flag is cleared. *)
Lemma effect_flags_step e st st' :
  (∀ i r, AudioPlayerEffect.runs st !! i = Some r →
          AudioPlayerEffect.isMounted r = true →
          AudioPlayerEffect.rendered st = true
          ∧ S i = length (AudioPlayerEffect.runs st)) →
  AudioPlayerEffect.step e st = Some st' →
  ∀ i r, AudioPlayerEffect.runs st' !! i = Some r →
         AudioPlayerEffect.isMounted r = true →
         AudioPlayerEffect.rendered st' = true
         ∧ S i = length (AudioPlayerEffect.runs st').
Proof.
  intros IH H i r Hi Hm. destruct e as [j resolved|a|]; simpl in H.
  - apply effect_settle_inv in H
      as (r0 & p & st1 & p' & Hj & Hp & Hres & ->).
    destruct (effect_resume_shared _ _ _ _ _ _ Hres) as [_ Hr].
    simpl in *. rewrite Hr, length_insert.
    apply list_lookup_insert_Some in Hi as [(-> & <- & _)|[Hne Hi]];
      by eapply IH.
  - destruct (AudioPlayerEffect.rendered st) eqn:Hr; [|done].
    destruct (last (AudioPlayerEffect.runs st)) as [r0|] eqn:Hl; [|done].
    case_bool_decide; [|done]. simplify_eq.
    destruct (effect_cleanup_spec st) as (Hc1 & Hc2 & Hc3 & _).
    destruct (effect_effect_spec a _ Hc3) as (Hr' & Hruns & _).
    rewrite Hc1, Hr in Hr'. rewrite Hc2 in Hruns.
    rewrite Hr', Hruns, length_app, length_alter. rewrite Hruns in Hi.
    split; [done|]. simpl.
    apply lookup_app_Some in Hi as [Hi|[Hge Hi]].
    + exfalso. rewrite list_lookup_alter in Hi. case_decide.
      * destruct (AudioPlayerEffect.runs st !! _); by simplify_eq/=.
      * destruct (IH _ _ Hi Hm) as [_ Hlen]. lia.
    + rewrite length_alter in Hge, Hi.
      apply lookup_lt_Some in Hi. simpl in Hi. lia.
  - destruct (AudioPlayerEffect.rendered st) eqn:Hr; [|done].
    simplify_eq. exfalso. simpl in Hi.
    destruct (effect_cleanup_spec st) as (_ & Hruns & _).
    rewrite Hruns in Hi. rewrite list_lookup_alter in Hi. case_decide.
    + destruct (AudioPlayerEffect.runs st !! _); by simplify_eq/=.
    + destruct (IH _ _ Hi Hm) as [_ Hlen]. lia.
Qed.

Lemma effect_unmounted_reachable a es st :
  AudioPlayerEffect.run es (AudioPlayerEffect.mounted a) = Some st →
  AudioPlayerEffect.rendered st = false →
  AudioPlayerEffect.unmounted st.
Proof.
  intros H Hr. split; [done|].
  assert (∀ i r, AudioPlayerEffect.runs st !! i = Some r →
                 AudioPlayerEffect.isMounted r = true →
                 AudioPlayerEffect.rendered st = true
                 ∧ S i = length (AudioPlayerEffect.runs st)) as Hflags.
  { clear Hr. revert H.
    assert (∀ i r,
              AudioPlayerEffect.runs (AudioPlayerEffect.mounted a) !! i
              = Some r →
              AudioPlayerEffect.isMounted r = true →
              AudioPlayerEffect.rendered (AudioPlayerEffect.mounted a) = true
              ∧ S i
                = length (AudioPlayerEffect.runs (AudioPlayerEffect.mounted a)))
      as Hinit.
    { intros [|[|?]] r Hi _; by simplify_eq/=. }
    revert Hinit. generalize (AudioPlayerEffect.mounted a).
    induction es as [|e es IH]; intros st0 Hinit H; simpl in H.
    - by simplify_eq.
    - destruct (AudioPlayerEffect.step e st0) as [st1|] eqn:E; [|done].
      eapply IH; [|exact H]. by eapply effect_flags_step. }
  apply Forall_lookup_2. intros i r Hi.
  destruct (AudioPlayerEffect.isMounted r) eqn:Hm; [|done].
  destruct (Hflags _ _ Hi Hm). congruence.
Qed.

(** X14.  Once the component is unmounted, no [loadAudio] calls
    [setSound].  From every state the component reaches in which it is
    unmounted, and from every state in which it is unmounted and the
    flag [isMounted] of every run of the effect is cleared, however the
    promises still pending settle, of whichever run, the number of
    [setSound] calls and the state cell [sound] stay as they are. *)
Theorem no_setSound_after_unmount
    (a : jsstring) (es0 es : list AudioPlayerEffect.Event)
    (st st' : AudioPlayerEffect.State) :
  (AudioPlayerEffect.run es0 (AudioPlayerEffect.mounted a) = Some st
   ∧ AudioPlayerEffect.rendered st = false)
  ∨ AudioPlayerEffect.unmounted st →
  AudioPlayerEffect.run es st = Some st' →
  AudioPlayerEffect.setSounds st' = AudioPlayerEffect.setSounds st
  ∧ AudioPlayerEffect.sound st' = AudioPlayerEffect.sound st.
Proof.
  intros [[Hreach Hr]|Hun] H.
  - eapply effect_unmounted_run; [|exact H].
    by eapply effect_unmounted_reachable.
  - by eapply effect_unmounted_run.
Qed.

Lemma no_setSound_after_unmount_witness :
  AudioPlayerEffect.setSounds unmountedWhileCreating
  = AudioPlayerEffect.setSounds unmountedEarly
  ∧ AudioPlayerEffect.sound unmountedWhileCreating
    = AudioPlayerEffect.sound unmountedEarly.
Proof.
  apply (no_setSound_after_unmount (str "UklGRg")
           [AudioPlayerEffect.Unmount]
           [AudioPlayerEffect.Settle 0 true; AudioPlayerEffect.Settle 0 true;
            AudioPlayerEffect.Settle 0 true; AudioPlayerEffect.Settle 0 true]).
  - left. split; [vm_compute; reflexivity|reflexivity].
  - vm_compute. reflexivity.
Defined.

Lemma effect_idle_lookup st i r :
  AudioPlayerEffect.idle st = true →
  AudioPlayerEffect.runs st !! i = Some r →
  AudioPlayerEffect.pending r = None.
Proof.
  unfold AudioPlayerEffect.idle.
  generalize (AudioPlayerEffect.runs st). intros l. revert i.
  induction l as [|x l IH]; intros [|i] Hl Hi; simplify_eq/=;
    apply andb_prop in Hl as [Hx Hl].
  - by destruct (AudioPlayerEffect.pending r).
  - by eapply IH.
Qed.

Lemma effect_last_index {A} (l : list A) i x :
  l !! i = Some x → ¬ S i < length l → last l = Some x.
Proof.
  intros Hi Hlt. pose proof (lookup_lt_Some _ _ _ Hi).
  rewrite last_lookup. by replace (Init.Nat.pred (length l)) with i by lia.
Qed.

Lemma effect_released_step e st st' :
  effectReleases st →
  (match e with
   | AudioPlayerEffect.ChangeAudio _ => AudioPlayerEffect.idle st
   | _ => true
   end = true) →
  AudioPlayerEffect.step e st = Some st' →
  effectReleases st'.
Proof.
  intros (Hall & Hun & Hone & Hlast) Hseq H.
  destruct e as [i resolved|a|]; simpl in H.
  - apply effect_settle_inv in H
      as (r & p & st1 & p' & Hi & Hp & Hres & ->).
    assert (last (AudioPlayerEffect.runs st) = Some r) as Hl.
    { apply (effect_last_index _ i); [done|].
      intros Hlt. specialize (Hone _ _ Hi Hlt). congruence. }
    destruct (Hlast _ Hl) as [Hflag Hstage]. rewrite Hp in Hstage.
    pose proof (lookup_lt_Some _ _ _ Hi) as Hlen.
    assert (last (<[i := AudioPlayerEffect.with_pending p' r]>
                    (AudioPlayerEffect.runs st))
            = Some (AudioPlayerEffect.with_pending p' r)) as Hl'.
    { rewrite last_lookup in Hl |- *. rewrite length_insert.
      assert (Init.Nat.pred (length (AudioPlayerEffect.runs st)) = i)
        as ->.
      { destruct (decide (S i < length (AudioPlayerEffect.runs st)))
          as [Hlt|]; [|lia].
        specialize (Hone _ _ Hi Hlt). congruence. }
      by apply list_lookup_insert_eq. }
    assert (∀ j r', <[i := AudioPlayerEffect.with_pending p' r]>
                      (AudioPlayerEffect.runs st) !! j = Some r' →
                    S j < length (AudioPlayerEffect.runs st) →
                    AudioPlayerEffect.pending r' = None) as Hone'.
    { intros j r' Hj Hlt.
      apply list_lookup_insert_Some in Hj as [(-> & <- & _)|[Hne Hj]].
      - specialize (Hone _ _ Hi Hlt). congruence.
      - by eapply Hone. }
    unfold effectReleases. simpl. rewrite length_insert, Hl'.
    unfold AudioPlayerEffect.resume, AudioPlayerEffect.catch in Hres.
    destruct resolved; simpl in Hres.
    + destruct p; simpl in Hres.
      * simplify_eq/=. split_and!; [|by intros _ s [=]|done|].
        -- intros s Hs. left. apply elem_of_app. left.
           destruct (Hall s Hs) as [Hc|Hr]; [done|by apply Hstage].
        -- intros r' [= <-]. simpl. split; [congruence|done].
      * simplify_eq/=.
        split_and!; [|by intros Hm s Hr; rewrite Hstage in Hr|done|].
        -- intros s Hs. destruct (Hall s Hs) as [Hc|Hr]; [|by right].
           left. apply elem_of_app. by left.
        -- intros r' [= <-]. simpl. split; [congruence|done].
      * simplify_eq/=.
        split_and!; [|by intros Hm s Hr; rewrite Hstage in Hr|done|].
        -- intros s Hs. destruct (Hall s Hs) as [Hc|Hr]; [|by right].
           left. apply elem_of_app. by left.
        -- intros r' [= <-]. simpl. split; [congruence|done].
      * destruct (AudioPlayerEffect.isMounted r) eqn:Hm; simplify_eq/=.
        -- split_and!; [|intros Hf; congruence|done|].
           ++ intros s Hs.
              destruct (decide (s = AudioPlayerEffect.created st))
                as [->|Hne]; [by right|].
              assert (s < AudioPlayerEffect.created st) as Hlt by lia.
              destruct (Hall s Hlt) as [Hc|Hr]; [|congruence].
              left. apply elem_of_app. by left.
           ++ intros r' [= <-]. simpl. split; [congruence|done].
        -- split_and!; [| |done|].
           ++ intros s Hs. left. apply elem_of_app.
              destruct (decide (s = AudioPlayerEffect.created st))
                as [->|Hne]; [right; apply list_elem_of_here|left].
              assert (s < AudioPlayerEffect.created st) as Hlt by lia.
              destruct (Hall s Hlt) as [Hc|Hr]; [done|congruence].
           ++ intros _ s [= <-]. apply elem_of_app. right.
              apply list_elem_of_here.
           ++ intros r' [= <-]. simpl. split; [congruence|done].
      * simplify_eq/=. split_and!; [|by intros _ s [=]|done|].
        -- intros s Hs. left.
           destruct (Hall s Hs) as [Hc|Hr]; [done|by apply Hun].
        -- intros r' [= <-]. simpl. split; [congruence|done].
    + simplify_eq/=. split_and!; [| |done|].
      * intros s Hs. destruct (Hall s Hs) as [Hc|Hr]; [|by right].
        left. apply elem_of_app. by left.
      * intros Hm s Hs. apply elem_of_app. left. by apply Hun.
      * intros r' [= <-]. simpl. split; [congruence|done].
  - destruct (AudioPlayerEffect.rendered st) eqn:Hr; [|done].
    destruct (last (AudioPlayerEffect.runs st)) as [r0|] eqn:Hl; [|done].
    case_bool_decide; [|done]. simplify_eq.
    destruct (effect_cleanup_spec st)
      as (Hc1 & Hc2 & Hc3 & Hc4 & Hc5 & Hc6).
    destruct (effect_effect_spec a _ Hc3)
      as (He1 & He2 & He3 & He4 & He5 & He6).
    unfold effectReleases.
    rewrite He1, He2, He3, He5, He6, Hc1, Hc2, Hc5, Hc6, Hr.
    split_and!.
    + intros s Hs. left. apply elem_of_app. left. apply elem_of_app.
      destruct (Hall s Hs) as [Hc|Hs']; [by left|].
      right. rewrite Hs'. apply list_elem_of_here.
    + done.
    + intros j r' Hj Hlt. rewrite length_app, length_alter in Hlt.
      simpl in Hlt.
      apply lookup_app_Some in Hj as [Hj|[Hge Hj]].
      * rewrite list_lookup_alter in Hj. case_decide.
        -- destruct (AudioPlayerEffect.runs st !! _) as [r1|] eqn:Hr1;
             simplify_eq/=.
           by eapply effect_idle_lookup.
        -- by eapply effect_idle_lookup.
      * rewrite length_alter in Hge. lia.
    + intros r'. rewrite last_snoc. by intros [= <-].
  - destruct (AudioPlayerEffect.rendered st) eqn:Hr; [|done].
    simplify_eq.
    destruct (effect_cleanup_spec st)
      as (Hc1 & Hc2 & Hc3 & Hc4 & Hc5 & Hc6).
    unfold effectReleases. simpl. rewrite Hc2, Hc3, Hc5, Hc6.
    split_and!.
    + intros s Hs. left. apply elem_of_app.
      destruct (Hall s Hs) as [Hc|Hs']; [by left|].
      right. rewrite Hs'. apply list_elem_of_here.
    + by intros _ s [=].
    + intros j r' Hj Hlt. rewrite length_alter in Hlt.
      rewrite list_lookup_alter in Hj. case_decide.
      * destruct (AudioPlayerEffect.runs st !! _) as [r1|] eqn:Hr1;
          simplify_eq/=. lia.
      * by eapply Hone.
    + intros r'. rewrite last_lookup, length_alter, list_lookup_alter.
      rewrite decide_True by lia.
      rewrite last_lookup in Hlast.
      replace (length (AudioPlayerEffect.runs st) - 1)
        with (Init.Nat.pred (length (AudioPlayerEffect.runs st))) by lia.
      destruct (AudioPlayerEffect.runs st !! _) as [r1|] eqn:Hr1;
        [|done].
      intros [= <-]. simpl. split; [done|].
      destruct (Hlast _ eq_refl) as [_ Hstage].
      destruct (AudioPlayerEffect.pending r1) as [[]|]; done.
Qed.

Lemma effect_released_run es st st' :
  effectReleases st →
  AudioPlayerEffect.sequential es st = true →
  AudioPlayerEffect.run es st = Some st' →
  effectReleases st'.
Proof.
  revert st. induction es as [|e es IH]; intros st Hinv Hseq H;
    simpl in H, Hseq.
  - by simplify_eq.
  - destruct (AudioPlayerEffect.step e st) as [st1|] eqn:E; [|done].
    apply andb_prop in Hseq as [He Hseq].
    eapply IH; [|exact Hseq|exact H]. by eapply effect_released_step.
Qed.

(** X15.  The loading effect leaks no sound as long as [audioBase64]
    changes only while no [loadAudio] is in flight.  Along every such
    run from the mount, however the promises settle, every sound created
    so far has been asked to unload or is the one [soundRef] holds; and
    once the component is unmounted [unloadAsync] has been called on
    every sound that was ever created, one created after the unmount
    included.  When [audioBase64] changes while the load before is
    still at [createAsync], a sound can leak: in [overlappingLoads]
    every promise resolves, the new load finishes first, the
    [createAsync] of the old one then overwrites [soundRef] and its
    run, being stale, unloads its own sound and clears the ref; at the
    end the player is unmounted, nothing is in flight, two sounds were
    created and [unloadAsync] was called on the second one only: the
    sound the state cell holds was never unloaded. *)
Theorem every_created_sound_is_unloaded :
  (∀ a es st,
     AudioPlayerEffect.run es (AudioPlayerEffect.mounted a) = Some st →
     AudioPlayerEffect.sequential es (AudioPlayerEffect.mounted a) = true →
     (∀ s, s < AudioPlayerEffect.created st →
           AudioPlayerEffect.UnloadAsync s ∈ AudioPlayerEffect.calls st
           ∨ AudioPlayerEffect.soundRef st = Some s)
     ∧ (AudioPlayerEffect.rendered st = false →
        ∀ s, s < AudioPlayerEffect.created st →
             AudioPlayerEffect.UnloadAsync s ∈ AudioPlayerEffect.calls st))
  ∧ (AudioPlayerEffect.run overlappingLoads
       (AudioPlayerEffect.mounted (str "UklGRg"))
     = Some afterOverlappingLoads
     ∧ AudioPlayerEffect.sequential overlappingLoads
         (AudioPlayerEffect.mounted (str "UklGRg")) = false
     ∧ AudioPlayerEffect.rendered afterOverlappingLoads = false
     ∧ AudioPlayerEffect.idle afterOverlappingLoads = true
     ∧ AudioPlayerEffect.created afterOverlappingLoads = 2
     ∧ AudioPlayerEffect.unloads afterOverlappingLoads = [1]
     ∧ AudioPlayerEffect.sound afterOverlappingLoads = Some 0
     ∧ AudioPlayerEffect.soundRef afterOverlappingLoads = None).
Proof.
  split.
  - intros a es st Hrun Hseq.
    assert (effectReleases (AudioPlayerEffect.mounted a)) as Hinit.
    { unfold effectReleases. simpl. split_and!.
      - intros s Hs. lia.
      - done.
      - intros [|[|?]] r Hi Hlt; simplify_eq/=; lia.
      - by intros r [= <-]. }
    destruct (effect_released_run _ _ _ Hinit Hseq Hrun)
      as (Hall & Hun & _).
    split; [done|]. intros Hr s Hs.
    destruct (Hall s Hs) as [Hc|Hs']; [done|by apply Hun].
  - split_and!; vm_compute; reflexivity.
Qed.

Lemma every_created_sound_is_unloaded_witness :
  (∀ s, s < AudioPlayerEffect.created afterSecondAudio →
        AudioPlayerEffect.UnloadAsync s
        ∈ AudioPlayerEffect.calls afterSecondAudio
        ∨ AudioPlayerEffect.soundRef afterSecondAudio = Some s)
  ∧ (AudioPlayerEffect.rendered afterSecondAudio = false →
     ∀ s, s < AudioPlayerEffect.created afterSecondAudio →
          AudioPlayerEffect.UnloadAsync s
          ∈ AudioPlayerEffect.calls afterSecondAudio).
Proof.
  apply (proj1 every_created_sound_is_unloaded (str "UklGRg")
           secondAudioAfterTheFirst).
  - vm_compute. reflexivity.
  - vm_compute. reflexivity.
Defined.

(** * The navigation based screens *)

Lemma cameraScreen_resume_ends p o st st' :
  CameraScreen.resume p o st = Some (st', None) →
  CameraScreen.isProcessing st' = false
  ∧ CameraScreen.loadingMessage st' = []
  ∧ CameraScreen.cameraRefCurrent st' = CameraScreen.cameraRefCurrent st
  ∧ ((∃ message,
        CameraScreen.alerts st'
        = CameraScreen.alerts st ++ [(str "Error", message)]
        ∧ CameraScreen.route st' = CameraScreen.route st)
     ∨ (∃ result,
          p = CameraScreen.ReadImage ∧ o = CameraScreen.Read result
          ∧ CameraScreen.alerts st' = CameraScreen.alerts st
          ∧ CameraScreen.route st'
            = CameraScreen.Player (CameraScreen.text result)
                (CameraScreen.audio_base64 result)
                (CameraScreen.duration_seconds result)
                (CameraScreen.detected_language result))).
Proof.
  intros H.
  destruct p, o; simpl in H; unfold CameraScreen.catch in H;
    cases; simplify_eq/=;
    (split_and!; [done..|]);
    first [by left; eexists|by right; eexists].
Qed.

Lemma cameraScreen_resume_continues p o st st' p' :
  CameraScreen.resume p o st = Some (st', Some p') →
  CameraScreen.alerts st' = CameraScreen.alerts st
  ∧ CameraScreen.route st' = CameraScreen.route st
  ∧ CameraScreen.cameraRefCurrent st' = CameraScreen.cameraRefCurrent st.
Proof.
  intros H.
  destruct p, o; simpl in H; unfold CameraScreen.catch in H;
    cases; by simplify_eq/=.
Qed.

Lemma cameraScreen_drive_ends os st p st' :
  cameraScreen_drive os (st, Some p) = Some (st', None) →
  CameraScreen.isProcessing st' = false
  ∧ CameraScreen.loadingMessage st' = []
  ∧ CameraScreen.cameraRefCurrent st' = CameraScreen.cameraRefCurrent st
  ∧ ((∃ message,
        CameraScreen.alerts st'
        = CameraScreen.alerts st ++ [(str "Error", message)]
        ∧ CameraScreen.route st' = CameraScreen.route st)
     ∨ (∃ text audioBase64 duration language,
          CameraScreen.alerts st' = CameraScreen.alerts st
          ∧ CameraScreen.route st'
            = CameraScreen.Player text audioBase64 duration language)).
Proof.
  revert st p. induction os as [|o os IH]; intros st p H; simpl in H.
  - done.
  - destruct (CameraScreen.resume p o st) as [[st1 [p1|]]|] eqn:Hr; [| |done].
    + destruct (cameraScreen_resume_continues _ _ _ _ _ Hr)
        as (Ha & Hro & Hc).
      destruct (IH _ _ H) as (H1 & H2 & H3 & H4).
      rewrite Ha, Hro, Hc in *. by split_and!.
    + destruct os; simpl in H; simplify_eq.
      destruct (cameraScreen_resume_ends _ _ _ _ Hr)
        as (H1 & H2 & H3 & [H4|(result & _ & _ & Ha & Hro)]).
      * split_and!; auto.
      * split_and!; [done..|]. right. by do 4 eexists.
Qed.

(** X16.  On the camera screen of the navigation based app, a
    [handleCapture] that has passed its guard and has run to its end,
    however its awaits settled, has cleared [isProcessing] and the
    loading message and has done exactly one of two things: raised one
    alert titled 'Error' and stayed on the route it was on, or replaced
    the route by the player without raising an alert. *)
Theorem camera_screen_capture_alerts_or_navigates
    (st st' : CameraScreen.State) (os : list CameraScreen.Outcome) :
  CameraScreen.cameraRefCurrent st = true →
  CameraScreen.isProcessing st = false →
  cameraScreen_drive os (CameraScreen.handleCapture st) = Some (st', None) →
  CameraScreen.isProcessing st' = false
  ∧ CameraScreen.loadingMessage st' = []
  ∧ ((∃ message,
        CameraScreen.alerts st'
        = CameraScreen.alerts st ++ [(str "Error", message)]
        ∧ CameraScreen.route st' = CameraScreen.route st)
     ∨ (∃ text audioBase64 duration language,
          CameraScreen.alerts st' = CameraScreen.alerts st
          ∧ CameraScreen.route st'
            = CameraScreen.Player text audioBase64 duration language)).
Proof.
  intros Hcam Hidle H. unfold CameraScreen.handleCapture in H.
  rewrite Hcam, Hidle in H. simpl in H.
  destruct (cameraScreen_drive_ends _ _ _ _ H) as (H1 & H2 & _ & H4).
  by split_and!.
Qed.

Lemma camera_screen_capture_alerts_or_navigates_witness :
  CameraScreen.isProcessing cameraTimedOut = false
  ∧ CameraScreen.loadingMessage cameraTimedOut = []
  ∧ ((∃ message,
        CameraScreen.alerts cameraTimedOut
        = CameraScreen.alerts cameraIdle ++ [(str "Error", message)]
        ∧ CameraScreen.route cameraTimedOut = CameraScreen.route cameraIdle)
     ∨ (∃ text audioBase64 duration language,
          CameraScreen.alerts cameraTimedOut = CameraScreen.alerts cameraIdle
          ∧ CameraScreen.route cameraTimedOut
            = CameraScreen.Player text audioBase64 duration language)).
Proof.
  apply (camera_screen_capture_alerts_or_navigates cameraIdle cameraTimedOut
           readTimesOut).
  - reflexivity.
  - reflexivity.
  - vm_compute. reflexivity.
Defined.

(** X17.  What the camera screen tells the user when a step fails.  A
    failure inside [imageToBase64], whatever was thrown, is reported as
    'Failed to process image'; a failure of [readImage] is reported with
    the message of the service client's interceptor, so a request that
    timed out or could not reach the server shows 'Cannot connect to
    server. Please check your connection.' and an error response shows
    the [detail] of its body or 'Server error'.  In each case the route
    stays and [isProcessing] is cleared. *)
Theorem camera_screen_reports_the_failing_step
    (st : CameraScreen.State) :
  (∀ p e o,
     inImageToBase64 p = true →
     ∃ st',
       cameraScreen_drive [CameraScreen.Failed e; o] (st, Some p)
       = Some (st', None)
       ∧ CameraScreen.alerts st'
         = CameraScreen.alerts st
             ++ [(str "Error", str "Failed to process image")]
       ∧ CameraScreen.route st' = CameraScreen.route st
       ∧ CameraScreen.isProcessing st' = false)
  ∧ (∀ e,
       ∃ st',
         cameraScreen_drive
           [CameraScreen.Failed (ThrownError (ApiService.interceptor e))]
           (st, Some CameraScreen.ReadImage)
         = Some (st', None)
         ∧ CameraScreen.alerts st'
           = CameraScreen.alerts st
               ++ [(str "Error",
                    match ApiService.response e with
                    | Some detail => serverErrorMessage detail
                    | None =>
                        if ApiService.requestSent e
                        then str "Cannot connect to server. Please check your connection."
                        else str "Request failed. Please try again."
                    end)]
         ∧ CameraScreen.route st' = CameraScreen.route st
         ∧ CameraScreen.isProcessing st' = false).
Proof.
  split.
  - intros p e o Hp. destruct p; try discriminate Hp; simpl;
      eexists; by split_and!.
  - intros e. simpl. eexists. by split_and!.
Qed.

Lemma camera_screen_reports_the_failing_step_witness :
  ∃ st',
    cameraScreen_drive
      [CameraScreen.Failed ThrownValue; CameraScreen.Settled]
      (cameraProcessing, Some CameraScreen.ImageToBase64_read)
    = Some (st', None)
    ∧ CameraScreen.alerts st'
      = CameraScreen.alerts cameraProcessing
          ++ [(str "Error", str "Failed to process image")]
    ∧ CameraScreen.route st' = CameraScreen.route cameraProcessing
    ∧ CameraScreen.isProcessing st' = false.
Proof.
  apply (proj1 (camera_screen_reports_the_failing_step cameraProcessing)).
  reflexivity.
Defined.

(** * The home screen of the navigation based app *)

(** X18.  The status line of the home screen agrees with what the
    camera button does.  After a health check has settled, the dot is
    green and the text 'Ready' or 'Connected (TTS loading...)' exactly
    when the check succeeded, and then "Take Photo" opens the camera
    without an alert; after a failed check the dot is red, the text is
    'Server Offline' whatever [ttsModelLoaded] still holds, and "Take
    Photo" raises the 'Server Unavailable' alert and stays on the
    route; pressing 'Retry' there shows 'Connecting...' on a yellow
    dot. *)
Theorem home_status_agrees_with_the_camera_button
    (st : HomeScreen.State) (o : HomeScreen.HealthOutcome) :
  let st' :=
    HomeScreen.checkServerHealth_settled o (HomeScreen.checkServerHealth st)
  in
  match o with
  | HomeScreen.Health tts_model_loaded =>
      HomeScreenView.getStatusColor st' = str "#4CAF50"
      ∧ HomeScreenView.getStatusText st'
        = (if tts_model_loaded then str "Ready"
           else str "Connected (TTS loading...)")
      ∧ HomeScreen.route (HomeScreen.handleCameraPress st')
        = HomeScreen.Camera
      ∧ HomeScreen.alerts (HomeScreen.handleCameraPress st')
        = HomeScreen.alerts st
  | HomeScreen.Failure _ =>
      HomeScreenView.getStatusColor st' = str "#F44336"
      ∧ HomeScreenView.getStatusText st' = str "Server Offline"
      ∧ HomeScreen.ttsModelLoaded st' = HomeScreen.ttsModelLoaded st
      ∧ HomeScreen.route (HomeScreen.handleCameraPress st')
        = HomeScreen.route st
      ∧ (∃ title message,
           HomeScreen.alerts (HomeScreen.handleCameraPress st')
           = HomeScreen.alerts st
               ++ [(title, message, [HomeScreen.Retry; HomeScreen.Cancel])])
      ∧ HomeScreenView.getStatusText
          (HomeScreen.pressAlertButton HomeScreen.Retry
             (HomeScreen.handleCameraPress st'))
        = str "Connecting..."
      ∧ HomeScreenView.getStatusColor
          (HomeScreen.pressAlertButton HomeScreen.Retry
             (HomeScreen.handleCameraPress st'))
        = str "#FFC107"
  end.
Proof.
  destruct o as [loaded|e]; simpl.
  - unfold HomeScreenView.getStatusText. simpl. by split_and!.
  - split_and!; try done. by do 2 eexists.
Qed.

(** * Why the player screen shows 'Preparing Audio...' *)

Lemma resume_accounted p o w r :
  resume p o w = Some r →
  screen (after r) = player → audioReady (after r) = false →
  isGeneratingAudio (after r) = false → ttsError (after r) = None →
  (∃ p', next r = Some p' ∧ leaving p' = true)
  ∨ (leaving p = false ∧ screen w = player ∧ audioReady w = false
     ∧ isGeneratingAudio w = false ∧ ttsError w = None).
Proof.
  intros H Hs Ha Hg He.
  resume_cases p o H;
    try match goal with k : Caller |- _ => destruct k end;
    first [by left; eexists|by right; split_and!].
Qed.

Lemma handle_accounted e w w' ps :
  handle e w = Some (w', ps) →
  screen w' = player → audioReady w' = false →
  isGeneratingAudio w' = false → ttsError w' = None →
  (∃ g, ps = [g] ∧ leaving g = true)
  ∨ (screen w = player ∧ audioReady w = false
     ∧ isGeneratingAudio w = false ∧ ttsError w = None).
Proof.
  intros H Hs Ha Hg He.
  handle_cases e H;
    first [by left; eexists|by right; split_and!|congruence].
Qed.

Lemma playerAccounted_step e sys sys' :
  playerAccounted sys → step e sys = Some sys' → playerAccounted sys'.
Proof.
  unfold playerAccounted. intros IH Hstep Hs.
  destruct (audioReady (world sys')) eqn:Ha; [by left|].
  destruct (isGeneratingAudio (world sys')) eqn:Hg; [by right; left|].
  destruct (ttsError (world sys')) as [m|] eqn:He;
    [by right; right; left; eexists|].
  do 3 right.
  apply step_inv in Hstep
    as [(pid & o & p & r & -> & Hp & Hr & ->)|(w & ps & Hh & ->)].
  - destruct (resume_accounted _ _ _ _ Hr Hs Ha Hg He)
      as [(p' & Hn & Hl)|(Hl & Hs0 & Ha0 & Hg0 & He0)].
    + exists pid, p'. split; [|done].
      rewrite <- Hn. by eapply (settled_lookup_same pid r sys).
    + destruct (IH Hs0) as [?|[?|[[? ?]|(pid1 & p1 & Hp1 & Hl1)]]];
        try congruence.
      exists pid1, p1. split; [|done].
      apply (settled_lookup_other pid r sys); [|done].
      intros ->. congruence.
  - destruct (handle_accounted _ _ _ _ Hh Hs Ha Hg He)
      as [(g & -> & Hl)|(Hs0 & Ha0 & Hg0 & He0)].
    + exists (length (pool sys)), g. split; [|done].
      apply started_lookup_new.
    + destruct (IH Hs0) as [?|[?|[[? ?]|(pid1 & p1 & Hp1 & Hl1)]]];
        try congruence.
      exists pid1, p1. split; [|done].
      by apply (started_lookup_old w ps sys).
Qed.

(** X19.  'Preparing Audio...' always has a cause.  In every reachable
    state in which the player screen is up and [audioReady] is false,
    the audio is being generated, or a synthesis has failed, or the
    screen is being left: the [cleanupSound()] of "Home" or of "Take
    Another Photo" is in flight.  After a failed synthesis [ttsError]
    holds the message, and "Retry Audio" is rendered, and can be
    pressed, exactly when that message is not empty; with an empty
    message nothing is offered. *)
Theorem preparing_audio_has_a_cause (sys : System) :
  reachable sys →
  screen (world sys) = player →
  audioReady (world sys) = false →
  isGeneratingAudio (world sys) = true
  ∨ (∃ message,
       ttsError (world sys) = Some message
       ∧ retryRendered (world sys) = truthy message
       ∧ if truthy message then is_Some (step PressRetry sys)
         else step PressRetry sys = None)
  ∨ ∃ pid p, pool sys !! pid = Some (Some p) ∧ leaving p = true.
Proof.
  intros [es H] Hs Ha.
  assert (playerAccounted sys) as Hacc.
  { eapply (run_invariant playerAccounted); [..|exact H].
    - apply playerAccounted_step.
    - intros Hp. vm_compute in Hp. done. }
  destruct (Hacc Hs) as [?|[?|[[message He]|?]]];
    [congruence|by left| |by right; right].
  right; left. exists message.
  assert (retryRendered (world sys) = truthy message) as Hr.
  { unfold retryRendered. by rewrite Hs, He. }
  split_and!; [done..|].
  unfold step, handle. rewrite Hr.
  destruct (truthy message); [|done].
  destruct (retryAudio (world sys)). by eexists.
Qed.

Lemma preparing_audio_has_a_cause_witness :
  isGeneratingAudio (world afterEmptyDetailFailure) = true
  ∨ (∃ message,
       ttsError (world afterEmptyDetailFailure) = Some message
       ∧ retryRendered (world afterEmptyDetailFailure) = truthy message
       ∧ if truthy message
         then is_Some (step PressRetry afterEmptyDetailFailure)
         else step PressRetry afterEmptyDetailFailure = None)
  ∨ ∃ pid p,
      pool afterEmptyDetailFailure !! pid = Some (Some p)
      ∧ leaving p = true.
Proof.
  apply preparing_audio_has_a_cause.
  - exists emptyDetailFailure. vm_compute. reflexivity.
  - reflexivity.
  - reflexivity.
Defined.

(** * The home screen of [App] *)

(** X20.  The status control of the home screen agrees with what "Take
    Photo" does.  When the label reads 'Server Ready' on a green dot,
    "Take Photo" raises no alert: it opens the camera when the
    permission is granted and asks for the permission otherwise.  With
    any other label ('Server Offline (tap to retry)' on red,
    'Connecting...' on yellow) it raises one alert, 'Server not
    connected', and stays where it is.  In no case does it start a
    health check, which only a press on the status control does. *)
Theorem take_photo_agrees_with_the_status_label (w : World) :
  match serverStatus w with
  | connected =>
      statusText w = str "Server Ready" ∧ statusColor w = str "#4CAF50"
      ∧ alerts (takePhoto w) = alerts w
      ∧ (if permissionGranted w
         then screen (takePhoto w) = camera ∧ log (takePhoto w) = log w ++ [SetScreen camera]
         else screen (takePhoto w) = screen w
              ∧ log (takePhoto w) = log w ++ [RequestPermission])
  | _ =>
      statusText w ≠ str "Server Ready" ∧ statusColor w ≠ str "#4CAF50"
      ∧ alerts (takePhoto w) = S (alerts w)
      ∧ screen (takePhoto w) = screen w
      ∧ log (takePhoto w)
        = log w ++ [AlertAlert (str "Server not connected")
                      (str "Please wait or check connection")]
  end
  ∧ serverStatus (takePhoto w) = serverStatus w.
Proof.
  unfold takePhoto, statusText, statusColor, alerts.
  destruct (serverStatus w) eqn:Hst; simpl;
    rewrite ?filter_app, ?length_app; simpl.
  - split_and!; try done; try lia; by vm_compute.
  - destruct (permissionGranted w); simpl;
      rewrite ?filter_app, ?length_app; simpl;
      split_and!; try done; lia.
  - split_and!; try done; try lia; by vm_compute.
Qed.
